(** * goflac: a shallow embedding of the FLAC stream encoder

    The development follows the Go sources [bitwriter.go] (the bit sink) and
    [sine.go] (code tables, CRC engine, subframe coder, frame and stream
    assembler).

    Conventions.
    - Go's fixed-width integers are values of [Z]; every wrap-around and every
      conversion between widths is written out ([u8], [u32], [u64], [i32]).
    - Go's [int] is taken unbounded: it only ever holds lengths, indices and
      bit counts.
    - A run-time panic and a returned [error] are the two abnormal outcomes of
      [result]; the bytes a failed call had already handed to the sink are not
      tracked.
    - The sink [e.w] is the log of the [Write] calls it received, oldest
      first; its [Write] never fails (the [bytes.Buffer] of the tests and of
      the example driver). *)

From Stdlib Require Import ZArith List Bool Lia.
From Stdlib Require Floats.SpecFloat.
Import ListNotations.
Local Open Scope Z_scope.

(** ** Outcomes *)

Inductive panic : Set :=
| NegativeShift      (* shift by a negative amount *)
| IndexOutOfRange    (* s[i] with i outside 0..len(s)-1 *)
| SliceBounds        (* s[a:b] with a > b or b > cap(s) *)
| MakeNegative       (* make([]T, n) with n < 0 *)
| DivideByZero.      (* integer division by zero *)

Inductive error : Set :=
| ErrInvalidChannels   (* "invalid number of channels" *)
| ErrInvalidBits       (* "invalid bits per sample" *)
| ErrChannelCount      (* "sample count mismatch with channels" *)
| ErrBlockSize.        (* "all channels must have same block size" *)

Inductive result (A : Type) : Type :=
| Ok (a : A)
| Err (e : error)
| Panic (p : panic).
Arguments Ok {A} a.
Arguments Err {A} e.
Arguments Panic {A} p.

Definition bind {A B : Type} (m : result A) (k : A -> result B) : result B :=
  match m with
  | Ok a => k a
  | Err e => Err e
  | Panic p => Panic p
  end.

Notation "x <- m ;; k" := (bind m (fun x => k))
  (at level 61, m at next level, right associativity).

(** ** Fixed-width integers *)

Definition u8 (x : Z) : Z := x mod 2 ^ 8.
Definition u16 (x : Z) : Z := x mod 2 ^ 16.
Definition u32 (x : Z) : Z := x mod 2 ^ 32.
Definition u64 (x : Z) : Z := x mod 2 ^ 64.

(** Signed 32-bit wrap-around: the representative in [-2^31, 2^31). *)
Definition i32 (x : Z) : Z := (x + 2 ^ 31) mod 2 ^ 32 - 2 ^ 31.

(** [x << n] on a 64-bit unsigned operand, [n >= 0]; a count of 64 or more
    gives 0, which the reduction modulo 2^64 already yields. *)
Definition shl64 (x n : Z) : Z := u64 (Z.shiftl x n).

(** [(1 << n) - 1] at type uint64 ([n = 64] gives all ones). *)
Definition mask64 (n : Z) : Z := u64 (shl64 1 n - 1).

(** ** bitwriter.go *)

Record bitWriter : Set := mkBitWriter {
  buf : list Z;      (* bytes.Buffer: the bytes written so far *)
  current : Z;       (* uint64 *)
  bitCount : Z       (* int *)
}.

Definition newBitWriter : bitWriter := mkBitWriter [] 0 0.

(** One iteration of [for bw.bitCount >= 8 { ... }]. *)
Definition flushByte (bw : bitWriter) : bitWriter :=
  let bc := bitCount bw - 8 in
  let b := u8 (Z.shiftr (current bw) bc) in
  mkBitWriter (buf bw ++ [b]) (Z.land (current bw) (mask64 bc)) bc.

(** The loop itself; [fuel] bounds the number of iterations. *)
Fixpoint flushLoop (fuel : nat) (bw : bitWriter) : bitWriter :=
  match fuel with
  | O => bw
  | S fuel' =>
      if 8 <=? bitCount bw then flushLoop fuel' (flushByte bw) else bw
  end.

(** The body of [writeBits] for [n > 0]. Each iteration of the loop takes 8
    off [bitCount], so [bitCount / 8] iterations are all it can make. *)
Definition writeBitsCore (bw : bitWriter) (value n : Z) : bitWriter :=
  let cur := Z.lor (shl64 (current bw) n) (Z.land value (mask64 n)) in
  let bc := bitCount bw + n in
  flushLoop (Z.to_nat (bc / 8)) (mkBitWriter (buf bw) cur bc).

Definition writeBits (bw : bitWriter) (value n : Z) : result bitWriter :=
  if n =? 0 then Ok bw
  else if n <? 0 then Panic NegativeShift
  else Ok (writeBitsCore bw value n).

(** [uint64((1 << n) + value)] with [value] an int64: the shift and the sum
    wrap in int64 and the conversion reinterprets, which together is the sum
    modulo 2^64. *)
Definition writeBitsSigned (bw : bitWriter) (value n : Z) : result bitWriter :=
  if value <? 0 then
    if n <? 0 then Panic NegativeShift
    else writeBits bw (u64 (Z.shiftl 1 n + value)) n
  else writeBits bw (u64 value) n.

Definition writeUTF8 (bw : bitWriter) (value : Z) : result bitWriter :=
  let sh k := Z.shiftr value k in
  let cont k := Z.lor 0x80 (Z.land (sh k) 0x3F) in
  if value <? 0x80 then
    writeBits bw value 8
  else if value <? 0x800 then
    bw <- writeBits bw (Z.lor 0xC0 (sh 6)) 8 ;;
    writeBits bw (cont 0) 8
  else if value <? 0x10000 then
    bw <- writeBits bw (Z.lor 0xE0 (sh 12)) 8 ;;
    bw <- writeBits bw (cont 6) 8 ;;
    writeBits bw (cont 0) 8
  else if value <? 0x200000 then
    bw <- writeBits bw (Z.lor 0xF0 (sh 18)) 8 ;;
    bw <- writeBits bw (cont 12) 8 ;;
    bw <- writeBits bw (cont 6) 8 ;;
    writeBits bw (cont 0) 8
  else if value <? 0x4000000 then
    bw <- writeBits bw (Z.lor 0xF8 (sh 24)) 8 ;;
    bw <- writeBits bw (cont 18) 8 ;;
    bw <- writeBits bw (cont 12) 8 ;;
    bw <- writeBits bw (cont 6) 8 ;;
    writeBits bw (cont 0) 8
  else if value <? 0x80000000 then
    bw <- writeBits bw (Z.lor 0xFC (sh 30)) 8 ;;
    bw <- writeBits bw (cont 24) 8 ;;
    bw <- writeBits bw (cont 18) 8 ;;
    bw <- writeBits bw (cont 12) 8 ;;
    bw <- writeBits bw (cont 6) 8 ;;
    writeBits bw (cont 0) 8
  else
    bw <- writeBits bw (Z.lor 0xFE (sh 36)) 8 ;;
    bw <- writeBits bw (cont 30) 8 ;;
    bw <- writeBits bw (cont 24) 8 ;;
    bw <- writeBits bw (cont 18) 8 ;;
    bw <- writeBits bw (cont 12) 8 ;;
    bw <- writeBits bw (cont 6) 8 ;;
    writeBits bw (cont 0) 8.

Definition alignToByte (bw : bitWriter) : result bitWriter :=
  if 0 <? bitCount bw then writeBits bw 0 (8 - bitCount bw) else Ok bw.

Definition bytes (bw : bitWriter) : list Z := buf bw.

(** ** Slices of samples

    A [[]int32] is read, indexed and resliced but never written. It is the
    window [elems] onto its backing array, of which [spare] is the part
    between the length and the capacity. *)

Record slice : Set := mkSlice { elems : list Z; spare : list Z }.

Definition len (s : slice) : Z := Z.of_nat (length (elems s)).
Definition cap (s : slice) : Z := Z.of_nat (length (elems s ++ spare s)).

(** [l[i]] *)
Definition index {A : Type} (l : list A) (i : Z) : result A :=
  if i <? 0 then Panic IndexOutOfRange
  else match nth_error l (Z.to_nat i) with
       | Some x => Ok x
       | None => Panic IndexOutOfRange
       end.

(** [s[lo:hi]]: the upper bound is checked against the capacity. *)
Definition reslice (s : slice) (lo hi : Z) : result slice :=
  if (0 <=? lo) && (lo <=? hi) && (hi <=? cap s) then
    let backing := elems s ++ spare s in
    Ok (mkSlice (firstn (Z.to_nat (hi - lo)) (skipn (Z.to_nat lo) backing))
                (skipn (Z.to_nat hi) backing))
  else Panic SliceBounds.

(** [for i := lo; i < lo + count; i++ { s = body(i, s) }] *)
Fixpoint forRange {S : Type} (i : Z) (count : nat)
    (body : Z -> S -> result S) (s : S) : result S :=
  match count with
  | O => Ok s
  | Datatypes.S count' => s' <- body i s ;; forRange (i + 1) count' body s'
  end.

(** ** sine.go: code tables *)

Definition getBlockSizeCode (blockSize : Z) : Z :=
  if blockSize =? 192 then 0x01
  else if blockSize =? 576 then 0x02
  else if blockSize =? 1152 then 0x03
  else if blockSize =? 2304 then 0x04
  else if blockSize =? 4608 then 0x05
  else if blockSize =? 256 then 0x08
  else if blockSize =? 512 then 0x09
  else if blockSize =? 1024 then 0x0A
  else if blockSize =? 2048 then 0x0B
  else if blockSize =? 4096 then 0x0C
  else if blockSize =? 8192 then 0x0D
  else if blockSize =? 16384 then 0x0E
  else if blockSize =? 32768 then 0x0F
  else if blockSize <=? 256 then 0x06
  else 0x07.

Definition getSampleRateCode (sampleRate : Z) : Z :=
  if sampleRate =? 88200 then 0x01
  else if sampleRate =? 176400 then 0x02
  else if sampleRate =? 192000 then 0x03
  else if sampleRate =? 8000 then 0x04
  else if sampleRate =? 16000 then 0x05
  else if sampleRate =? 22050 then 0x06
  else if sampleRate =? 24000 then 0x07
  else if sampleRate =? 32000 then 0x08
  else if sampleRate =? 44100 then 0x09
  else if sampleRate =? 48000 then 0x0A
  else if sampleRate =? 96000 then 0x0B
  else if (sampleRate mod 1000 =? 0) && (sampleRate / 1000 <? 256) then 0x0C
  else if sampleRate <? 65536 then 0x0D
  else 0x0E.

Definition getSampleSizeCode (bitsPerSample : Z) : Z :=
  if bitsPerSample =? 8 then 0x01
  else if bitsPerSample =? 12 then 0x02
  else if bitsPerSample =? 16 then 0x04
  else if bitsPerSample =? 20 then 0x05
  else if bitsPerSample =? 24 then 0x06
  else if bitsPerSample =? 32 then 0x07
  else 0x00.

(** ** sine.go: CRC engine *)

Definition crc8Step (crc : Z) : Z :=
  if Z.land crc 0x80 =? 0 then u8 (Z.shiftl crc 1)
  else Z.lxor (u8 (Z.shiftl crc 1)) 0x07.

Definition calculateCRC8 (data : list Z) : Z :=
  fold_left (fun crc b => Nat.iter 8 crc8Step (Z.lxor crc b)) data 0.

Definition crc16Step (crc : Z) : Z :=
  if Z.land crc 0x8000 =? 0 then u16 (Z.shiftl crc 1)
  else Z.lxor (u16 (Z.shiftl crc 1)) 0x8005.

Definition calculateCRC16 (data : list Z) : Z :=
  fold_left (fun crc b => Nat.iter 8 crc16Step (Z.lxor crc (u16 (Z.shiftl b 8))))
            data 0.

(** ** sine.go: fixed prediction and Rice coding *)

Definition fixedPredict (samples : list Z) (pos order : Z) : result Z :=
  if order =? 0 then Ok 0
  else if order =? 1 then index samples (pos - 1)
  else if order =? 2 then
    a <- index samples (pos - 1) ;;
    b <- index samples (pos - 2) ;;
    Ok (i32 (i32 (2 * a) - b))
  else if order =? 3 then
    a <- index samples (pos - 1) ;;
    b <- index samples (pos - 2) ;;
    c <- index samples (pos - 3) ;;
    Ok (i32 (i32 (i32 (3 * a) - i32 (3 * b)) + c))
  else if order =? 4 then
    a <- index samples (pos - 1) ;;
    b <- index samples (pos - 2) ;;
    c <- index samples (pos - 3) ;;
    d <- index samples (pos - 4) ;;
    Ok (i32 (i32 (i32 (i32 (4 * a) - i32 (6 * b)) + i32 (4 * c)) - d))
  else Ok 0.

(** The float64 part of [findOptimalRiceParameter], given the integer sum
    and the number of residuals: the test [mean < 1] and the conversion
    [uint8(math.Log2(mean))], where [mean = float64(sum) / float64(n)].
    Whatever the conversion yields is a uint8. *)
Class Float64Ops : Type := {
  meanBelowOne : Z -> Z -> bool;
  log2Mean : Z -> Z -> Z;
  log2Mean_u8 : forall sum n, 0 <= log2Mean sum n < 256
}.

(** The accumulation [sum += uint64(-r)] or [sum += uint64(r)]: the negation
    is an int32 operation and the conversion sign-extends. *)
Definition absSum (residuals : list Z) : Z :=
  fold_left (fun sum r => if r <? 0 then u64 (sum + u64 (i32 (- r)))
                          else u64 (sum + u64 r))
            residuals 0.

Definition findOptimalRiceParameter {F : Float64Ops} (residuals : list Z) : Z :=
  let n := Z.of_nat (length residuals) in
  if n =? 0 then 0
  else
    let sum := absSum residuals in
    if meanBelowOne sum n then 0
    else
      let param := log2Mean sum n in
      if 14 <? param then 14 else param.

(** [for i := uint32(0); i < quotient; i++ { buf.writeBits(0, 1) }] *)
Fixpoint writeZeros (quotient : nat) (bw : bitWriter) : result bitWriter :=
  match quotient with
  | O => Ok bw
  | S q => bw' <- writeBits bw 0 1 ;; writeZeros q bw'
  end.

Definition zigzag (value : Z) : Z :=
  if value <? 0 then u32 (i32 (i32 (-2 * value) - 1))
  else u32 (i32 (2 * value)).

Definition encodeRice (bw : bitWriter) (value param : Z) : result bitWriter :=
  let uval := zigzag value in
  let quotient := Z.shiftr uval param in
  let remainder := Z.land uval (u32 (u32 (Z.shiftl 1 param) - 1)) in
  bw <- writeZeros (Z.to_nat quotient) bw ;;
  bw <- writeBits bw 1 1 ;;
  writeBits bw remainder param.

Fixpoint encodeRiceAll (bw : bitWriter) (residuals : list Z) (param : Z)
    : result bitWriter :=
  match residuals with
  | [] => Ok bw
  | r :: rest => bw' <- encodeRice bw r param ;; encodeRiceAll bw' rest param
  end.

Definition encodeResidual {F : Float64Ops} (bw : bitWriter) (residuals : list Z)
    : result bitWriter :=
  bw <- writeBits bw 0 2 ;;
  let partitionOrder := 0 in
  bw <- writeBits bw partitionOrder 4 ;;
  let riceParam := findOptimalRiceParameter residuals in
  bw <- writeBits bw riceParam 4 ;;
  encodeRiceAll bw residuals riceParam.

(** ** Byte slices over a store

    [WriteStreamInfo] builds its output in byte slices that it writes
    through, so these live in a store of backing arrays: a slice is a base
    address, an offset, a length and a capacity, and two slices on one base
    are aliases. The sink's log is part of the same state. *)

Record bslice : Set := mkBslice { base : nat; off : nat; blen : nat; bcap : nat }.

Record world : Set := mkWorld { arrays : list (list Z); wlog : list (list Z) }.

Definition M (A : Type) : Type := world -> result (A * world).

Definition ret {A : Type} (a : A) : M A := fun w => Ok (a, w).

Definition bindM {A B : Type} (m : M A) (k : A -> M B) : M B :=
  fun w => match m w with
           | Ok (a, w') => k a w'
           | Err e => Err e
           | Panic p => Panic p
           end.

Notation "x <~ m ;; k" := (bindM m (fun x => k))
  (at level 61, m at next level, right associativity).
Notation "m ;;; k" := (bindM m (fun _ => k))
  (at level 61, right associativity).

Fixpoint setNth (l : list Z) (i : nat) (v : Z) : list Z :=
  match l, i with
  | [], _ => []
  | _ :: t, O => v :: t
  | h :: t, S i' => h :: setNth t i' v
  end.

Fixpoint setArray (arrs : list (list Z)) (b : nat) (f : list Z -> list Z)
    : list (list Z) :=
  match arrs, b with
  | [], _ => []
  | a :: t, O => f a :: t
  | a :: t, S b' => a :: setArray t b' f
  end.

Fixpoint setFrom (l : list Z) (i : nat) (vs : list Z) : list Z :=
  match vs with
  | [] => l
  | v :: vs' => setFrom (setNth l i v) (S i) vs'
  end.

(** The bytes a slice shows. *)
Definition window (s : bslice) : M (list Z) :=
  fun w => Ok (firstn (blen s) (skipn (off s) (nth (base s) (arrays w) [])), w).

(** A fresh backing array holding [l]: [make([]byte, n)] with [l] all zero,
    a composite literal or [[]byte("...")] otherwise. *)
Definition alloc (l : list Z) : M bslice :=
  fun w => Ok (mkBslice (length (arrays w)) 0 (length l) (length l),
               mkWorld (arrays w ++ [l]) (wlog w)).

Definition makeBytes (n : nat) : M bslice := alloc (repeat 0 n).

(** [s[i] = v] *)
Definition setByte (s : bslice) (i : nat) (v : Z) : M unit :=
  fun w => if (i <? blen s)%nat
           then Ok (tt, mkWorld (setArray (arrays w) (base s)
                                   (fun a => setNth a (off s + i) v)) (wlog w))
           else Panic IndexOutOfRange.

(** [s[lo:hi]] *)
Definition resliceB (s : bslice) (lo hi : nat) : M bslice :=
  fun w => if ((lo <=? hi) && (hi <=? bcap s))%nat
           then Ok (mkBslice (base s) (off s + lo) (hi - lo) (bcap s - lo), w)
           else Panic SliceBounds.

(** [append(s, vs...)]: in place when the capacity suffices, otherwise into
    a fresh array. The capacity of the fresh array is the runtime's choice;
    it is taken to be the length needed. *)
Definition appendBytes (s : bslice) (vs : list Z) : M bslice :=
  fun w =>
    if (blen s + length vs <=? bcap s)%nat
    then Ok (mkBslice (base s) (off s) (blen s + length vs) (bcap s),
             mkWorld (setArray (arrays w) (base s)
                        (fun a => setFrom a (off s + blen s) vs)) (wlog w))
    else (old <~ window s ;; alloc (old ++ vs)) w.

(** [copy(dst, src)] *)
Definition copyBytes (dst : bslice) (src : list Z) : M unit :=
  fun w => Ok (tt, mkWorld (setArray (arrays w) (base dst)
                              (fun a => setFrom a (off dst) (firstn (blen dst) src)))
                           (wlog w)).

(** [binary.BigEndian.PutUint16(b, v)]: [_ = b[1]], then the two stores. *)
Definition putUint16 (b : bslice) (v : Z) : M unit :=
  if (1 <? blen b)%nat then
    setByte b 0 (u8 (Z.shiftr v 8)) ;;;
    setByte b 1 (u8 v)
  else fun _ => Panic IndexOutOfRange.

(** [binary.BigEndian.PutUint32(b, v)]: [_ = b[3]], then the four stores. *)
Definition putUint32 (b : bslice) (v : Z) : M unit :=
  if (3 <? blen b)%nat then
    setByte b 0 (u8 (Z.shiftr v 24)) ;;;
    setByte b 1 (u8 (Z.shiftr v 16)) ;;;
    setByte b 2 (u8 (Z.shiftr v 8)) ;;;
    setByte b 3 (u8 v)
  else fun _ => Panic IndexOutOfRange.

(** [e.w.Write(s)] *)
Definition write (s : bslice) : M unit :=
  fun w => match window s w with
           | Ok (bs, _) => Ok (tt, mkWorld (arrays w) (wlog w ++ [bs]))
           | Err e => Err e
           | Panic p => Panic p
           end.

(** ** sine.go: the encoder *)

Record Encoder : Set := mkEncoder {
  sampleRate : Z;        (* uint32 *)
  channels : Z;          (* uint8 *)
  bitsPerSample : Z;     (* uint8 *)
  totalSamples : Z;      (* uint64 *)
  blockSize : Z;         (* uint32 *)
  minFrameSize : Z;      (* uint32 *)
  maxFrameSize : Z;      (* uint32 *)
  md5sum : list Z        (* [16]byte *)
}.

Definition NewEncoder (sampleRate channels bitsPerSample : Z) : result Encoder :=
  if (channels =? 0) || (8 <? channels) then Err ErrInvalidChannels
  else if (bitsPerSample =? 0) || (32 <? bitsPerSample) then Err ErrInvalidBits
  else Ok (mkEncoder sampleRate channels bitsPerSample 0 4096 0 0 (repeat 0 16%nat)).

Definition WriteStreamInfoM (e : Encoder) : M unit :=
  magic <~ alloc [0x66; 0x4C; 0x61; 0x43] ;;
  write magic ;;;
  let header := 0x80 in
  hdr <~ alloc [header] ;;
  write hdr ;;;
  length <~ makeBytes 3 ;;
  zero <~ alloc [0] ;;
  lengthBytes <~ window length ;;
  tmp <~ appendBytes zero lengthBytes ;;
  tmp4 <~ resliceB tmp 0 4 ;;
  putUint32 tmp4 34 ;;;
  tail <~ resliceB length 1 (blen length) ;;
  write tail ;;;
  streamInfo <~ makeBytes 34 ;;
  s02 <~ resliceB streamInfo 0 2 ;;
  putUint16 s02 (u16 (blockSize e)) ;;;
  s24 <~ resliceB streamInfo 2 4 ;;
  putUint16 s24 (u16 (blockSize e)) ;;;
  setByte streamInfo 4 0 ;;;
  setByte streamInfo 5 0 ;;;
  setByte streamInfo 6 0 ;;;
  setByte streamInfo 7 0 ;;;
  setByte streamInfo 8 0 ;;;
  setByte streamInfo 9 0 ;;;
  setByte streamInfo 10 (u8 (Z.shiftr (sampleRate e) 12)) ;;;
  setByte streamInfo 11 (u8 (Z.shiftr (sampleRate e) 4)) ;;;
  setByte streamInfo 12
    (Z.lor (Z.lor (u8 (u32 (Z.shiftl (Z.land (sampleRate e) 0x0F) 4)))
                  (u8 (Z.shiftl (u8 (channels e - 1)) 1)))
           (Z.shiftr (u8 (bitsPerSample e - 1)) 4)) ;;;
  setByte streamInfo 13
    (Z.lor (u8 (Z.shiftl (Z.land (u8 (bitsPerSample e - 1)) 0x0F) 4))
           (u8 (Z.shiftr (totalSamples e) 32))) ;;;
  s1418 <~ resliceB streamInfo 14 18 ;;
  putUint32 s1418 (u32 (totalSamples e)) ;;;
  s1834 <~ resliceB streamInfo 18 34 ;;
  copyBytes s1834 (md5sum e) ;;;
  write streamInfo.

(** The sink before and after; the byte slices are local to the call. *)
Definition WriteStreamInfo (e : Encoder) (sink : list (list Z))
    : result (list (list Z)) :=
  match WriteStreamInfoM e (mkWorld [] sink) with
  | Ok (_, w) => Ok (wlog w)
  | Err err => Err err
  | Panic p => Panic p
  end.

Section Encoding.

Context {F : Float64Ops}.

(** The warm-up loop of [encodeSubframe]. *)
Definition writeWarmup (e : Encoder) (samples : list Z) (i : Z) (bw : bitWriter)
    : result bitWriter :=
  s <- index samples i ;;
  writeBitsSigned bw s (bitsPerSample e).

(** The residual loop of [encodeSubframe]: the slots of [residuals] are
    filled in increasing order, so the slice is built by appending. *)
Definition residualAt (samples : list Z) (order : Z) (i : Z) (residuals : list Z)
    : result (list Z) :=
  predicted <- fixedPredict samples i order ;;
  s <- index samples i ;;
  Ok (residuals ++ [i32 (s - predicted)]).

Definition encodeSubframe (e : Encoder) (bw : bitWriter) (samples : slice)
    : result bitWriter :=
  let order := 2 in
  bw <- writeBits bw 0 1 ;;
  bw <- writeBits bw (Z.lor 0x08 order) 6 ;;
  bw <- writeBits bw 0 1 ;;
  bw <- forRange 0 (Z.to_nat order) (writeWarmup e (elems samples)) bw ;;
  if len samples - order <? 0 then Panic MakeNegative
  else
    residuals <- forRange order (Z.to_nat (len samples - order))
                   (residualAt (elems samples) order) [] ;;
    encodeResidual bw residuals.

(** The fields of the frame header that precede the frame number. *)
Definition writeFrameSync (e : Encoder) (blockSizeCode sampleRateCode : Z)
    : result bitWriter :=
  let bw := newBitWriter in
  bw <- writeBits bw 0x3FFE 14 ;;
  bw <- writeBits bw 0 1 ;;
  bw <- writeBits bw 0 1 ;;
  bw <- writeBits bw blockSizeCode 4 ;;
  bw <- writeBits bw sampleRateCode 4 ;;
  bw <- writeBits bw (u8 (channels e - 1)) 4 ;;
  let sampleSizeCode := getSampleSizeCode (bitsPerSample e) in
  bw <- writeBits bw sampleSizeCode 3 ;;
  writeBits bw 0 1.

(** The frame header of [EncodeFrame], up to the CRC-8. *)
Definition writeFrameHeader (e : Encoder) (blockSize frameNumber : Z)
    : result bitWriter :=
  let blockSizeCode := getBlockSizeCode (u32 blockSize) in
  let sampleRateCode := getSampleRateCode (sampleRate e) in
  bw <- writeFrameSync e blockSizeCode sampleRateCode ;;
  bw <- writeUTF8 bw frameNumber ;;
  bw <- (if blockSizeCode =? 0x06 then writeBits bw (u64 (blockSize - 1)) 8
         else if blockSizeCode =? 0x07 then writeBits bw (u64 (blockSize - 1)) 16
         else Ok bw) ;;
  if sampleRateCode =? 0x0C then writeBits bw (sampleRate e / 1000) 8
  else if sampleRateCode =? 0x0D then writeBits bw (sampleRate e) 16
  else if sampleRateCode =? 0x0E then writeBits bw (sampleRate e / 10) 16
  else Ok bw.

(** [for i := 1; i < len(samples); i++] of [EncodeFrame]. *)
Definition checkBlockSize (samples : list slice) (blockSize : Z) (i : Z) (u : unit)
    : result unit :=
  s <- index samples i ;;
  if len s =? blockSize then Ok u else Err ErrBlockSize.

(** [for ch := 0; ch < int(e.channels); ch++] of [EncodeFrame]. *)
Definition encodeChannel (e : Encoder) (samples : list slice) (ch : Z)
    (bw : bitWriter) : result bitWriter :=
  s <- index samples ch ;;
  encodeSubframe e bw s.

(** The bytes of one frame: everything [EncodeFrame] does before it hands
    [buf.bytes()] to the sink. *)
Definition frameBytes (e : Encoder) (samples : list slice) (frameNumber : Z)
    : result (list Z) :=
  if negb (Z.of_nat (length samples) =? channels e) then Err ErrChannelCount
  else
    s0 <- index samples 0 ;;
    let blockSize := len s0 in
    _ <- forRange 1 (Z.to_nat (Z.of_nat (length samples) - 1))
           (checkBlockSize samples blockSize) tt ;;
    bw <- writeFrameHeader e blockSize frameNumber ;;
    let headerBytes := bytes bw in
    let crc8 := calculateCRC8 headerBytes in
    bw <- writeBits bw crc8 8 ;;
    bw <- forRange 0 (Z.to_nat (channels e)) (encodeChannel e samples) bw ;;
    bw <- alignToByte bw ;;
    let frameBytes := bytes bw in
    let crc16 := calculateCRC16 frameBytes in
    bw <- writeBits bw crc16 16 ;;
    Ok (bytes bw).

Definition EncodeFrame (e : Encoder) (samples : list slice) (frameNumber : Z)
    (sink : list (list Z)) : result (list (list Z)) :=
  frame <- frameBytes e samples frameNumber ;;
  Ok (sink ++ [frame]).

(** [for ch := 0; ch < int(e.channels); ch++] of [Encode]; [blockSamples]
    is filled in increasing order. *)
Definition blockOfChannel (samples : list slice) (start stop : Z) (ch : Z)
    (blockSamples : list slice) : result (list slice) :=
  s <- index samples ch ;;
  b <- reslice s start stop ;;
  Ok (blockSamples ++ [b]).

(** One iteration of the block loop of [Encode]. *)
Definition encodeBlock (e : Encoder) (samples : list slice) (blockNum : Z)
    (sink : list (list Z)) : result (list (list Z)) :=
  let blockSize := blockSize e in
  let start := blockNum * blockSize in
  let stop := start + blockSize in
  s0 <- index samples 0 ;;
  let stop := if len s0 <? stop then len s0 else stop in
  blockSamples <- forRange 0 (Z.to_nat (channels e))
                    (blockOfChannel samples start stop) [] ;;
  EncodeFrame e blockSamples (u64 blockNum) sink.

Definition Encode (e : Encoder) (samples : list slice) (sink : list (list Z))
    : result (list (list Z)) :=
  sink <- WriteStreamInfo e sink ;;
  let blockSize := blockSize e in
  s0 <- index samples 0 ;;
  if blockSize =? 0 then Panic DivideByZero
  else
    let totalBlocks := Z.quot (len s0 + blockSize - 1) blockSize in
    forRange 0 (Z.to_nat totalBlocks) (encodeBlock e samples) sink.

End Encoding.

(** A [Float64Ops] computed with exact integers: the mean is compared and its
    logarithm floored without rounding. It serves to run the encoder on
    concrete samples. *)
#[refine] Instance exactFloat64Ops : Float64Ops := {|
  meanBelowOne sum n := sum <? n;
  log2Mean sum n := Z.log2 (sum / n) mod 256
|}.
Proof. intros; apply Z.mod_pos_bound; lia. Defined.

(** ** The float64 comparison of [findOptimalRiceParameter]

    [float64(x)] of an integer and the quotient are IEEE 754 binary64
    operations with rounding to nearest even, which [SpecFloat] defines;
    [mean < 1] is the comparison of the rounded quotient with 1.0. *)

Definition float64 (x : Z) : SpecFloat.spec_float :=
  SpecFloat.binary_normalize 53 1024 x 0 false.

Definition float64Mean (sum n : Z) : SpecFloat.spec_float :=
  SpecFloat.SFdiv 53 1024 (float64 sum) (float64 n).

Definition ieeeMeanBelowOne (sum n : Z) : bool :=
  SpecFloat.SFltb (float64Mean sum n) (float64 1).

(** A [Float64Ops] with the binary64 comparison. [math.Log2] is a routine of
    Go's library; here the conversion takes the exact floor of the base-2
    logarithm of the float64 mean, as a uint8. *)
#[refine] Instance ieeeFloat64Ops : Float64Ops := {|
  meanBelowOne := ieeeMeanBelowOne;
  log2Mean sum n :=
    match float64Mean sum n with
    | SpecFloat.S754_finite false m e => (Z.log2 (Z.pos m) + e) mod 256
    | _ => 0
    end
|}.
Proof.
  intros sum n. destruct (float64Mean sum n) as [| | |[|] m e];
    try lia; apply Z.mod_pos_bound; lia.
Defined.

(** A slice whose capacity is its length, as [make] and literals give. *)
Definition exact (l : list Z) : slice := mkSlice l [].

(** * Vocabulary of the statements *)

(** The low [n] bits of [v], most significant first. *)
Fixpoint bitsOf (v : Z) (n : nat) : list bool :=
  match n with
  | O => []
  | S k => Z.testbit v (Z.of_nat k) :: bitsOf v k
  end.

(** The number a bit string denotes, most significant bit first. *)
Definition valueOf (l : list bool) : Z :=
  fold_left (fun acc b => 2 * acc + Z.b2z b) l 0.

(** Whole bytes of a bit string; an incomplete last group is dropped. *)
Fixpoint packBits (l : list bool) : list Z :=
  match l with
  | b7 :: b6 :: b5 :: b4 :: b3 :: b2 :: b1 :: b0 :: rest =>
      valueOf [b7; b6; b5; b4; b3; b2; b1; b0] :: packBits rest
  | _ => []
  end.

Definition isByte (b : Z) : Prop := 0 <= b < 256.

(** The bit stream a writer has received: the bytes of the buffer followed
    by the [bitCount] pending bits of the accumulator. *)
Definition stream (bw : bitWriter) : list bool :=
  flat_map (fun b => bitsOf b 8) (buf bw)
  ++ bitsOf (current bw) (Z.to_nat (bitCount bw)).

(** The states the writer is in between two calls. *)
Definition wf (bw : bitWriter) : Prop :=
  Forall isByte (buf bw)
  /\ 0 <= bitCount bw < 8
  /\ 0 <= current bw < 2 ^ bitCount bw.

(** The states inside [writeBits], where up to 64 bits may be pending. *)
Definition pending (bw : bitWriter) : Prop :=
  Forall isByte (buf bw)
  /\ 0 <= bitCount bw <= 64
  /\ 0 <= current bw < 2 ^ bitCount bw.

(** A well-formed writer with one pending bit, a one. *)
Definition onePending : bitWriter := mkBitWriter [] 1 1.

(** [emits bw r bits]: the call that returned [r] on writer [bw] succeeded
    and appended [bits]. *)
Definition emits (bw : bitWriter) (r : result bitWriter) (bits : list bool) : Prop :=
  exists bw', r = Ok bw' /\ wf bw' /\ stream bw' = stream bw ++ bits.

(** A byte-aligned writer holding the bytes [bs]. *)
Definition aligned (bs : list Z) : bitWriter := mkBitWriter bs 0 0.

(** The bytes [writeUTF8] produces, branch by branch. *)
Definition utf8Bytes (value : Z) : list Z :=
  let sh k := Z.shiftr value k in
  let cont k := u8 (Z.lor 0x80 (Z.land (sh k) 0x3F)) in
  if value <? 0x80 then [u8 value]
  else if value <? 0x800 then [u8 (Z.lor 0xC0 (sh 6)); cont 0]
  else if value <? 0x10000 then [u8 (Z.lor 0xE0 (sh 12)); cont 6; cont 0]
  else if value <? 0x200000 then [u8 (Z.lor 0xF0 (sh 18)); cont 12; cont 6; cont 0]
  else if value <? 0x4000000 then
    [u8 (Z.lor 0xF8 (sh 24)); cont 18; cont 12; cont 6; cont 0]
  else if value <? 0x80000000 then
    [u8 (Z.lor 0xFC (sh 30)); cont 24; cont 18; cont 12; cont 6; cont 0]
  else [u8 (Z.lor 0xFE (sh 36)); cont 30; cont 24; cont 18; cont 12; cont 6; cont 0].

(** The byte widths of the spec's value ranges. *)
Definition utf8Width (value : Z) : nat :=
  if value <? 0x80 then 1
  else if value <? 0x800 then 2
  else if value <? 0x10000 then 3
  else if value <? 0x200000 then 4
  else if value <? 0x4000000 then 5
  else if value <? 0x80000000 then 6
  else 7.

(** The zigzag value of the spec: [2r] for [r >= 0], [-2r - 1] for [r < 0]. *)
Definition zigzagSpec (r : Z) : Z := if r <? 0 then - 2 * r - 1 else 2 * r.

(** The call succeeded, kept the writer well formed and only appended. *)
Definition appends (bw : bitWriter) (r : result bitWriter) : Prop :=
  exists bits, emits bw r bits.

Definition isWord16 (x : Z) : Prop := 0 <= x < 65536.

(** The 32 bits before the frame number. *)
Definition syncBits (e : Encoder) (blockSizeCode sampleRateCode : Z) : list bool :=
  bitsOf 0x3FFE 14 ++ bitsOf 0 1 ++ bitsOf 0 1
  ++ bitsOf blockSizeCode 4 ++ bitsOf sampleRateCode 4
  ++ bitsOf (u8 (channels e - 1)) 4
  ++ bitsOf (getSampleSizeCode (bitsPerSample e)) 3 ++ bitsOf 0 1.

Definition blockSizeTrailer (blockSize : Z) : list Z :=
  let code := getBlockSizeCode (u32 blockSize) in
  if code =? 0x06 then [u8 (u64 (blockSize - 1))]
  else if code =? 0x07 then
    [u8 (Z.shiftr (u64 (blockSize - 1)) 8); u8 (u64 (blockSize - 1))]
  else [].

Definition sampleRateTrailer (e : Encoder) : list Z :=
  let code := getSampleRateCode (sampleRate e) in
  if code =? 0x0C then [u8 (sampleRate e / 1000)]
  else if code =? 0x0D then [u8 (Z.shiftr (sampleRate e) 8); u8 (sampleRate e)]
  else if code =? 0x0E then
    [u8 (Z.shiftr (sampleRate e / 10) 8); u8 (sampleRate e / 10)]
  else [].

(** The header of a frame, from the first sync byte to the byte before the
    CRC-8. *)
Definition headerBytes (e : Encoder) (blockSize frameNumber : Z) : list Z :=
  packBits (syncBits e (getBlockSizeCode (u32 blockSize))
                       (getSampleRateCode (sampleRate e)))
  ++ utf8Bytes frameNumber
  ++ blockSizeTrailer blockSize
  ++ sampleRateTrailer e.

(** What [NewEncoder] guarantees of the fields it checks. *)
Definition validConfig (e : Encoder) : Prop :=
  1 <= channels e <= 8 /\ 1 <= bitsPerSample e <= 32.

(** The frame with header for block size [n] and frame number [fn] and with
    subframe bytes [body]: header, CRC-8 of the header, subframes and
    padding, CRC-16 of all that, high byte first. *)
Definition frameOf (e : Encoder) (n fn : Z) (body : list Z) : list Z :=
  let hdr := headerBytes e n fn in
  let covered := hdr ++ [calculateCRC8 hdr] ++ body in
  let crc16 := calculateCRC16 covered in
  covered ++ [u8 (Z.shiftr crc16 8); u8 crc16].

(** What [WriteStreamInfo] hands to the sink, one entry per [Write]. *)
Definition streamHeader (e : Encoder) : list (list Z) :=
  match WriteStreamInfo e [] with
  | Ok chunks => chunks
  | _ => []
  end.

(** The number of samples per channel in block [k] of [N]. *)
Definition blockLen (N k : Z) : Z := Z.min 4096 (N - 4096 * k).

(** [frames] are frames for the blocks [k], [k + 1], ... of [N] samples,
    numbered accordingly. *)
Fixpoint isFrames (e : Encoder) (N k : Z) (frames : list (list Z)) : Prop :=
  match frames with
  | [] => True
  | f :: rest =>
      (exists body, Forall isByte body /\ f = frameOf e (blockLen N k) (u64 k) body)
      /\ isFrames e N (k + 1) rest
  end.

(** The encoder [NewEncoder(w, 44100, 1, 16)] returns. *)
Definition cdMono : Encoder := mkEncoder 44100 1 16 0 4096 0 0 (repeat 0 16%nat).

(** The block sizes with a code of their own. *)
Definition tabulated : list Z :=
  [192; 576; 1152; 2304; 4608; 256; 512; 1024; 2048; 4096; 8192; 16384; 32768].

(** The encoder [NewEncoder(w, 44100, 2, 16)] returns. *)
Definition cdStereo : Encoder := mkEncoder 44100 2 16 0 4096 0 0 (repeat 0 16%nat).

(** Reading [n] bits as a two's-complement number. *)
Definition fromTwos (n u : Z) : Z := if u <? 2 ^ (n - 1) then u else u - 2 ^ n.

(** A sequence of [writeBits] calls, each a pair of value and bit count. *)
Fixpoint writeAll (ws : list (Z * Z)) (bw : bitWriter) : result bitWriter :=
  match ws with
  | [] => Ok bw
  | (v, n) :: rest => bw' <- writeBits bw v n ;; writeAll rest bw'
  end.

(** The bits a sequence of writes asks for, in order. *)
Definition bitsOfAll (ws : list (Z * Z)) : list bool :=
  flat_map (fun w => bitsOf (fst w) (Z.to_nat (snd w))) ws.
(** One byte fed to the CRC-16 register: the body of the loop of
    [calculateCRC16]. *)
Definition crc16Feed (crc b : Z) : Z :=
  Nat.iter 8 crc16Step (Z.lxor crc (u16 (Z.shiftl b 8))).

(** The sample rates with a code of their own, in the order of the codes
    0x1 to 0xB. *)
Definition tabulatedRates : list Z :=
  [88200; 176400; 192000; 8000; 16000; 22050; 24000; 32000; 44100; 48000; 96000].

(** The sample sizes with a code of their own. *)
Definition tabulatedSizes : list Z := [8; 12; 16; 20; 24; 32].
(** The integers [0 .. n-1]. *)
Definition rangeZ (n : nat) : list Z := map Z.of_nat (seq 0 n).

(** The byte of STREAMINFO that holds the low four bits of the sample rate,
    the channel count minus one and the top bit of the sample size minus
    one, as [WriteStreamInfo] computes it. *)
Definition packedByte12 (sr ch bps : Z) : Z :=
  Z.lor (Z.lor (u8 (u32 (Z.shiftl (Z.land sr 0x0F) 4)))
               (u8 (Z.shiftl (u8 (ch - 1)) 1)))
        (Z.shiftr (u8 (bps - 1)) 4).

(** The byte of STREAMINFO that holds the low four bits of the sample size
    minus one and the top four bits of the sample count. *)
Definition packedByte13 (bps total : Z) : Z :=
  Z.lor (u8 (Z.shiftl (Z.land (u8 (bps - 1)) 0x0F) 4)) (u8 (Z.shiftr total 32)).

(** The Rice code of the residual [r] with parameter [p]: the quotient of
    the zigzag value in unary, a one, the remainder in [p] bits. *)
Definition riceCode (r p : Z) : list bool :=
  repeat false (Z.to_nat (Z.shiftr (zigzag r) p))
  ++ [true] ++ bitsOf (zigzag r) (Z.to_nat p).

(** The residuals of the order-2 predictor over the samples that follow
    [a] and [b]. *)
Fixpoint diffs (a b : Z) (l : list Z) : list Z :=
  match l with
  | [] => []
  | c :: rest => i32 (c - i32 (i32 (2 * b) - a)) :: diffs b c rest
  end.

(** What a decoder does with the residuals: it adds each one to the
    prediction from the two samples before, in int32. *)
Fixpoint restore (a b : Z) (residuals : list Z) : list Z :=
  match residuals with
  | [] => []
  | r :: rest =>
      let c := i32 (r + i32 (i32 (2 * b) - a)) in
      c :: restore b c rest
  end.

(** Reading a unary number: the zeros before the first one. *)
Fixpoint countZeros (l : list bool) : option (nat * list bool) :=
  match l with
  | [] => None
  | true :: rest => Some (O, rest)
  | false :: rest =>
      match countZeros rest with
      | Some (q, t) => Some (S q, t)
      | None => None
      end
  end.

(** The inverse of the zigzag map. *)
Definition unzigzag (u : Z) : Z := if Z.even u then u / 2 else - ((u + 1) / 2).

(** Taking [n] bits off a bit string. *)
Definition takeBits (n : nat) (l : list bool) : option (list bool * list bool) :=
  if (length l <? n)%nat then None else Some (firstn n l, skipn n l).

(** Reading one Rice code with parameter [p]. *)
Definition decodeRice (p : Z) (l : list bool) : option (Z * list bool) :=
  match countZeros l with
  | Some (q, t) =>
      match takeBits (Z.to_nat p) t with
      | Some (m, rest) => Some (unzigzag (Z.of_nat q * 2 ^ p + valueOf m), rest)
      | None => None
      end
  | None => None
  end.

(** Reading [n] Rice codes. *)
Fixpoint decodeRiceAll (n : nat) (p : Z) (l : list bool)
    : option (list Z * list bool) :=
  match n with
  | O => Some ([], l)
  | S k =>
      match decodeRice p l with
      | Some (r, rest) =>
          match decodeRiceAll k p rest with
          | Some (rs, rest') => Some (r :: rs, rest')
          | None => None
          end
      | None => None
      end
  end.

(** Reading a subframe of [n] samples of [bps] bits each as [encodeSubframe]
    lays it out: the header byte of a fixed predictor of order 2 without
    wasted bits, two warm-up samples, the coding method and partition order
    (both zero), the Rice parameter and [n - 2] Rice codes. *)
Definition decodeSubframe (bps : Z) (n : nat) (l : list bool)
    : option (list Z * list bool) :=
  match takeBits 8 l with
  | Some (h, l1) =>
      if negb (valueOf h =? 0x14) then None else
      match takeBits (Z.to_nat bps) l1 with
      | Some (w0, l2) =>
          match takeBits (Z.to_nat bps) l2 with
          | Some (w1, l3) =>
              match takeBits 6 l3 with
              | Some (m, l4) =>
                  if negb (valueOf m =? 0) then None else
                  match takeBits 4 l4 with
                  | Some (pb, l5) =>
                      match decodeRiceAll (n - 2) (valueOf pb) l5 with
                      | Some (rs, rest) =>
                          let s0 := fromTwos bps (valueOf w0) in
                          let s1 := fromTwos bps (valueOf w1) in
                          Some (s0 :: s1 :: restore s0 s1 rs, rest)
                      | None => None
                      end
                  | None => None
                  end
              | None => None
              end
          | None => None
          end
      | None => None
      end
  | None => None
  end.
(** The bits of a subframe: the header (padding bit, type 001010, no wasted
    bits), two warm-up samples of [bps] bits, coding method and partition
    order (six zero bits), the Rice parameter and the Rice codes. *)
Definition subframeBits (bps s0 s1 p : Z) (codes : list bool) : list bool :=
  bitsOf 0x14 8 ++ bitsOf s0 (Z.to_nat bps) ++ bitsOf s1 (Z.to_nat bps)
  ++ bitsOf 0 6 ++ bitsOf p 4 ++ codes.

(** The predictions of the five fixed predictors from the four samples
    before the current one, nearest first, in unbounded integers. *)
Definition fixedPolynomial (order s1 s2 s3 s4 : Z) : Z :=
  if order =? 0 then 0
  else if order =? 1 then s1
  else if order =? 2 then 2 * s1 - s2
  else if order =? 3 then 3 * s1 - 3 * s2 + s3
  else if order =? 4 then 4 * s1 - 6 * s2 + 4 * s3 - s4
  else 0.

Definition int32 (x : Z) : Prop := - 2 ^ 31 <= x < 2 ^ 31.

(** ** Vocabulary for the Rice parameter *)

(** The float64 arithmetic of the instance is that of IEEE 754 where the
    source compares the mean with 1. *)
Definition ieee754 (F : Float64Ops) : Prop :=
  forall sum n, meanBelowOne sum n = ieeeMeanBelowOne sum n.

(** The sum of the absolute values, in unbounded integers. *)
Definition sumAbs (residuals : list Z) : Z :=
  fold_right (fun r acc => Z.abs r + acc) 0 residuals.

(** How many residuals are the least int32. *)
Definition countMin (residuals : list Z) : Z :=
  Z.of_nat (count_occ Z.eq_dec residuals (- 2 ^ 31)).

(** The parameter in the words of the specification, with the mean
    [sumAbs / n] a rational number: the mean is below 1 exactly when
    [sumAbs < n], and otherwise the floor of its base-2 logarithm is that of
    the integer quotient. *)
Definition riceParameterSpec (residuals : list Z) : Z :=
  let n := Z.of_nat (length residuals) in
  if (n =? 0) || (sumAbs residuals <? n) then 0
  else Z.min 14 (Z.log2 (sumAbs residuals / n)).

(** * Properties *)

(** ** The tests of the bit sink *)

Example TestBitWriter :
  (bw <- writeBits newBitWriter 0xFF 8 ;;
   bw <- writeBits bw 0x00 8 ;;
   bw <- writeBits bw 0xAA 8 ;;
   Ok (bytes bw)) = Ok [0xFF; 0x00; 0xAA].
Proof. reflexivity. Qed.

Example TestBitWriter_PartialBits :
  (bw <- writeBits newBitWriter 0x0F 4 ;;
   bw <- writeBits bw 0x00 4 ;;
   Ok (bytes bw)) = Ok [0xF0].
Proof. reflexivity. Qed.

Example TestBitWriter_AlignToByte :
  (bw <- writeBits newBitWriter 0x07 3 ;;
   bw <- alignToByte bw ;;
   Ok (bytes bw)) = Ok [0xE0].
Proof. reflexivity. Qed.

(** ** Bits of integers *)

Lemma length_bitsOf v n : length (bitsOf v n) = n.
Proof. induction n; simpl; congruence. Qed.

Lemma bitsOf_ext v v' n :
  (forall i, 0 <= i < Z.of_nat n -> Z.testbit v i = Z.testbit v' i) ->
  bitsOf v n = bitsOf v' n.
Proof.
  induction n as [|k IH]; intros H; simpl; [reflexivity|].
  rewrite H by lia. f_equal. apply IH. intros i Hi. apply H. lia.
Qed.

Lemma bitsOf_app v a b :
  bitsOf v (a + b) = bitsOf (Z.shiftr v (Z.of_nat b)) a ++ bitsOf v b.
Proof.
  induction a as [|k IH]; simpl; [reflexivity|].
  rewrite IH. f_equal.
  rewrite Z.shiftr_spec by lia. f_equal. lia.
Qed.

Lemma bitsOf_mod v n k :
  Z.of_nat n <= k -> bitsOf (v mod 2 ^ k) n = bitsOf v n.
Proof.
  intros H. apply bitsOf_ext. intros i Hi.
  apply Z.mod_pow2_bits_low. lia.
Qed.

Lemma valueOf_snoc l b : valueOf (l ++ [b]) = 2 * valueOf l + Z.b2z b.
Proof. unfold valueOf. rewrite fold_left_app. reflexivity. Qed.

Lemma valueOf_bitsOf n : forall v, valueOf (bitsOf v n) = v mod 2 ^ Z.of_nat n.
Proof.
  induction n as [|k IH]; intros v.
  - simpl. rewrite Z.mod_1_r. reflexivity.
  - replace (S k) with (k + 1)%nat by lia.
    rewrite bitsOf_app. change (bitsOf v 1) with [Z.testbit v 0].
    rewrite valueOf_snoc, IH, Z.bit0_mod.
    rewrite Z.shiftr_div_pow2 by lia. change (2 ^ Z.of_nat 1) with 2.
    rewrite Nat2Z.inj_add, Z.pow_add_r by lia. change (2 ^ Z.of_nat 1) with 2.
    rewrite (Z.mul_comm (2 ^ Z.of_nat k) 2).
    rewrite Z.rem_mul_r by lia. lia.
Qed.

Lemma packBits_byte b l :
  isByte b -> packBits (bitsOf b 8 ++ l) = b :: packBits l.
Proof.
  intros Hb. change (packBits (bitsOf b 8 ++ l))
    with (valueOf (bitsOf b 8) :: packBits l).
  rewrite valueOf_bitsOf. f_equal. apply Z.mod_small. exact Hb.
Qed.

Lemma packBits_bytes bs l :
  Forall isByte bs ->
  packBits (flat_map (fun b => bitsOf b 8) bs ++ l) = bs ++ packBits l.
Proof.
  induction 1 as [|b bs Hb _ IH]; [reflexivity|].
  cbn [flat_map]. rewrite <- app_assoc, packBits_byte by assumption.
  rewrite IH. reflexivity.
Qed.

Lemma packBits_short l : (length l < 8)%nat -> packBits l = [].
Proof.
  intros H. do 8 (destruct l as [|? l]; [reflexivity|]).
  simpl in H. lia.
Qed.

Lemma small_of_bits x k :
  0 <= k -> (forall i, k <= i -> Z.testbit x i = false) -> 0 <= x < 2 ^ k.
Proof.
  intros Hk H. assert (E : x = x mod 2 ^ k).
  { apply Z.bits_inj'. intros i Hi. destruct (Z.lt_ge_cases i k).
    - rewrite Z.mod_pow2_bits_low by lia. reflexivity.
    - rewrite Z.mod_pow2_bits_high by lia. apply H. lia. }
  rewrite E. apply Z.mod_pos_bound. apply Z.pow_pos_nonneg; lia.
Qed.

Lemma bits_of_small x k i :
  0 <= x < 2 ^ k -> 0 <= k <= i -> Z.testbit x i = false.
Proof.
  intros Hx Hi. rewrite <- (Z.mod_small x (2 ^ k)) by exact Hx.
  apply Z.mod_pow2_bits_high. lia.
Qed.

Lemma lxor_range a b k :
  0 <= k -> 0 <= a < 2 ^ k -> 0 <= b < 2 ^ k -> 0 <= Z.lxor a b < 2 ^ k.
Proof.
  intros Hk Ha Hb. apply small_of_bits; [exact Hk|]. intros i Hi.
  rewrite Z.lxor_spec, (bits_of_small a k), (bits_of_small b k) by lia.
  reflexivity.
Qed.

Lemma lor_range a b k :
  0 <= k -> 0 <= a < 2 ^ k -> 0 <= b < 2 ^ k -> 0 <= Z.lor a b < 2 ^ k.
Proof.
  intros Hk Ha Hb. apply small_of_bits; [exact Hk|]. intros i Hi.
  rewrite Z.lor_spec, (bits_of_small a k), (bits_of_small b k) by lia.
  reflexivity.
Qed.

(** ** The bit sink *)

Lemma mask64_eq n : 0 <= n <= 64 -> mask64 n = 2 ^ n - 1.
Proof.
  intros Hn. unfold mask64, shl64, u64. rewrite Z.shiftl_1_l.
  destruct (Z.eq_dec n 64) as [->|Hne]; [reflexivity|].
  assert (0 < 2 ^ n < 2 ^ 64).
  { split; [apply Z.pow_pos_nonneg; lia | apply Z.pow_lt_mono_r; lia]. }
  rewrite (Z.mod_small (2 ^ n)) by lia. apply Z.mod_small. lia.
Qed.

Lemma land_mask64 v n : 0 <= n <= 64 -> Z.land v (mask64 n) = v mod 2 ^ n.
Proof.
  intros Hn. rewrite mask64_eq by exact Hn.
  rewrite <- Z.land_ones by lia. rewrite Z.ones_equiv. reflexivity.
Qed.

Lemma wf_pending bw : wf bw -> pending bw.
Proof. unfold wf, pending. intuition lia. Qed.

Lemma flat_map_snoc {A B} (f : A -> list B) l x :
  flat_map f (l ++ [x]) = flat_map f l ++ f x.
Proof. rewrite flat_map_app. simpl. rewrite app_nil_r. reflexivity. Qed.

Lemma flushByte_spec bw :
  pending bw -> 8 <= bitCount bw ->
  stream (flushByte bw) = stream bw /\ pending (flushByte bw).
Proof.
  intros (Hbuf & Hbc & Hcur) H8.
  set (bc := bitCount bw - 8).
  assert (Hpow : 2 ^ bitCount bw = 2 ^ bc * 2 ^ 8).
  { rewrite <- Z.pow_add_r by lia. f_equal. lia. }
  assert (Hp : 0 < 2 ^ bc) by (apply Z.pow_pos_nonneg; lia).
  assert (Hb : 0 <= Z.shiftr (current bw) bc < 256).
  { rewrite Z.shiftr_div_pow2 by lia. split.
    - apply Z.div_pos; lia.
    - apply Z.div_lt_upper_bound; [lia|]. change 256 with (2 ^ 8). lia. }
  unfold flushByte, stream, pending. cbn [buf current bitCount]. fold bc.
  rewrite land_mask64 by lia. unfold u8. rewrite (Z.mod_small _ (2 ^ 8)) by exact Hb.
  split.
  - rewrite flat_map_snoc, <- app_assoc. f_equal.
    replace (Z.to_nat (bitCount bw)) with (8 + Z.to_nat bc)%nat by lia.
    rewrite bitsOf_app, Z2Nat.id by lia. f_equal.
    apply bitsOf_mod. lia.
  - split; [|split].
    + apply Forall_app. split; [exact Hbuf|]. constructor; [exact Hb|constructor].
    + lia.
    + apply Z.mod_pos_bound. exact Hp.
Qed.

Lemma flushLoop_spec fuel : forall bw,
  pending bw -> bitCount bw / 8 <= Z.of_nat fuel ->
  stream (flushLoop fuel bw) = stream bw /\ wf (flushLoop fuel bw).
Proof.
  induction fuel as [|fuel IH]; intros bw Hp Hfuel.
  - simpl. split; [reflexivity|].
    destruct Hp as (Hbuf & Hbc & Hcur).
    assert (bitCount bw < 8).
    { destruct (Z.lt_ge_cases (bitCount bw) 8) as [|Hge]; [assumption|].
      assert (1 <= bitCount bw / 8) by (apply Z.div_le_lower_bound; lia). lia. }
    unfold wf. intuition lia.
  - simpl. destruct (8 <=? bitCount bw) eqn:E.
    + apply Z.leb_le in E. destruct (flushByte_spec bw Hp E) as [Hs Hp'].
      destruct (IH (flushByte bw) Hp') as [Hs' Hwf].
      * unfold flushByte. cbn [bitCount].
        replace (bitCount bw - 8) with (bitCount bw + (-1) * 8) by lia.
        rewrite Z.div_add by lia. lia.
      * split; [congruence|exact Hwf].
    + apply Z.leb_gt in E. split; [reflexivity|].
      destruct Hp as (Hbuf & Hbc & Hcur). unfold wf. intuition lia.
Qed.

(** The accumulator after the new bits are shifted in. *)
Lemma merge_spec cur bc v n :
  0 <= bc -> 0 <= n -> bc + n <= 64 -> 0 <= cur < 2 ^ bc ->
  Z.lor (shl64 cur n) (Z.land v (mask64 n)) = cur * 2 ^ n + v mod 2 ^ n.
Proof.
  intros Hbc Hn Hsum Hcur.
  assert (Hp : 0 < 2 ^ n) by (apply Z.pow_pos_nonneg; lia).
  assert (Hle : 2 ^ (bc + n) <= 2 ^ 64) by (apply Z.pow_le_mono_r; lia).
  rewrite Z.pow_add_r in Hle by lia.
  rewrite land_mask64 by lia. unfold shl64, u64.
  rewrite Z.shiftl_mul_pow2 by lia.
  rewrite (Z.mod_small (cur * 2 ^ n)) by nia.
  pose proof (Z.mod_pos_bound v (2 ^ n) Hp) as Hr.
  rewrite <- Z.lxor_lor, <- Z.add_nocarry_lxor; try reflexivity.
  all: apply Z.bits_inj'; intros i Hi; rewrite Z.land_spec, Z.bits_0;
    destruct (Z.lt_ge_cases i n);
    [ rewrite Z.mul_pow2_bits_low by lia; reflexivity
    | rewrite (bits_of_small (v mod 2 ^ n) n i) by lia; apply andb_false_r ].
Qed.

Lemma writeBitsCore_spec bw v n :
  wf bw -> 0 <= n -> bitCount bw + n <= 64 ->
  stream (writeBitsCore bw v n) = stream bw ++ bitsOf v (Z.to_nat n)
  /\ wf (writeBitsCore bw v n).
Proof.
  intros (Hbuf & Hbc & Hcur) Hn Hsum.
  assert (Hp : 0 < 2 ^ n) by (apply Z.pow_pos_nonneg; lia).
  pose proof (Z.mod_pos_bound v (2 ^ n) Hp) as Hr.
  unfold writeBitsCore. rewrite merge_spec with (bc := bitCount bw) by lia.
  set (st := mkBitWriter _ _ _).
  assert (Hpend : pending st).
  { unfold pending, st; cbn [buf current bitCount].
    split; [exact Hbuf|]. split; [lia|].
    rewrite Z.pow_add_r by lia. nia. }
  destruct (flushLoop_spec (Z.to_nat ((bitCount bw + n) / 8)) st Hpend) as [Hs Hwf].
  { unfold st; cbn [bitCount]. rewrite Z2Nat.id; [lia|]. apply Z.div_pos; lia. }
  split; [|exact Hwf]. rewrite Hs. unfold stream, st; cbn [buf current bitCount].
  rewrite <- app_assoc. f_equal.
  replace (Z.to_nat (bitCount bw + n))
    with (Z.to_nat (bitCount bw) + Z.to_nat n)%nat by lia.
  rewrite bitsOf_app, Z2Nat.id by lia. f_equal.
  - f_equal. rewrite Z.shiftr_div_pow2 by lia.
    rewrite Z.div_add_l by lia. rewrite (Z.div_small (v mod 2 ^ n)) by lia. lia.
  - rewrite <- (bitsOf_mod v (Z.to_nat n) n) by lia.
    rewrite <- (bitsOf_mod (_ + _) (Z.to_nat n) n) by lia.
    f_equal. rewrite Z.add_comm, Z.mod_add by lia. apply Z.mod_mod. lia.
Qed.

Lemma wf_new : wf newBitWriter.
Proof.
  unfold wf, newBitWriter; cbn [buf current bitCount].
  split; [constructor|]. split; [lia|]. change (2 ^ 0) with 1. lia.
Defined.

(** C3, as stated, fails when the pending bits and the new ones exceed the
    64 bits of the accumulator: with one pending bit (a one), writing 64 bits
    shifts that bit out of [current], and the stream then starts with a
    zero. *)
Lemma writeBits_full_width_counterexample :
  wf onePending
  /\ writeBits newBitWriter 1 1 = Ok onePending
  /\ exists bw', writeBits onePending 0 64 = Ok bw'
                 /\ stream bw' <> stream onePending ++ bitsOf 0 64.
Proof.
  split.
  { unfold wf, onePending; cbn [buf current bitCount].
    split; [constructor|]. change (2 ^ 1) with 2. lia. }
  split; [reflexivity|].
  eexists. split; [vm_compute; reflexivity|].
  vm_compute. discriminate.
Qed.

Lemma writeBits_spec bw v n :
  wf bw -> 0 <= n -> bitCount bw + n <= 64 ->
  exists bw', writeBits bw v n = Ok bw' /\ wf bw'
              /\ stream bw' = stream bw ++ bitsOf v (Z.to_nat n).
Proof.
  intros Hwf Hn Hsum. unfold writeBits. destruct (n =? 0) eqn:E0.
  - apply Z.eqb_eq in E0. subst n. exists bw. simpl.
    rewrite app_nil_r. auto.
  - apply Z.eqb_neq in E0. destruct (n <? 0) eqn:E1;
      [apply Z.ltb_lt in E1; lia|].
    exists (writeBitsCore bw v n).
    destruct (writeBitsCore_spec bw v n) as [Hs Hw]; auto.
Qed.

(** C3 (amended): for every writer state between two calls and every
    [n >= 0] that fits the accumulator together with the pending bits
    ([bitCount + n <= 64]; so every [n <= 57], and every [n <= 64] on a
    byte-aligned writer), [writeBits value n] appends exactly the low [n]
    bits of [value], most significant first, and leaves every bit written
    before unchanged; [n = 0] is a no-op, and bits of [value] from position
    [n] up are ignored. *)
Theorem writeBits_appends bw v n :
  wf bw -> 0 <= n -> bitCount bw + n <= 64 ->
  (exists bw', writeBits bw v n = Ok bw' /\ wf bw'
               /\ stream bw' = stream bw ++ bitsOf v (Z.to_nat n))
  /\ (n = 0 -> writeBits bw v n = Ok bw)
  /\ (forall v', v' mod 2 ^ n = v mod 2 ^ n -> writeBits bw v' n = writeBits bw v n).
Proof.
  intros Hwf Hn Hsum. split; [|split].
  - apply writeBits_spec; assumption.
  - intros ->. reflexivity.
  - intros v' Hv. unfold writeBits, writeBitsCore.
    rewrite !land_mask64 by (destruct Hwf as (_ & Hbc & _); lia).
    rewrite Hv. reflexivity.
Qed.

Lemma writeBits_appends_witness :
  (exists bw', writeBits onePending 5 3 = Ok bw' /\ wf bw'
               /\ stream bw' = stream onePending ++ bitsOf 5 (Z.to_nat 3))
  /\ (3 = 0 -> writeBits onePending 5 3 = Ok onePending)
  /\ (forall v', v' mod 2 ^ 3 = 5 mod 2 ^ 3 ->
      writeBits onePending v' 3 = writeBits onePending 5 3).
Proof.
  apply (writeBits_appends onePending 5 3).
  - unfold wf, onePending; cbn [buf current bitCount].
    split; [constructor|]. change (2 ^ 1) with 2. lia.
  - lia.
  - simpl. lia.
Defined.

Lemma emits_ret bw : wf bw -> emits bw (Ok bw) [].
Proof. intros H. exists bw. rewrite app_nil_r. auto. Qed.

Lemma emits_bind bw m k b1 b2 :
  emits bw m b1 ->
  (forall bw', wf bw' -> emits bw' (k bw') b2) ->
  emits bw (bind m k) (b1 ++ b2).
Proof.
  intros (bw1 & -> & Hwf1 & Hs1) Hk.
  destruct (Hk bw1 Hwf1) as (bw2 & Hr & Hwf2 & Hs2).
  exists bw2. simpl. rewrite Hr, Hs2, Hs1, app_assoc. auto.
Qed.

Lemma emits_eq bw r b b' : emits bw r b -> b = b' -> emits bw r b'.
Proof. intros H <-. exact H. Qed.

Lemma writeBits_emits bw v n :
  wf bw -> 0 <= n <= 57 -> emits bw (writeBits bw v n) (bitsOf v (Z.to_nat n)).
Proof.
  intros Hwf Hn. apply writeBits_spec; try lia; try assumption.
  destruct Hwf as (_ & Hbc & _). lia.
Qed.

Lemma wf_length bw :
  wf bw ->
  Z.of_nat (length (stream bw)) = 8 * Z.of_nat (length (buf bw)) + bitCount bw.
Proof.
  intros (_ & Hbc & _). unfold stream.
  rewrite length_app, length_bitsOf.
  assert (E : length (flat_map (fun b => bitsOf b 8) (buf bw))
              = (8 * length (buf bw))%nat).
  { induction (buf bw) as [|b l IH]; [reflexivity|].
    cbn [flat_map]. rewrite length_app, length_bitsOf, IH. simpl. lia. }
  rewrite E. lia.
Qed.

Lemma wf_buf bw : wf bw -> buf bw = packBits (stream bw).
Proof.
  intros (Hbuf & Hbc & _). unfold stream.
  rewrite packBits_bytes by exact Hbuf.
  rewrite packBits_short, app_nil_r; [reflexivity|].
  rewrite length_bitsOf. lia.
Qed.

(** A well-formed writer is determined by the stream it received. *)
Lemma wf_aligned bw :
  wf bw -> (Z.of_nat (length (stream bw)) mod 8 = 0) ->
  bw = mkBitWriter (packBits (stream bw)) 0 0.
Proof.
  intros Hwf Hlen. pose proof (wf_length bw Hwf) as HL.
  pose proof (wf_buf bw Hwf) as HB.
  destruct Hwf as (_ & Hbc & Hcur).
  assert (bitCount bw = 0).
  { rewrite HL in Hlen. rewrite Z.add_comm, Z.mul_comm, Z.mod_add in Hlen by lia.
    rewrite Z.mod_small in Hlen; lia. }
  destruct bw as [b c k]; cbn [buf current bitCount] in *. subst k.
  change (2 ^ 0) with 1 in Hcur. f_equal; [exact HB | lia].
Qed.

(** ** Whole bytes on an aligned writer *)

Lemma writeBits_8_aligned bs x :
  writeBits (aligned bs) x 8 = Ok (aligned (bs ++ [u8 x])).
Proof.
  unfold writeBits, writeBitsCore, aligned; cbn [buf current bitCount].
  change (8 =? 0) with false. change (8 <? 0) with false. cbv iota.
  rewrite land_mask64 by lia.
  change (shl64 0 8) with 0. rewrite Z.lor_0_l.
  change (Z.to_nat ((0 + 8) / 8)) with 1%nat.
  unfold flushLoop, flushByte; cbn [buf current bitCount].
  change (8 <=? 0 + 8) with true. cbv iota.
  change (0 + 8 - 8) with 0. change (mask64 0) with 0.
  rewrite Z.land_0_r, Z.shiftr_0_r. unfold u8. rewrite Z.mod_mod by lia.
  reflexivity.
Qed.

Lemma writeBits_16_aligned bs x :
  writeBits (aligned bs) x 16
  = Ok (aligned (bs ++ [u8 (Z.shiftr x 8); u8 x])).
Proof.
  unfold writeBits, writeBitsCore, aligned; cbn [buf current bitCount].
  change (16 =? 0) with false. change (16 <? 0) with false. cbv iota.
  rewrite land_mask64 by lia.
  change (shl64 0 16) with 0. rewrite Z.lor_0_l.
  change (Z.to_nat ((0 + 16) / 8)) with 2%nat.
  unfold flushLoop, flushByte; cbn [buf current bitCount].
  change (8 <=? 0 + 16) with true. cbv iota.
  change (0 + 16 - 8) with 8. change (8 <=? 8) with true. cbv iota.
  change (8 - 8) with 0. change (mask64 0) with 0.
  rewrite land_mask64 by lia.
  rewrite Z.land_0_r, Z.shiftr_0_r, <- app_assoc. unfold u8.
  rewrite !Z.shiftr_div_pow2 by lia.
  change (2 ^ 16) with (2 ^ 8 * 2 ^ 8).
  rewrite Z.rem_mul_r by lia.
  rewrite (Z.mul_comm (2 ^ 8) ((x / 2 ^ 8) mod 2 ^ 8)), Z.div_add by lia.
  rewrite (Z.div_small (x mod 2 ^ 8)) by (apply Z.mod_pos_bound; lia).
  rewrite Z.add_0_l, !Z.mod_mod by lia.
  rewrite Z.mod_add by lia. rewrite Z.mod_mod by lia.
  reflexivity.
Qed.

Lemma wf_aligned_bytes bs : Forall isByte bs -> wf (aligned bs).
Proof.
  intros H. unfold wf, aligned; cbn [buf current bitCount].
  split; [exact H|]. change (2 ^ 0) with 1. lia.
Qed.

Lemma wf_is_aligned bw : wf bw -> bitCount bw = 0 -> bw = aligned (buf bw).
Proof.
  intros (_ & _ & Hcur) H0. destruct bw as [b c k]; cbn in *. subst k.
  change (2 ^ 0) with 1 in Hcur. unfold aligned. f_equal. lia.
Qed.

Lemma writeUTF8_aligned bs value :
  writeUTF8 (aligned bs) value = Ok (aligned (bs ++ utf8Bytes value)).
Proof.
  unfold writeUTF8, utf8Bytes.
  repeat match goal with
         | |- context [if ?c then _ else _] => destruct c
         end;
    repeat (rewrite writeBits_8_aligned; cbn [bind]; rewrite <- ?app_assoc);
    reflexivity.
Qed.

Lemma length_utf8Bytes value : length (utf8Bytes value) = utf8Width value.
Proof.
  unfold utf8Bytes, utf8Width.
  repeat match goal with
         | |- context [if ?c then _ else _] => destruct c
         end; reflexivity.
Qed.

Lemma utf8Bytes_isByte value : Forall isByte (utf8Bytes value).
Proof.
  unfold utf8Bytes.
  repeat match goal with
         | |- context [if ?c then _ else _] => destruct c
         end;
    repeat constructor; apply Z.mod_pos_bound; reflexivity.
Qed.

(** C6, as stated, fails at 0x3FFF: the code emits the three bytes
    0xE3 0xBF 0xBF, which do not start with 0xEF 0xBF. *)
Lemma writeUTF8_3FFF_counterexample :
  exists bw', writeUTF8 newBitWriter 0x3FFF = Ok bw'
              /\ bytes bw' = [0xE3; 0xBF; 0xBF]
              /\ firstn 2 (bytes bw') <> [0xEF; 0xBF].
Proof.
  eexists. split; [vm_compute; reflexivity|].
  split; [reflexivity|]. vm_compute. discriminate.
Qed.

(** C6 (amended): on a byte-aligned writer, [writeUTF8] emits the single
    byte 0x00 for value 0, the single byte 0x7F for value 0x7F, the two
    bytes 0xC2 0x80 for value 0x80 and the three bytes 0xE3 0xBF 0xBF for
    value 0x3FFF; for every value below 2^36 it emits 1/2/3/4/5/6/7 whole
    bytes according to the spec's value ranges and leaves the writer
    byte-aligned. *)
Theorem writeUTF8_bytes bw :
  wf bw -> bitCount bw = 0 ->
  (exists bw', writeUTF8 bw 0 = Ok bw' /\ bytes bw' = bytes bw ++ [0x00])
  /\ (exists bw', writeUTF8 bw 0x7F = Ok bw' /\ bytes bw' = bytes bw ++ [0x7F])
  /\ (exists bw', writeUTF8 bw 0x80 = Ok bw' /\ bytes bw' = bytes bw ++ [0xC2; 0x80])
  /\ (exists bw', writeUTF8 bw 0x3FFF = Ok bw'
                  /\ bytes bw' = bytes bw ++ [0xE3; 0xBF; 0xBF])
  /\ (forall value, 0 <= value < 2 ^ 36 ->
      exists bw' bs, writeUTF8 bw value = Ok bw'
                     /\ bytes bw' = bytes bw ++ bs
                     /\ length bs = utf8Width value
                     /\ Forall isByte bs
                     /\ wf bw' /\ bitCount bw' = 0).
Proof.
  intros Hwf H0. rewrite (wf_is_aligned bw Hwf H0).
  repeat split; try (eexists; split; [apply writeUTF8_aligned|reflexivity]).
  intros value Hv. exists (aligned (buf bw ++ utf8Bytes value)), (utf8Bytes value).
  pose proof (utf8Bytes_isByte value) as Hb.
  split; [apply writeUTF8_aligned|]. split; [reflexivity|].
  split; [apply length_utf8Bytes|]. split; [exact Hb|].
  split; [|reflexivity]. apply wf_aligned_bytes.
  apply Forall_app. split; [apply Hwf | exact Hb].
Qed.

Lemma writeUTF8_bytes_witness :
  (exists bw', writeUTF8 newBitWriter 0 = Ok bw'
               /\ bytes bw' = bytes newBitWriter ++ [0x00])
  /\ (exists bw', writeUTF8 newBitWriter 0x7F = Ok bw'
                  /\ bytes bw' = bytes newBitWriter ++ [0x7F])
  /\ (exists bw', writeUTF8 newBitWriter 0x80 = Ok bw'
                  /\ bytes bw' = bytes newBitWriter ++ [0xC2; 0x80])
  /\ (exists bw', writeUTF8 newBitWriter 0x3FFF = Ok bw'
                  /\ bytes bw' = bytes newBitWriter ++ [0xE3; 0xBF; 0xBF])
  /\ (forall value, 0 <= value < 2 ^ 36 ->
      exists bw' bs, writeUTF8 newBitWriter value = Ok bw'
                     /\ bytes bw' = bytes newBitWriter ++ bs
                     /\ length bs = utf8Width value
                     /\ Forall isByte bs
                     /\ wf bw' /\ bitCount bw' = 0).
Proof.
  apply (writeUTF8_bytes newBitWriter).
  - exact wf_new.
  - reflexivity.
Defined.

(** ** Rice coding *)

Lemma u32_i32 x : u32 (i32 x) = u32 x.
Proof.
  unfold u32, i32. rewrite Zminus_mod_idemp_l. f_equal. lia.
Qed.

Lemma zigzag_spec r : - 2 ^ 31 <= r < 2 ^ 31 -> zigzag r = zigzagSpec r.
Proof.
  intros Hr. unfold zigzag, zigzagSpec. destruct (r <? 0) eqn:E.
  - apply Z.ltb_lt in E. rewrite u32_i32. unfold u32, i32.
    rewrite <- Z.sub_add_distr, Zminus_mod_idemp_l.
    match goal with |- ?a mod _ = _ => replace a with (- 2 * r - 1) by lia end.
    apply Z.mod_small. change (2 ^ 31) with 2147483648 in *.
    change (2 ^ 32) with 4294967296. lia.
  - apply Z.ltb_ge in E. rewrite u32_i32. unfold u32.
    apply Z.mod_small. change (2 ^ 31) with 2147483648 in *.
    change (2 ^ 32) with 4294967296. lia.
Qed.

Lemma zigzag_range r : 0 <= zigzag r < 2 ^ 32.
Proof.
  unfold zigzag. destruct (r <? 0); apply Z.mod_pos_bound; reflexivity.
Qed.

Lemma writeZeros_emits q : forall bw,
  wf bw -> emits bw (writeZeros q bw) (repeat false q).
Proof.
  induction q as [|q IH]; intros bw Hwf.
  - apply emits_ret. exact Hwf.
  - cbn [writeZeros repeat]. change (false :: repeat false q)
      with (bitsOf 0 (Z.to_nat 1) ++ repeat false q).
    apply emits_bind; [apply writeBits_emits; [exact Hwf|lia] | exact IH].
Qed.

Lemma rice_remainder u p :
  0 <= p < 32 -> Z.land u (u32 (u32 (Z.shiftl 1 p) - 1)) = u mod 2 ^ p.
Proof.
  intros Hp. rewrite Z.shiftl_1_l. unfold u32.
  assert (0 < 2 ^ p < 2 ^ 32).
  { split; [apply Z.pow_pos_nonneg; lia | apply Z.pow_lt_mono_r; lia]. }
  rewrite (Z.mod_small (2 ^ p)) by lia.
  rewrite (Z.mod_small (2 ^ p - 1)) by lia.
  rewrite <- Z.land_ones by lia. rewrite Z.ones_equiv. reflexivity.
Qed.

Lemma encodeRice_emits bw r p :
  wf bw -> 0 <= p < 32 ->
  emits bw (encodeRice bw r p)
    (repeat false (Z.to_nat (Z.shiftr (zigzag r) p))
     ++ [true] ++ bitsOf (zigzag r) (Z.to_nat p)).
Proof.
  intros Hwf Hp. unfold encodeRice.
  apply emits_bind; [apply writeZeros_emits; exact Hwf|].
  intros bw1 Hwf1.
  apply emits_bind.
  - change [true] with (bitsOf 1 (Z.to_nat 1)).
    apply writeBits_emits; [exact Hwf1|lia].
  - intros bw2 Hwf2. rewrite rice_remainder by exact Hp.
    rewrite <- (bitsOf_mod (zigzag r) (Z.to_nat p) p) by lia.
    apply writeBits_emits; [exact Hwf2|lia].
Qed.

(** C9: for every signed 32-bit residual [r] and parameter [0 <= p <= 14],
    [encodeRice] appends, for the zigzag value [u] ([2r] for [r >= 0],
    [-2r - 1] for [r < 0]): [u >> p] zero bits, a single one bit, then the
    low [p] bits of [u] (nothing when [p = 0]). In particular [r = 0, p = 0]
    appends the bit 1, [r = 1, p = 0] the bits 001 and [r = -1, p = 0] the
    bits 01. *)
Theorem encodeRice_bits bw :
  wf bw ->
  (forall r p, - 2 ^ 31 <= r < 2 ^ 31 -> 0 <= p <= 14 ->
     exists bw', encodeRice bw r p = Ok bw' /\ wf bw'
       /\ stream bw' = stream bw
                       ++ repeat false (Z.to_nat (Z.shiftr (zigzagSpec r) p))
                       ++ [true]
                       ++ bitsOf (zigzagSpec r) (Z.to_nat p))
  /\ (exists bw', encodeRice bw 0 0 = Ok bw' /\ stream bw' = stream bw ++ [true])
  /\ (exists bw', encodeRice bw 1 0 = Ok bw'
                  /\ stream bw' = stream bw ++ [false; false; true])
  /\ (exists bw', encodeRice bw (-1) 0 = Ok bw'
                  /\ stream bw' = stream bw ++ [false; true]).
Proof.
  intros Hwf. split; [|repeat split].
  - intros r p Hr Hp. rewrite <- (zigzag_spec r Hr).
    apply encodeRice_emits; [exact Hwf | lia].
  - destruct (encodeRice_emits bw 0 0 Hwf) as (bw' & E & _ & S); [lia|].
    exists bw'. split; [exact E | exact S].
  - destruct (encodeRice_emits bw 1 0 Hwf) as (bw' & E & _ & S); [lia|].
    exists bw'. split; [exact E | exact S].
  - destruct (encodeRice_emits bw (-1) 0 Hwf) as (bw' & E & _ & S); [lia|].
    exists bw'. split; [exact E | exact S].
Qed.

Lemma encodeRice_bits_witness :
  (forall r p, - 2 ^ 31 <= r < 2 ^ 31 -> 0 <= p <= 14 ->
     exists bw', encodeRice newBitWriter r p = Ok bw' /\ wf bw'
       /\ stream bw' = stream newBitWriter
                       ++ repeat false (Z.to_nat (Z.shiftr (zigzagSpec r) p))
                       ++ [true]
                       ++ bitsOf (zigzagSpec r) (Z.to_nat p))
  /\ (exists bw', encodeRice newBitWriter 0 0 = Ok bw'
                  /\ stream bw' = stream newBitWriter ++ [true])
  /\ (exists bw', encodeRice newBitWriter 1 0 = Ok bw'
                  /\ stream bw' = stream newBitWriter ++ [false; false; true])
  /\ (exists bw', encodeRice newBitWriter (-1) 0 = Ok bw'
                  /\ stream bw' = stream newBitWriter ++ [false; true]).
Proof. apply (encodeRice_bits newBitWriter). exact wf_new. Defined.

(** ** Indexing and counted loops *)

Lemma index_ok {A} (l : list A) i d :
  0 <= i < Z.of_nat (length l) -> index l i = Ok (nth (Z.to_nat i) l d).
Proof.
  intros Hi. unfold index. destruct (i <? 0) eqn:E; [apply Z.ltb_lt in E; lia|].
  destruct (nth_error l (Z.to_nat i)) eqn:En.
  - f_equal. symmetry. apply nth_error_nth. exact En.
  - apply nth_error_None in En. lia.
Qed.

Lemma index_out {A} (l : list A) i :
  Z.of_nat (length l) <= i -> index l i = Panic IndexOutOfRange.
Proof.
  intros Hi. unfold index. destruct (i <? 0); [reflexivity|].
  destruct (nth_error l (Z.to_nat i)) eqn:En; [|reflexivity].
  assert (nth_error l (Z.to_nat i) <> None) as Hn by congruence.
  apply nth_error_Some in Hn. lia.
Qed.

Lemma forRange_snoc {S} (body : Z -> S -> result S) count : forall lo s,
  forRange lo (Datatypes.S count) body s
  = (s' <- forRange lo count body s ;; body (lo + Z.of_nat count) s').
Proof.
  induction count as [|c IH]; intros lo s.
  - cbn [forRange bind]. rewrite Z.add_0_r.
    destruct (body lo s); reflexivity.
  - change (forRange lo (Datatypes.S (Datatypes.S c)) body s)
      with (s' <- body lo s ;; forRange (lo + 1) (Datatypes.S c) body s').
    change (forRange lo (Datatypes.S c) body s)
      with (s' <- body lo s ;; forRange (lo + 1) c body s').
    destruct (body lo s) as [s1| |]; cbn [bind]; try reflexivity.
    rewrite IH. replace (lo + 1 + Z.of_nat c) with (lo + Z.of_nat (Datatypes.S c)) by lia.
    reflexivity.
Qed.

(** A loop whose every iteration succeeds and keeps [P] succeeds and
    establishes [P]. *)
Lemma forRange_inv {S} (P : Z -> S -> Prop) (body : Z -> S -> result S) count :
  forall lo s,
  P lo s ->
  (forall i s, lo <= i < lo + Z.of_nat count -> P i s ->
     exists s', body i s = Ok s' /\ P (i + 1) s') ->
  exists s', forRange lo count body s = Ok s' /\ P (lo + Z.of_nat count) s'.
Proof.
  induction count as [|c IH]; intros lo s HP Hbody.
  - exists s. rewrite Z.add_0_r. auto.
  - destruct (Hbody lo s) as (s1 & E1 & HP1); [lia|exact HP|].
    destruct (IH (lo + 1) s1 HP1) as (s2 & E2 & HP2).
    { intros i s' Hi. apply Hbody. lia. }
    exists s2. cbn [forRange]. rewrite E1. cbn [bind].
    replace (lo + Z.of_nat (Datatypes.S c)) with (lo + 1 + Z.of_nat c) by lia. auto.
Qed.

(** ** Subframes *)

Section Frames.

Context {F : Float64Ops}.

Lemma appends_emits bw r bits : emits bw r bits -> appends bw r.
Proof. intros H. exists bits. exact H. Qed.

Lemma appends_bind bw m k :
  appends bw m -> (forall bw', wf bw' -> appends bw' (k bw')) ->
  appends bw (bind m k).
Proof.
  intros (b1 & bw1 & -> & Hwf1 & Hs1) Hk.
  destruct (Hk bw1 Hwf1) as (b2 & bw2 & Hr & Hwf2 & Hs2).
  exists (b1 ++ b2), bw2. simpl. rewrite Hr, Hs2, Hs1, app_assoc. auto.
Qed.

Lemma writeBits_appends_some bw v n :
  wf bw -> 0 <= n <= 57 -> appends bw (writeBits bw v n).
Proof. intros. eapply appends_emits, writeBits_emits; assumption. Qed.

Lemma writeBitsSigned_appends bw v n :
  wf bw -> 0 <= n <= 57 -> appends bw (writeBitsSigned bw v n).
Proof.
  intros Hwf Hn. unfold writeBitsSigned.
  destruct (v <? 0).
  - destruct (n <? 0) eqn:E; [apply Z.ltb_lt in E; lia|].
    apply writeBits_appends_some; assumption.
  - apply writeBits_appends_some; assumption.
Qed.

Lemma encodeRiceAll_appends residuals p : forall bw,
  wf bw -> 0 <= p < 32 -> appends bw (encodeRiceAll bw residuals p).
Proof.
  induction residuals as [|r rest IH]; intros bw Hwf Hp.
  - eapply appends_emits, emits_ret. exact Hwf.
  - cbn [encodeRiceAll]. apply appends_bind.
    + eapply appends_emits, encodeRice_emits; assumption.
    + intros bw' Hwf'. apply IH; assumption.
Qed.

Lemma findOptimalRiceParameter_range residuals :
  0 <= findOptimalRiceParameter residuals <= 14.
Proof.
  unfold findOptimalRiceParameter.
  destruct (_ =? 0); [lia|]. destruct (meanBelowOne _ _); [lia|].
  pose proof (log2Mean_u8 (absSum residuals) (Z.of_nat (length residuals))).
  destruct (14 <? _) eqn:E; [lia|]. apply Z.ltb_ge in E. lia.
Qed.

Lemma encodeResidual_appends bw residuals :
  wf bw -> appends bw (encodeResidual bw residuals).
Proof.
  intros Hwf. unfold encodeResidual.
  pose proof (findOptimalRiceParameter_range residuals) as Hp.
  apply appends_bind; [apply writeBits_appends_some; [exact Hwf|lia]|].
  intros bw1 Hwf1.
  apply appends_bind; [apply writeBits_appends_some; [exact Hwf1|lia]|].
  intros bw2 Hwf2.
  apply appends_bind; [apply writeBits_appends_some; [exact Hwf2|lia]|].
  intros bw3 Hwf3. apply encodeRiceAll_appends; [exact Hwf3|lia].
Qed.

Lemma forRange_appends (body : Z -> bitWriter -> result bitWriter) count :
  forall lo bw,
  wf bw ->
  (forall i bw', lo <= i < lo + Z.of_nat count -> wf bw' -> appends bw' (body i bw')) ->
  appends bw (forRange lo count body bw).
Proof.
  induction count as [|c IH]; intros lo bw Hwf Hbody.
  - eapply appends_emits, emits_ret. exact Hwf.
  - cbn [forRange]. apply appends_bind.
    + apply Hbody; [lia|exact Hwf].
    + intros bw' Hwf'. apply IH; [exact Hwf'|].
      intros i bw'' Hi. apply Hbody. lia.
Qed.

Lemma fixedPredict_2_ok samples i :
  2 <= i <= Z.of_nat (length samples) ->
  exists p, fixedPredict samples i 2 = Ok p.
Proof.
  intros Hi. unfold fixedPredict. cbn [Z.eqb Pos.eqb].
  rewrite (index_ok samples (i - 1) 0), (index_ok samples (i - 2) 0) by lia.
  cbn [bind]. eauto.
Qed.

Lemma residuals_ok samples :
  2 <= Z.of_nat (length samples) ->
  exists residuals,
    forRange 2 (Z.to_nat (Z.of_nat (length samples) - 2))
      (residualAt samples 2) [] = Ok residuals.
Proof.
  intros Hlen.
  destruct (forRange_inv (fun _ _ => True) (residualAt samples 2)
              (Z.to_nat (Z.of_nat (length samples) - 2)) 2 []) as (r & E & _).
  - exact I.
  - intros i s Hi _. unfold residualAt.
    destruct (fixedPredict_2_ok samples i) as (p & ->); [lia|].
    rewrite (index_ok samples i 0) by lia. cbn [bind]. eauto.
  - eauto.
Qed.

Lemma encodeSubframe_appends e bw s :
  wf bw -> 0 <= bitsPerSample e <= 57 -> 2 <= len s ->
  appends bw (encodeSubframe e bw s).
Proof.
  intros Hwf Hbps Hlen. unfold encodeSubframe, len in *.
  apply appends_bind; [apply writeBits_appends_some; [exact Hwf|lia]|].
  intros bw1 Hwf1.
  apply appends_bind; [apply writeBits_appends_some; [exact Hwf1|lia]|].
  intros bw2 Hwf2.
  apply appends_bind; [apply writeBits_appends_some; [exact Hwf2|lia]|].
  intros bw3 Hwf3.
  apply appends_bind.
  - apply forRange_appends; [exact Hwf3|].
    intros i bw' Hi Hwf'. unfold writeWarmup.
    rewrite (index_ok (elems s) i 0) by lia. cbn [bind].
    apply writeBitsSigned_appends; assumption.
  - intros bw4 Hwf4.
    destruct (_ <? 0) eqn:E; [apply Z.ltb_lt in E; lia|].
    destruct (residuals_ok (elems s)) as (r & ->); [lia|].
    cbn [bind]. apply encodeResidual_appends. exact Hwf4.
Qed.

(** A block of fewer than two samples: the warm-up loop reads [samples[i]]
    for [i = 0, 1] whatever the length. *)
Lemma encodeSubframe_short e bw s :
  wf bw -> 0 <= bitsPerSample e <= 57 -> len s < 2 ->
  encodeSubframe e bw s = Panic IndexOutOfRange.
Proof.
  intros Hwf Hbps Hlen. unfold encodeSubframe, len in *.
  destruct (writeBits_appends_some bw 0 1 Hwf) as (? & bw1 & -> & Hwf1 & _); [lia|].
  cbn [bind].
  destruct (writeBits_appends_some bw1 (Z.lor 8 2) 6 Hwf1) as (? & bw2 & -> & Hwf2 & _);
    [lia|].
  cbn [bind].
  destruct (writeBits_appends_some bw2 0 1 Hwf2) as (? & bw3 & -> & Hwf3 & _); [lia|].
  cbn [bind]. change (Z.to_nat 2) with 2%nat. cbn [forRange]. unfold writeWarmup.
  destruct (elems s) as [|s0 [|s1 rest]]; [reflexivity| |simpl in Hlen; lia].
  change (index [s0] 0) with (Ok s0). cbn [bind].
  destruct (writeBitsSigned_appends bw3 s0 (bitsPerSample e) Hwf3 Hbps)
    as (? & bw4 & -> & _).
  reflexivity.
Qed.

End Frames.

(** ** CRC ranges *)

Lemma crc8Step_range crc : isByte (crc8Step crc).
Proof.
  unfold crc8Step, isByte, u8. change 256 with (2 ^ 8).
  destruct (_ =? 0).
  - apply Z.mod_pos_bound. reflexivity.
  - apply lxor_range; [lia| |simpl; lia].
    apply Z.mod_pos_bound. reflexivity.
Qed.

Lemma calculateCRC8_range data : isByte (calculateCRC8 data).
Proof.
  unfold calculateCRC8. assert (H0 : isByte 0) by (unfold isByte; lia).
  revert H0. generalize 0. induction data as [|b data IH]; intros crc Hc.
  - exact Hc.
  - cbn [fold_left]. apply IH. cbn [Nat.iter]. apply crc8Step_range.
Qed.

Lemma crc16Step_range crc : isWord16 (crc16Step crc).
Proof.
  unfold crc16Step, isWord16, u16. change 65536 with (2 ^ 16).
  destruct (_ =? 0).
  - apply Z.mod_pos_bound. reflexivity.
  - apply lxor_range; [lia| |simpl; lia].
    apply Z.mod_pos_bound. reflexivity.
Qed.

Lemma calculateCRC16_range data : isWord16 (calculateCRC16 data).
Proof.
  unfold calculateCRC16. assert (H0 : isWord16 0) by (unfold isWord16; lia).
  revert H0. generalize 0. induction data as [|b data IH]; intros crc Hc.
  - exact Hc.
  - cbn [fold_left]. apply IH. cbn [Nat.iter]. apply crc16Step_range.
Qed.

(** ** Frame headers *)

Lemma u8_isByte x : isByte (u8 x).
Proof. apply Z.mod_pos_bound. reflexivity. Qed.

Ltac write_step :=
  match goal with
  | Hwf : wf ?bw |- context [writeBits ?bw ?v ?n] =>
      let bw' := fresh "bw" in
      let E := fresh "E" in
      let Hwf' := fresh "Hwf" in
      let Hs := fresh "Hs" in
      destruct (writeBits_emits bw v n Hwf) as (bw' & E & Hwf' & Hs);
      [lia|]; rewrite E; cbn [bind]; clear E
  end.

Lemma writeFrameSync_spec e bsc src :
  writeFrameSync e bsc src = Ok (aligned (packBits (syncBits e bsc src)))
  /\ Forall isByte (packBits (syncBits e bsc src))
  /\ length (packBits (syncBits e bsc src)) = 4%nat.
Proof.
  assert (E : exists bw, writeFrameSync e bsc src = Ok bw /\ wf bw
                         /\ stream bw = syncBits e bsc src).
  { unfold writeFrameSync. pose proof wf_new as Hwf0.
    do 7 write_step.
    destruct (writeBits_emits bw5 0 1 Hwf6) as (bw7 & E & Hwf7 & Hs7); [lia|].
    exists bw7. split; [exact E|]. split; [exact Hwf7|].
    rewrite Hs7, Hs5, Hs4, Hs3, Hs2, Hs1, Hs0, Hs.
    unfold syncBits. rewrite <- !app_assoc. reflexivity. }
  destruct E as (bw & E & Hwf & Hs).
  assert (Hlen : length (syncBits e bsc src) = 32%nat).
  { unfold syncBits. rewrite !length_app, !length_bitsOf. reflexivity. }
  pose proof (wf_aligned bw Hwf) as Hb. rewrite Hs, Hlen in Hb.
  specialize (Hb eq_refl). subst bw.
  split; [exact E|]. split; [apply Hwf|].
  unfold syncBits. cbn [bitsOf app packBits length]. reflexivity.
Qed.

Lemma headerBytes_isByte e n fn : Forall isByte (headerBytes e n fn).
Proof.
  unfold headerBytes.
  apply Forall_app; split; [|apply Forall_app; split; [|apply Forall_app; split]].
  - apply writeFrameSync_spec.
  - apply utf8Bytes_isByte.
  - unfold blockSizeTrailer.
    repeat match goal with |- context [if ?c then _ else _] => destruct c end;
      repeat constructor; apply u8_isByte.
  - unfold sampleRateTrailer.
    repeat match goal with |- context [if ?c then _ else _] => destruct c end;
      repeat constructor; apply u8_isByte.
Qed.

Lemma writeFrameHeader_spec e n fn :
  writeFrameHeader e n fn = Ok (aligned (headerBytes e n fn)).
Proof.
  unfold writeFrameHeader, headerBytes, blockSizeTrailer, sampleRateTrailer.
  destruct (writeFrameSync_spec e (getBlockSizeCode (u32 n))
              (getSampleRateCode (sampleRate e))) as (-> & _ & _).
  cbn [bind]. rewrite writeUTF8_aligned. cbn [bind].
  destruct (getBlockSizeCode (u32 n) =? 6);
    [|destruct (getBlockSizeCode (u32 n) =? 7)];
    rewrite ?writeBits_8_aligned, ?writeBits_16_aligned; cbn [bind];
    (destruct (getSampleRateCode (sampleRate e) =? 12);
     [|destruct (getSampleRateCode (sampleRate e) =? 13);
       [|destruct (getSampleRateCode (sampleRate e) =? 14)]]);
    rewrite ?writeBits_8_aligned, ?writeBits_16_aligned;
    rewrite <- ?app_assoc, ?app_nil_r; reflexivity.
Qed.

(** ** Frames *)

Lemma NewEncoder_valid sr ch bps e :
  0 <= ch -> 0 <= bps ->
  NewEncoder sr ch bps = Ok e -> validConfig e /\ blockSize e = 4096.
Proof.
  unfold NewEncoder, validConfig. intros Hch Hbps.
  destruct (ch =? 0) eqn:E1; [discriminate|].
  destruct (8 <? ch) eqn:E2; [discriminate|].
  destruct (bps =? 0) eqn:E3; [discriminate|].
  destruct (32 <? bps) eqn:E4; [discriminate|].
  cbn [orb]. intros H. injection H as <-. cbn [channels bitsPerSample blockSize].
  apply Z.eqb_neq in E1, E3. apply Z.ltb_ge in E2, E4. lia.
Qed.

Lemma alignToByte_spec bw :
  wf bw ->
  exists bw' bits, alignToByte bw = Ok bw' /\ wf bw' /\ bitCount bw' = 0
                   /\ stream bw' = stream bw ++ bits.
Proof.
  intros Hwf. unfold alignToByte. destruct (0 <? bitCount bw) eqn:E.
  - apply Z.ltb_lt in E. pose proof Hwf as (_ & Hbc & _).
    destruct (writeBits_emits bw 0 (8 - bitCount bw) Hwf) as (bw' & E' & Hwf' & Hs);
      [lia|].
    exists bw', (bitsOf 0 (Z.to_nat (8 - bitCount bw))).
    repeat split; try assumption; try apply Hwf'.
    pose proof (wf_length bw Hwf) as L. pose proof (wf_length bw' Hwf') as L'.
    rewrite Hs, length_app, length_bitsOf in L'.
    destruct Hwf' as (_ & Hbc' & _). lia.
  - apply Z.ltb_ge in E. exists bw, []. rewrite app_nil_r.
    repeat split; try apply Hwf. destruct Hwf as (_ & Hbc & _). lia.
Qed.

Lemma forRange_unit_ok (body : Z -> unit -> result unit) count : forall lo u,
  forRange lo count body tt = Ok u ->
  forall i, lo <= i < lo + Z.of_nat count -> body i tt = Ok tt.
Proof.
  induction count as [|c IH]; intros lo u H i Hi; [lia|].
  cbn [forRange] in H. destruct (body lo tt) as [[]| |] eqn:E; try discriminate.
  cbn [bind] in H. destruct (Z.eq_dec i lo) as [->|Hne]; [exact E|].
  apply (IH (lo + 1) u H). lia.
Qed.

Section FrameBytes.

Context {F : Float64Ops}.

Lemma channels_appends e samples n bw :
  wf bw -> validConfig e -> Z.of_nat (length samples) = channels e ->
  Forall (fun s => len s = n) samples -> 2 <= n ->
  appends bw (forRange 0 (Z.to_nat (channels e)) (encodeChannel e samples) bw).
Proof.
  intros Hwf (Hch & Hbps) Hlen Hrect Hn.
  apply forRange_appends; [exact Hwf|].
  intros i bw' Hi Hwf'. unfold encodeChannel.
  rewrite (index_ok samples i (exact [])) by lia. cbn [bind].
  apply encodeSubframe_appends; [exact Hwf'|lia|].
  rewrite Forall_forall in Hrect. rewrite (Hrect (nth (Z.to_nat i) samples (exact [])));
    [exact Hn|]. apply nth_In. lia.
Qed.

Lemma checkBlockSize_ok samples n :
  Forall (fun s => len s = n) samples ->
  forRange 1 (Z.to_nat (Z.of_nat (length samples) - 1))
    (checkBlockSize samples n) tt = Ok tt.
Proof.
  intros Hrect.
  destruct (forRange_inv (fun _ _ => True) (checkBlockSize samples n)
              (Z.to_nat (Z.of_nat (length samples) - 1)) 1 tt I) as ([] & E & _);
    [|exact E].
  intros i [] Hi _. exists tt. split; [|exact I]. unfold checkBlockSize.
  rewrite (index_ok samples i (exact [])) by lia. cbn [bind].
  rewrite Forall_forall in Hrect. rewrite (Hrect (nth (Z.to_nat i) samples (exact [])));
    [rewrite Z.eqb_refl; reflexivity|]. apply nth_In. lia.
Qed.

(** A frame is produced for every block of the right shape with at least
    two samples per channel. *)
Lemma frameBytes_ok e samples fn n :
  validConfig e -> Z.of_nat (length samples) = channels e ->
  Forall (fun s => len s = n) samples -> 2 <= n ->
  exists body, Forall isByte body
               /\ frameBytes e samples fn = Ok (frameOf e n fn body).
Proof.
  intros Hv Hlen Hrect Hn. pose proof Hv as (Hch & Hbps).
  unfold frameBytes.
  replace (Z.of_nat (length samples) =? channels e) with true
    by (symmetry; apply Z.eqb_eq; exact Hlen).
  cbn [negb].
  destruct samples as [|s0 rest]; [simpl in Hlen; lia|].
  change (index (s0 :: rest) 0) with (Ok s0). cbn [bind].
  assert (Hs0 : len s0 = n) by (inversion Hrect; assumption).
  rewrite Hs0, checkBlockSize_ok by exact Hrect. cbn [bind].
  rewrite writeFrameHeader_spec. cbn [bind]. unfold bytes at 1.
  cbn [aligned buf]. fold (aligned (headerBytes e n fn)).
  set (hdr := headerBytes e n fn).
  rewrite writeBits_8_aligned. cbn [bind].
  unfold u8 at 1. rewrite Z.mod_small by apply calculateCRC8_range.
  set (pre := hdr ++ [calculateCRC8 hdr]).
  assert (Hpre : Forall isByte pre).
  { apply Forall_app. split; [apply headerBytes_isByte|].
    constructor; [apply calculateCRC8_range|constructor]. }
  destruct (channels_appends e (s0 :: rest) n (aligned pre)
              (wf_aligned_bytes pre Hpre) Hv Hlen Hrect Hn)
    as (bits1 & bw1 & -> & Hwf1 & Hs1).
  cbn [bind].
  destruct (alignToByte_spec bw1 Hwf1) as (bw2 & bits2 & -> & Hwf2 & H0 & Hs2).
  cbn [bind].
  assert (Hbuf : buf bw2 = pre ++ packBits (bits1 ++ bits2)).
  { rewrite (wf_buf bw2 Hwf2), Hs2, Hs1. unfold stream, aligned.
    cbn [buf current bitCount Z.to_nat bitsOf]. rewrite app_nil_r, <- app_assoc.
    apply packBits_bytes. exact Hpre. }
  exists (packBits (bits1 ++ bits2)). split.
  - destruct Hwf2 as (Hb & _). rewrite Hbuf in Hb.
    apply Forall_app in Hb. apply Hb.
  - rewrite (wf_is_aligned bw2 Hwf2 H0). unfold bytes at 1 2.
    cbn [aligned buf]. fold (aligned (buf bw2)).
    rewrite writeBits_16_aligned. cbn [bind]. unfold bytes. cbn [aligned buf].
    rewrite Hbuf. unfold frameOf, pre. fold hdr. rewrite <- !app_assoc.
    reflexivity.
Qed.

(** A block of the right shape with fewer than two samples per channel
    panics in the first subframe. *)
Lemma frameBytes_short e samples fn n :
  validConfig e -> Z.of_nat (length samples) = channels e ->
  Forall (fun s => len s = n) samples -> n < 2 ->
  frameBytes e samples fn = Panic IndexOutOfRange.
Proof.
  intros Hv Hlen Hrect Hn. pose proof Hv as (Hch & Hbps).
  unfold frameBytes.
  replace (Z.of_nat (length samples) =? channels e) with true
    by (symmetry; apply Z.eqb_eq; exact Hlen).
  cbn [negb].
  destruct samples as [|s0 rest]; [simpl in Hlen; lia|].
  change (index (s0 :: rest) 0) with (Ok s0). cbn [bind].
  assert (Hs0 : len s0 = n) by (inversion Hrect; assumption).
  rewrite Hs0, checkBlockSize_ok by exact Hrect. cbn [bind].
  rewrite writeFrameHeader_spec. cbn [bind]. unfold bytes at 1.
  cbn [aligned buf]. fold (aligned (headerBytes e n fn)).
  rewrite writeBits_8_aligned. cbn [bind].
  destruct (Z.to_nat (channels e)) as [|c] eqn:Ec; [lia|].
  cbn [forRange]. unfold encodeChannel at 1.
  change (index (s0 :: rest) 0) with (Ok s0). cbn [bind].
  rewrite encodeSubframe_short; [reflexivity| |lia|lia].
  apply wf_aligned_bytes. apply Forall_app. split; [apply headerBytes_isByte|].
  constructor; [apply u8_isByte|constructor].
Qed.

End FrameBytes.

Section FrameCRC.

Context {F : Float64Ops}.

(** A call of [frameBytes] that returns a frame was given one slice per
    channel, all of one length. *)
Lemma frameBytes_shape e samples fn frame :
  validConfig e -> frameBytes e samples fn = Ok frame ->
  Z.of_nat (length samples) = channels e
  /\ exists s0, index samples 0 = Ok s0
                /\ Forall (fun s => len s = len s0) samples.
Proof.
  intros (Hch & _) H. unfold frameBytes in H.
  destruct (Z.of_nat (length samples) =? channels e) eqn:E; [|discriminate].
  apply Z.eqb_eq in E. split; [exact E|]. cbn [negb] in H.
  destruct samples as [|s0 rest]; [simpl in E; lia|].
  exists s0. split; [reflexivity|].
  change (index (s0 :: rest) 0) with (Ok s0) in H. cbn [bind] in H.
  destruct (forRange 1 _ _ tt) as [u| |] eqn:Echeck; try discriminate.
  pose proof (forRange_unit_ok _ _ _ _ Echeck) as Hall.
  apply Forall_nth. intros i d Hi.
  destruct i as [|i]; [reflexivity|].
  specialize (Hall (Z.of_nat (S i))). unfold checkBlockSize in Hall.
  rewrite (index_ok (s0 :: rest) (Z.of_nat (S i)) d) in Hall by lia.
  cbn [bind] in Hall. rewrite Nat2Z.id in Hall.
  destruct (len (nth (S i) (s0 :: rest) d) =? len s0) eqn:El.
  - apply Z.eqb_eq. exact El.
  - assert (X : @Err unit ErrBlockSize = Ok tt) by (apply Hall; lia).
    discriminate X.
Qed.

Lemma crc16_bytes c :
  isWord16 c -> [u8 (Z.shiftr c 8); u8 c] = [c / 256; c mod 256].
Proof.
  intros Hc. unfold u8, isWord16 in *. rewrite Z.shiftr_div_pow2 by lia.
  change (2 ^ 8) with 256. rewrite (Z.mod_small (c / 256)); [reflexivity|].
  split; [apply Z.div_pos; lia | apply Z.div_lt_upper_bound; lia].
Qed.


End FrameCRC.

(** ** The stream header *)

Ltac run_store :=
  cbv beta iota zeta delta [WriteStreamInfo WriteStreamInfoM bindM alloc write window
    makeBytes setByte resliceB appendBytes copyBytes putUint16 putUint32 arrays wlog
    base off blen bcap nth firstn skipn length app repeat setArray setNth setFrom
    Nat.ltb Nat.leb Nat.add Nat.sub andb].

Lemma app4 {A} (l : list A) a b c d :
  (((l ++ [a]) ++ [b]) ++ [c]) ++ [d] = l ++ [a; b; c; d].
Proof. rewrite <- !app_assoc. reflexivity. Qed.

(** [WriteStreamInfo] never fails and makes four writes: the magic, the
    block header byte, two length bytes and the STREAMINFO block. *)
Lemma WriteStreamInfo_spec e sink :
  WriteStreamInfo e sink = Ok (sink ++ streamHeader e)
  /\ exists info, streamHeader e = [[0x66; 0x4C; 0x61; 0x43]; [0x80]; [0; 0]; info].
Proof.
  split.
  - unfold streamHeader. run_store. f_equal. apply app4.
  - unfold streamHeader. run_store. eexists. reflexivity.
Qed.

(** ** The block loop *)

Lemma isFrames_snoc e N frames : forall k f,
  isFrames e N k frames ->
  (exists body, Forall isByte body
     /\ f = frameOf e (blockLen N (k + Z.of_nat (length frames)))
                      (u64 (k + Z.of_nat (length frames))) body) ->
  isFrames e N k (frames ++ [f]).
Proof.
  induction frames as [|g rest IH]; intros k f H Hf.
  - cbn [app isFrames]. cbn [length Z.of_nat] in Hf. rewrite Z.add_0_r in Hf.
    split; [exact Hf|exact I].
  - destruct H as [Hg Hrest]. cbn [app isFrames]. split; [exact Hg|].
    apply IH; [exact Hrest|].
    replace (k + 1 + Z.of_nat (length rest))
      with (k + Z.of_nat (length (g :: rest))) by (cbn [length]; lia).
    exact Hf.
Qed.

Lemma reslice_len s lo hi :
  0 <= lo <= hi -> hi <= len s ->
  exists b, reslice s lo hi = Ok b /\ len b = hi - lo.
Proof.
  intros Hlo Hhi. unfold reslice, len, cap in *. rewrite length_app.
  replace ((0 <=? lo) && (lo <=? hi)
           && (hi <=? Z.of_nat (length (elems s) + length (spare s)))) with true.
  - eexists. split; [reflexivity|]. cbn [elems].
    rewrite length_firstn, length_skipn, length_app. lia.
  - symmetry. rewrite !andb_true_iff, !Z.leb_le. lia.
Qed.

Section BlockLoop.

Context {F : Float64Ops}.

Variable e : Encoder.
Variable samples : list slice.
Variable N : Z.

Hypothesis Hvalid : validConfig e.
Hypothesis Hsize : blockSize e = 4096.
Hypothesis Hchannels : Z.of_nat (length samples) = channels e.
Hypothesis Hrect : Forall (fun s => len s = N) samples.

Lemma first_channel : exists s0, index samples 0 = Ok s0 /\ len s0 = N.
Proof.
  destruct Hvalid as (Hch & _).
  destruct samples as [|s0 rest]; [simpl in Hchannels; lia|].
  exists s0. split; [reflexivity|]. inversion Hrect; assumption.
Qed.

Lemma blockSamples_ok start stop :
  0 <= start <= stop -> stop <= N ->
  exists blocks,
    forRange 0 (Z.to_nat (channels e)) (blockOfChannel samples start stop) []
    = Ok blocks
    /\ Z.of_nat (length blocks) = channels e
    /\ Forall (fun s => len s = stop - start) blocks.
Proof.
  intros Hstart Hstop. destruct Hvalid as (Hch & _).
  destruct (forRange_inv
              (fun j acc => Z.of_nat (length acc) = j
                            /\ Forall (fun s => len s = stop - start) acc)
              (blockOfChannel samples start stop) (Z.to_nat (channels e)) 0 [])
    as (blocks & E & Hl & Hf).
  - split; [reflexivity|constructor].
  - intros j acc Hj (Hl & Hf). unfold blockOfChannel.
    rewrite (index_ok samples j (exact [])) by lia. cbn [bind].
    destruct (reslice_len (nth (Z.to_nat j) samples (exact [])) start stop Hstart)
      as (b & -> & Hb).
    { rewrite Forall_forall in Hrect. rewrite Hrect; [exact Hstop|].
      apply nth_In. lia. }
    cbn [bind]. eexists. split; [reflexivity|]. split.
    + rewrite length_app. cbn [length]. lia.
    + apply Forall_app. split; [exact Hf|]. constructor; [exact Hb|constructor].
  - exists blocks. split; [exact E|]. split; [lia|exact Hf].
Qed.

Lemma block_bounds i :
  0 <= i -> 4096 * i < N ->
  let start := i * blockSize e in
  let stop := if N <? start + blockSize e then N else start + blockSize e in
  0 <= start <= stop /\ stop <= N /\ stop - start = blockLen N i.
Proof.
  intros Hi Hlt. cbv zeta. rewrite Hsize. unfold blockLen.
  destruct (N <? i * 4096 + 4096) eqn:E;
    [apply Z.ltb_lt in E | apply Z.ltb_ge in E]; lia.
Qed.

Lemma encodeBlock_ok i sink :
  0 <= i -> 4096 * i < N -> 2 <= blockLen N i ->
  exists body, Forall isByte body
    /\ encodeBlock e samples i sink
       = Ok (sink ++ [frameOf e (blockLen N i) (u64 i) body]).
Proof.
  intros Hi Hlt Hlen. unfold encodeBlock.
  destruct first_channel as (s0 & -> & Hs0). cbn [bind]. rewrite Hs0.
  destruct (block_bounds i Hi Hlt) as (Hb1 & Hb2 & Hb3).
  destruct (blockSamples_ok _ _ Hb1 Hb2) as (blocks & -> & Hbl & Hbf).
  cbn [bind]. rewrite Hb3 in Hbf. unfold EncodeFrame.
  destruct (frameBytes_ok e blocks (u64 i) (blockLen N i) Hvalid Hbl Hbf Hlen)
    as (body & Hbody & ->).
  exists body. split; [exact Hbody|reflexivity].
Qed.

Lemma encodeBlock_short i sink :
  0 <= i -> 4096 * i < N -> blockLen N i < 2 ->
  encodeBlock e samples i sink = Panic IndexOutOfRange.
Proof.
  intros Hi Hlt Hlen. unfold encodeBlock.
  destruct first_channel as (s0 & -> & Hs0). cbn [bind]. rewrite Hs0.
  destruct (block_bounds i Hi Hlt) as (Hb1 & Hb2 & Hb3).
  destruct (blockSamples_ok _ _ Hb1 Hb2) as (blocks & -> & Hbl & Hbf).
  cbn [bind]. rewrite Hb3 in Hbf. unfold EncodeFrame.
  rewrite (frameBytes_short e blocks (u64 i) (blockLen N i) Hvalid Hbl Hbf Hlen).
  reflexivity.
Qed.

Lemma encodeLoop_ok count sink :
  (forall i, 0 <= i < Z.of_nat count -> 4096 * i < N /\ 2 <= blockLen N i) ->
  exists frames,
    forRange 0 count (encodeBlock e samples) sink = Ok (sink ++ frames)
    /\ length frames = count
    /\ isFrames e N 0 frames.
Proof.
  intros Hblocks.
  destruct (forRange_inv
              (fun i s => exists frames,
                   s = sink ++ frames /\ Z.of_nat (length frames) = i
                   /\ isFrames e N 0 frames)
              (encodeBlock e samples) count 0 sink) as (s & E & frames & -> & Hl & Hf).
  - exists []. rewrite app_nil_r. repeat split.
  - intros i s Hi (frames & -> & Hl & Hf).
    destruct (Hblocks i) as [Hlt Hlen]; [lia|].
    destruct (encodeBlock_ok i (sink ++ frames)) as (body & Hbody & ->);
      [lia|exact Hlt|exact Hlen|].
    eexists. split; [reflexivity|].
    exists (frames ++ [frameOf e (blockLen N i) (u64 i) body]).
    split; [rewrite app_assoc; reflexivity|]. split.
    + rewrite length_app. cbn [length]. lia.
    + apply isFrames_snoc; [exact Hf|]. exists body. rewrite Hl, Z.add_0_l.
      split; [exact Hbody|reflexivity].
  - exists frames. split; [exact E|]. split; [lia|exact Hf].
Qed.

(** Every input of the right shape whose last block is not a single sample
    is encoded: the stream header, then one frame per block. *)
Lemma Encode_ok sink :
  N mod 4096 <> 1 ->
  exists frames,
    Encode e samples sink = Ok (sink ++ streamHeader e ++ frames)
    /\ Z.of_nat (length frames) = (N + 4095) / 4096
    /\ isFrames e N 0 frames.
Proof.
  intros Hmod. unfold Encode.
  destruct (WriteStreamInfo_spec e sink) as (-> & _). cbn [bind].
  destruct first_channel as (s0 & -> & Hs0). cbn [bind]. rewrite Hs0, Hsize.
  change (4096 =? 0) with false. cbv iota.
  assert (HN : 0 <= N) by (rewrite <- Hs0; unfold len; lia).
  rewrite Z.quot_div_nonneg by lia.
  replace (N + 4096 - 1) with (N + 4095) by lia.
  destruct (encodeLoop_ok (Z.to_nat ((N + 4095) / 4096)) (sink ++ streamHeader e))
    as (frames & -> & Hl & Hf).
  - intros i Hi. unfold blockLen.
    pose proof (Z.div_mod (N + 4095) 4096 ltac:(lia)) as D1.
    pose proof (Z.mod_pos_bound (N + 4095) 4096 ltac:(lia)) as B1.
    pose proof (Z.div_mod N 4096 ltac:(lia)) as D2.
    pose proof (Z.mod_pos_bound N 4096 ltac:(lia)) as B2.
    lia.
  - exists frames. rewrite <- app_assoc. split; [reflexivity|].
    split; [|exact Hf]. rewrite Hl. apply Z2Nat.id. apply Z.div_pos; lia.
Qed.

(** When the last block is a single sample, the frames before it are
    encoded and the last one panics. *)
Lemma Encode_single_sample_block sink :
  N mod 4096 = 1 -> Encode e samples sink = Panic IndexOutOfRange.
Proof.
  intros Hmod. unfold Encode.
  destruct (WriteStreamInfo_spec e sink) as (-> & _). cbn [bind].
  destruct first_channel as (s0 & -> & Hs0). cbn [bind]. rewrite Hs0, Hsize.
  change (4096 =? 0) with false. cbv iota.
  assert (HN : 0 <= N) by (rewrite <- Hs0; unfold len; lia).
  rewrite Z.quot_div_nonneg by lia.
  pose proof (Z.div_mod N 4096 ltac:(lia)) as D. rewrite Hmod in D.
  assert (Hq : 0 <= N / 4096) by (apply Z.div_pos; lia).
  replace (N + 4096 - 1) with ((N / 4096 + 1) * 4096) by lia.
  rewrite Z.div_mul by lia.
  replace (Z.to_nat (N / 4096 + 1)) with (S (Z.to_nat (N / 4096))) by lia.
  rewrite forRange_snoc.
  destruct (encodeLoop_ok (Z.to_nat (N / 4096)) (sink ++ streamHeader e))
    as (frames & -> & _).
  - intros i Hi. unfold blockLen. lia.
  - cbn [bind]. apply encodeBlock_short; unfold blockLen; lia.
Qed.

End BlockLoop.

(** ** Claims on frames and blocks *)

Lemma NewEncoder_cdMono : NewEncoder 44100 1 16 = Ok cdMono.
Proof. reflexivity. Qed.

Lemma valid_cdMono : validConfig cdMono.
Proof. unfold validConfig, cdMono; cbn [channels bitsPerSample]. lia. Defined.


(** C10: a block with fewer than two samples makes the order-2 warm-up loop
    of [encodeSubframe] index past the end of the block, and the panic is
    not caught: [encodeSubframe] and [EncodeFrame] panic on such a block,
    and so does [Encode] on every input whose per-channel length [N] has
    [N mod 4096 = 1], whose last block is a single sample. *)
Theorem short_block_panics {F : Float64Ops} e samples N sink :
  validConfig e -> blockSize e = 4096 ->
  Z.of_nat (length samples) = channels e ->
  Forall (fun s => len s = N) samples ->
  N mod 4096 = 1 ->
  (forall bw s, wf bw -> len s < 2 ->
     encodeSubframe e bw s = Panic IndexOutOfRange)
  /\ (forall block n fn out,
        Z.of_nat (length block) = channels e ->
        Forall (fun s => len s = n) block -> n < 2 ->
        EncodeFrame e block fn out = Panic IndexOutOfRange)
  /\ Encode e samples sink = Panic IndexOutOfRange.
Proof.
  intros Hv Hsize Hch Hrect Hmod. split; [|split].
  - intros bw s Hwf Hlen. apply encodeSubframe_short; [exact Hwf| |exact Hlen].
    destruct Hv as (_ & Hbps). lia.
  - intros block n fn out Hb Hr Hn. unfold EncodeFrame.
    rewrite (frameBytes_short e block fn n Hv Hb Hr Hn). reflexivity.
  - apply (Encode_single_sample_block e samples N Hv Hsize Hch Hrect sink Hmod).
Qed.

Lemma short_block_panics_witness :
  encodeSubframe (F := exactFloat64Ops) cdMono newBitWriter (exact [7])
  = Panic IndexOutOfRange
  /\ EncodeFrame (F := exactFloat64Ops) cdMono [exact [7]] 0 []
     = Panic IndexOutOfRange
  /\ Encode (F := exactFloat64Ops) cdMono [exact [7]] [] = Panic IndexOutOfRange.
Proof.
  destruct (short_block_panics (F := exactFloat64Ops) cdMono [exact [7]] 1 [])
    as (H1 & H2 & H3).
  - exact valid_cdMono.
  - reflexivity.
  - reflexivity.
  - constructor; [reflexivity|constructor].
  - reflexivity.
  - split; [|split].
    + apply H1; [exact wf_new|reflexivity].
    + apply (H2 [exact [7]] 1 0 []);
        [reflexivity | constructor; [reflexivity|constructor] | reflexivity].
    + exact H3.
Defined.

(** C4, at the failing inputs: one sample per channel should give one frame
    of block size 1, and 4097 samples two frames of block sizes 4096 and 1;
    [Encode] panics on both, whatever the float64 arithmetic does. *)
Theorem Encode_single_sample_panics {F : Float64Ops} :
  Encode cdMono [exact [0]] [] = Panic IndexOutOfRange
  /\ Encode cdMono [exact (repeat 0 4097%nat)] [] = Panic IndexOutOfRange.
Proof.
  split.
  - apply (Encode_single_sample_block cdMono [exact [0]] 1 valid_cdMono);
      [reflexivity | reflexivity | constructor; [reflexivity|constructor]
      | reflexivity].
  - apply (Encode_single_sample_block cdMono [exact (repeat 0 4097%nat)] 4097
             valid_cdMono);
      [reflexivity | reflexivity
      | constructor; [unfold len, exact; cbn [elems]; rewrite repeat_length;
                      reflexivity | constructor]
      | reflexivity].
Qed.

Lemma getBlockSizeCode_other n :
  ~ In n tabulated ->
  getBlockSizeCode n = if n <=? 256 then 0x06 else 0x07.
Proof.
  intros H. unfold getBlockSizeCode.
  repeat match goal with
         | |- context [?a =? ?c] =>
             destruct (Z.eqb_spec a c);
             [exfalso; apply H; subst; unfold tabulated; simpl; tauto|]
         end.
  reflexivity.
Qed.

Lemma high_nibble a b c d s3 s2 s1 s0 :
  valueOf [a; b; c; d; s3; s2; s1; s0] / 16 = valueOf [a; b; c; d].
Proof. destruct a, b, c, d, s3, s2, s1, s0; reflexivity. Qed.

Lemma getBlockSizeCode_nonzero n : getBlockSizeCode n <> 0.
Proof.
  unfold getBlockSizeCode.
  repeat match goal with
         | |- context [if ?c then _ else _] => destruct c
         end; discriminate.
Qed.

(** The header of the second frame of a 5000-sample input. *)
Lemma second_frame_header e body :
  exists b2 b3 rest,
    frameOf e 904 1 body = [0xFF; 0xF8; b2; b3; 0x01; 0x03; 0x87] ++ rest
    /\ b2 / 16 = 0x7.
Proof.
  unfold frameOf, headerBytes.
  change (getBlockSizeCode (u32 904)) with 7.
  change (utf8Bytes 1) with [1]. change (blockSizeTrailer 904) with [3; 135].
  unfold syncBits. cbn [bitsOf app packBits].
  change (Z.of_nat 3) with 3. change (Z.of_nat 2) with 2.
  change (Z.of_nat 1) with 1. change (Z.of_nat 0) with 0.
  do 3 eexists. split.
  - cbn [app]. reflexivity.
  - rewrite high_nibble. reflexivity.
Qed.

(** C7: [getBlockSizeCode] maps 192 to 0x1; 576, 1152, 2304, 4608 to
    0x2..0x5; 256, 512, ..., 32768 to 0x8..0xF; any other size up to 256 to
    0x6, and the frame header then carries the 8-bit trailer [n - 1]; any
    other size to 0x7, with the 16-bit trailer [n - 1]; it never returns
    0x0. An input of 5000 samples per channel is encoded in two frames, and
    the second has frame number 1, code 0x7 in the high half of its third
    byte and the trailer 0x03 0x87 (903). *)
Theorem getBlockSizeCode_table {F : Float64Ops} e samples sink :
  validConfig e -> blockSize e = 4096 ->
  Z.of_nat (length samples) = channels e ->
  Forall (fun s => len s = 5000) samples ->
  map getBlockSizeCode tabulated
  = [0x1; 0x2; 0x3; 0x4; 0x5; 0x8; 0x9; 0xA; 0xB; 0xC; 0xD; 0xE; 0xF]
  /\ (forall n, getBlockSizeCode n <> 0x0)
  /\ (forall n fn, ~ In n tabulated -> 0 < n <= 256 ->
        getBlockSizeCode n = 0x6
        /\ exists four, length four = 4%nat
             /\ writeFrameHeader e n fn
                = Ok (aligned (four ++ utf8Bytes fn ++ [n - 1]
                               ++ sampleRateTrailer e)))
  /\ (forall n fn, ~ In n tabulated -> 256 < n <= 65536 ->
        getBlockSizeCode n = 0x7
        /\ exists four, length four = 4%nat
             /\ writeFrameHeader e n fn
                = Ok (aligned (four ++ utf8Bytes fn
                               ++ [(n - 1) / 256; (n - 1) mod 256]
                               ++ sampleRateTrailer e)))
  /\ (forall n, ~ In n tabulated -> n <= 256 -> getBlockSizeCode n = 0x6)
  /\ (forall n, ~ In n tabulated -> 256 < n -> getBlockSizeCode n = 0x7)
  /\ exists f0 f1 b2 b3 rest,
       Encode e samples sink = Ok (sink ++ streamHeader e ++ [f0; f1])
       /\ f1 = [0xFF; 0xF8; b2; b3; 0x01; 0x03; 0x87] ++ rest
       /\ b2 / 16 = 0x7.
Proof.
  intros Hv Hsize Hch Hrect.
  assert (Hu32 : forall n, 0 < n <= 65536 -> u32 n = n).
  { intros n Hn. unfold u32. apply Z.mod_small.
    change (2 ^ 32) with 4294967296. lia. }
  split; [reflexivity|]. split; [exact getBlockSizeCode_nonzero|].
  split; [|split; [|split; [|split]]].
  - intros n fn Hin Hn. rewrite (getBlockSizeCode_other n Hin).
    destruct (Z.leb_spec n 256); [|lia]. split; [reflexivity|].
    exists (packBits (syncBits e 6 (getSampleRateCode (sampleRate e)))).
    split; [apply writeFrameSync_spec|].
    rewrite writeFrameHeader_spec. unfold headerBytes, blockSizeTrailer.
    rewrite (Hu32 n) by lia. rewrite (getBlockSizeCode_other n Hin).
    destruct (Z.leb_spec n 256); [|lia]. cbn [Z.eqb Pos.eqb].
    unfold u8, u64. rewrite (Z.mod_small (n - 1) (2 ^ 64))
      by (change (2 ^ 64) with 18446744073709551616; lia).
    rewrite (Z.mod_small (n - 1)) by (change (2 ^ 8) with 256; lia).
    reflexivity.
  - intros n fn Hin Hn. rewrite (getBlockSizeCode_other n Hin).
    destruct (Z.leb_spec n 256); [lia|]. split; [reflexivity|].
    exists (packBits (syncBits e 7 (getSampleRateCode (sampleRate e)))).
    split; [apply writeFrameSync_spec|].
    rewrite writeFrameHeader_spec. unfold headerBytes, blockSizeTrailer.
    rewrite (Hu32 n) by lia. rewrite (getBlockSizeCode_other n Hin).
    destruct (Z.leb_spec n 256); [lia|]. cbn [Z.eqb Pos.eqb].
    unfold u64. rewrite (Z.mod_small (n - 1) (2 ^ 64))
      by (change (2 ^ 64) with 18446744073709551616; lia).
    rewrite crc16_bytes by (unfold isWord16; lia).
    reflexivity.
  - intros n Hin Hn. rewrite (getBlockSizeCode_other n Hin).
    destruct (Z.leb_spec n 256); [reflexivity|lia].
  - intros n Hin Hn. rewrite (getBlockSizeCode_other n Hin).
    destruct (Z.leb_spec n 256); [lia|reflexivity].
  - destruct (Encode_ok e samples 5000 Hv Hsize Hch Hrect sink)
      as (frames & E & Hl & Hf); [discriminate|].
    change ((5000 + 4095) / 4096) with 2 in Hl.
    destruct frames as [|f0 [|f1 [|f2 rest]]]; cbn [length] in Hl; try lia.
    destruct Hf as (_ & (body & _ & Hf1) & _).
    change (blockLen 5000 (0 + 1)) with 904 in Hf1.
    change (u64 (0 + 1)) with 1 in Hf1.
    destruct (second_frame_header e body) as (b2 & b3 & rest & Hhdr & Hb2).
    exists f0, f1, b2, b3, rest. split; [exact E|].
    split; [congruence|exact Hb2].
Qed.

Lemma getBlockSizeCode_table_witness :
  map getBlockSizeCode tabulated
  = [0x1; 0x2; 0x3; 0x4; 0x5; 0x8; 0x9; 0xA; 0xB; 0xC; 0xD; 0xE; 0xF]
  /\ (forall n, getBlockSizeCode n <> 0x0)
  /\ (forall n fn, ~ In n tabulated -> 0 < n <= 256 ->
        getBlockSizeCode n = 0x6
        /\ exists four, length four = 4%nat
             /\ writeFrameHeader cdMono n fn
                = Ok (aligned (four ++ utf8Bytes fn ++ [n - 1]
                               ++ sampleRateTrailer cdMono)))
  /\ (forall n fn, ~ In n tabulated -> 256 < n <= 65536 ->
        getBlockSizeCode n = 0x7
        /\ exists four, length four = 4%nat
             /\ writeFrameHeader cdMono n fn
                = Ok (aligned (four ++ utf8Bytes fn
                               ++ [(n - 1) / 256; (n - 1) mod 256]
                               ++ sampleRateTrailer cdMono)))
  /\ (forall n, ~ In n tabulated -> n <= 256 -> getBlockSizeCode n = 0x6)
  /\ (forall n, ~ In n tabulated -> 256 < n -> getBlockSizeCode n = 0x7)
  /\ exists f0 f1 b2 b3 rest,
       Encode (F := exactFloat64Ops) cdMono [exact (repeat 0 5000%nat)] []
       = Ok ([] ++ streamHeader cdMono ++ [f0; f1])
       /\ f1 = [0xFF; 0xF8; b2; b3; 0x01; 0x03; 0x87] ++ rest
       /\ b2 / 16 = 0x7.
Proof.
  apply (getBlockSizeCode_table (F := exactFloat64Ops) cdMono
           [exact (repeat 0 5000%nat)] []).
  - exact valid_cdMono.
  - reflexivity.
  - reflexivity.
  - constructor; [vm_compute; reflexivity|constructor].
Defined.

(** ** Claims the code does not meet *)

(** C1, at [NewEncoder(w, 44100, 1, 16)]: [WriteStreamInfo] writes the
    magic, the byte 0x80, then only two length bytes, both zero, then the
    34 bytes of STREAMINFO. [PutUint32] stored 34 in the fresh array that
    [append] allocated, and [length[1:]] is two bytes of the untouched
    [length]. The header is 41 bytes, offsets 5..7 hold 0x00 0x00 0x10 and
    STREAMINFO begins at offset 7. For every encoder the third write is
    [[0; 0]]. *)
Theorem WriteStreamInfo_length_bytes :
  (forall e sink, exists info,
      WriteStreamInfo e sink
      = Ok (sink ++ [[0x66; 0x4C; 0x61; 0x43]; [0x80]; [0x00; 0x00]; info]))
  /\ exists out info,
       WriteStreamInfo cdMono [] = Ok out
       /\ out = [[0x66; 0x4C; 0x61; 0x43]; [0x80]; [0x00; 0x00]; info]
       /\ length info = 34%nat
       /\ length (concat out) = 41%nat
       /\ firstn 3 (skipn 5 (concat out)) = [0x00; 0x00; 0x10]
       /\ firstn 3 (skipn 5 (concat out)) <> [0x00; 0x00; 0x22]
       /\ skipn 7 (concat out) = info.
Proof.
  split.
  - intros e sink. destruct (WriteStreamInfo_spec e sink) as (E & info & Hi).
    exists info. rewrite E, Hi. reflexivity.
  - do 2 eexists. split; [vm_compute; reflexivity|].
    split; [reflexivity|]. repeat split. discriminate.
Qed.

(** C2, at inputs whose two channels differ in length: [Encode] cuts every
    channel at the bounds of channel 0, so [EncodeFrame]'s length check
    never sees the difference. With 100 and 99 samples it panics (slice
    bounds out of range) when the capacity of channel 1 is 99, and encodes
    the element beyond the length when the capacity is larger; with 99 and
    100 samples it drops the last sample of channel 1 and succeeds.
    [EncodeFrame] itself, given the uncut slices, returns the error. *)
Theorem Encode_shape_mismatch :
  Encode (F := exactFloat64Ops) cdStereo
    [exact (repeat 0 100%nat); exact (repeat 0 99%nat)] []
  = Panic SliceBounds
  /\ (exists out,
        Encode (F := exactFloat64Ops) cdStereo
          [exact (repeat 0 100%nat); mkSlice (repeat 0 99%nat) [5]] [] = Ok out
        /\ Encode (F := exactFloat64Ops) cdStereo
             [exact (repeat 0 100%nat); exact (repeat 0 99%nat ++ [5])] [] = Ok out)
  /\ (exists out,
        Encode (F := exactFloat64Ops) cdStereo
          [exact (repeat 0 99%nat); exact (repeat 7 100%nat)] [] = Ok out
        /\ Encode (F := exactFloat64Ops) cdStereo
             [exact (repeat 0 99%nat); exact (repeat 7 99%nat)] [] = Ok out)
  /\ EncodeFrame (F := exactFloat64Ops) cdStereo
       [exact (repeat 0 100%nat); exact (repeat 0 99%nat)] 0 []
     = Err ErrBlockSize.
Proof.
  split; [vm_compute; reflexivity|].
  split; [eexists; split; vm_compute; reflexivity|].
  split; [eexists; split; vm_compute; reflexivity|].
  vm_compute. reflexivity.
Qed.

(** ** The Rice parameter

    Whatever the float64 arithmetic yields, the parameter is at most 14,
    so it fits the 4-bit field, and it is 0 on the empty list. *)
Lemma findOptimalRiceParameter_bounds {F : Float64Ops} residuals :
  0 <= findOptimalRiceParameter residuals <= 14
  /\ findOptimalRiceParameter [] = 0
  /\ bitsOf (findOptimalRiceParameter residuals) 4
     = bitsOf (findOptimalRiceParameter residuals mod 16) 4.
Proof.
  split; [apply findOptimalRiceParameter_range|]. split; [reflexivity|].
  rewrite Z.mod_small; [reflexivity|].
  pose proof (findOptimalRiceParameter_range residuals). lia.
Qed.

(** * Further properties of the bit sink *)

Lemma bitsOf_zero n : bitsOf 0 n = repeat false n.
Proof.
  induction n as [|k IH]; [reflexivity|].
  cbn [bitsOf repeat]. rewrite Z.bits_0, IH. reflexivity.
Qed.

Lemma writeBitsSigned_emits bw v n :
  wf bw -> 0 <= n <= 57 ->
  emits bw (writeBitsSigned bw v n) (bitsOf v (Z.to_nat n)).
Proof.
  intros Hwf Hn. unfold writeBitsSigned.
  assert (Hp : 0 < 2 ^ n) by (apply Z.pow_pos_nonneg; lia).
  destruct (v <? 0).
  - destruct (n <? 0) eqn:E; [apply Z.ltb_lt in E; lia|].
    eapply emits_eq; [apply writeBits_emits; [exact Hwf|exact Hn]|].
    unfold u64. rewrite bitsOf_mod by lia.
    rewrite <- (bitsOf_mod (_ + _) (Z.to_nat n) n) by lia.
    rewrite Z.shiftl_1_l, Z.add_comm. rewrite <- (Z.mul_1_l (2 ^ n)) at 1.
    rewrite Z.mod_add by lia. apply bitsOf_mod. lia.
  - eapply emits_eq; [apply writeBits_emits; [exact Hwf|exact Hn]|].
    unfold u64. apply bitsOf_mod. lia.
Qed.

Lemma fromTwos_mod n v :
  1 <= n -> - 2 ^ (n - 1) <= v < 2 ^ (n - 1) -> fromTwos n (v mod 2 ^ n) = v.
Proof.
  intros Hn Hv. unfold fromTwos.
  assert (Hp : 2 ^ n = 2 * 2 ^ (n - 1)).
  { rewrite <- Z.pow_succ_r by lia. f_equal. lia. }
  assert (Hq : 0 < 2 ^ (n - 1)) by (apply Z.pow_pos_nonneg; lia).
  destruct (Z.lt_ge_cases v 0) as [Hneg|Hpos].
  - replace (v mod 2 ^ n) with (v + 2 ^ n).
    + destruct (v + 2 ^ n <? 2 ^ (n - 1)) eqn:E; [apply Z.ltb_lt in E; lia|lia].
    + symmetry. rewrite <- (Z.mod_add v 1 (2 ^ n)) by lia.
      rewrite Z.mul_1_l. apply Z.mod_small. lia.
  - rewrite Z.mod_small by lia.
    destruct (v <? 2 ^ (n - 1)) eqn:E; [reflexivity|apply Z.ltb_ge in E; lia].
Qed.

(** X1: [writeBitsSigned] appends the [n]-bit two's-complement form of
    [value]: for a well-formed writer, [1 <= n <= 57] and [value] in
    [-2^(n-1), 2^(n-1)), the call succeeds, leaves the earlier bits alone and
    appends [n] bits that denote [value mod 2^n] and read back, as a signed
    number, as [value]. *)
Theorem writeBitsSigned_twos_complement bw v n :
  wf bw -> 1 <= n <= 57 -> - 2 ^ (n - 1) <= v < 2 ^ (n - 1) ->
  exists bw' bits,
    writeBitsSigned bw v n = Ok bw' /\ wf bw'
    /\ stream bw' = stream bw ++ bits
    /\ length bits = Z.to_nat n
    /\ valueOf bits = v mod 2 ^ n
    /\ fromTwos n (valueOf bits) = v.
Proof.
  intros Hwf Hn Hv.
  destruct (writeBitsSigned_emits bw v n Hwf) as (bw' & E & Hwf' & Hs); [lia|].
  exists bw', (bitsOf v (Z.to_nat n)).
  rewrite length_bitsOf, valueOf_bitsOf, Z2Nat.id by lia.
  repeat split; try assumption; try apply Hwf'.
  apply fromTwos_mod; [lia|exact Hv].
Qed.

Lemma writeBitsSigned_twos_complement_witness :
  exists bw' bits,
    writeBitsSigned onePending (-1) 4 = Ok bw' /\ wf bw'
    /\ stream bw' = stream onePending ++ bits
    /\ length bits = Z.to_nat 4
    /\ valueOf bits = (-1) mod 2 ^ 4
    /\ fromTwos 4 (valueOf bits) = -1.
Proof.
  apply (writeBitsSigned_twos_complement onePending (-1) 4).
  - unfold wf, onePending; cbn [buf current bitCount].
    split; [constructor|]. change (2 ^ 1) with 2. lia.
  - lia.
  - simpl. lia.
Defined.

(** X2: [alignToByte] pads with zero bits up to the next byte boundary and
    nothing else: on a well-formed writer it succeeds, appends
    [(8 - bitCount) mod 8] zero bits, leaves the writer byte-aligned with
    every pending bit flushed into [bytes], and a second call changes
    nothing. *)
Theorem alignToByte_pads bw :
  wf bw ->
  exists bw',
    alignToByte bw = Ok bw' /\ wf bw' /\ bitCount bw' = 0
    /\ stream bw' = stream bw ++ repeat false (Z.to_nat ((8 - bitCount bw) mod 8))
    /\ flat_map (fun b => bitsOf b 8) (bytes bw') = stream bw'
    /\ alignToByte bw' = Ok bw'.
Proof.
  intros Hwf. pose proof Hwf as (_ & Hbc & _).
  assert (G : exists bw', alignToByte bw = Ok bw' /\ wf bw'
              /\ stream bw' = stream bw
                              ++ repeat false (Z.to_nat ((8 - bitCount bw) mod 8))).
  { unfold alignToByte. destruct (0 <? bitCount bw) eqn:E.
    - apply Z.ltb_lt in E.
      destruct (writeBits_emits bw 0 (8 - bitCount bw) Hwf) as (bw' & E' & Hwf' & Hs);
        [lia|].
      exists bw'. rewrite Z.mod_small by lia. rewrite <- bitsOf_zero. auto.
    - apply Z.ltb_ge in E. exists bw. replace (bitCount bw) with 0 by lia.
      change (Z.to_nat ((8 - 0) mod 8)) with 0%nat. cbn [repeat].
      rewrite app_nil_r. auto. }
  destruct G as (bw' & E & Hwf' & Hs). exists bw'.
  assert (H0 : bitCount bw' = 0).
  { pose proof (wf_length bw Hwf) as L. pose proof (wf_length bw' Hwf') as L'.
    rewrite Hs, length_app, repeat_length in L'.
    destruct Hwf' as (_ & Hbc' & _).
    destruct (Z.eq_dec (bitCount bw) 0) as [Hz|Hnz].
    - rewrite Hz in *. change (Z.to_nat ((8 - 0) mod 8)) with 0%nat in L'. lia.
    - rewrite Z.mod_small in L' by lia. lia. }
  repeat split; try assumption; try apply Hwf'.
  - unfold stream, bytes. rewrite H0. cbn [Z.to_nat bitsOf]. rewrite app_nil_r.
    reflexivity.
  - unfold alignToByte. rewrite H0. reflexivity.
Qed.

Lemma alignToByte_pads_witness :
  exists bw',
    alignToByte onePending = Ok bw' /\ wf bw' /\ bitCount bw' = 0
    /\ stream bw' = stream onePending
                    ++ repeat false (Z.to_nat ((8 - bitCount onePending) mod 8))
    /\ flat_map (fun b => bitsOf b 8) (bytes bw') = stream bw'
    /\ alignToByte bw' = Ok bw'.
Proof.
  apply (alignToByte_pads onePending).
  unfold wf, onePending; cbn [buf current bitCount].
  split; [constructor|]. change (2 ^ 1) with 2. lia.
Defined.

Lemma writeAll_emits ws : forall bw,
  wf bw -> Forall (fun w => 0 <= snd w <= 57) ws ->
  emits bw (writeAll ws bw) (bitsOfAll ws).
Proof.
  induction ws as [|[v n] rest IH]; intros bw Hwf Hws.
  - apply emits_ret. exact Hwf.
  - inversion Hws as [|? ? Hn Hrest]; subst. cbn [writeAll bitsOfAll flat_map fst snd].
    apply emits_bind; [apply writeBits_emits; [exact Hwf|exact Hn]|].
    intros bw' Hwf'. apply IH; assumption.
Qed.

(** X3: any sequence of [writeBits] calls of at most 57 bits each, started on
    a fresh writer, succeeds; [bytes] then returns exactly the whole bytes
    of the concatenated bit strings, first bit in the most significant
    position, and holds back the incomplete last byte: its length is the
    total bit count divided by 8, rounded down, and [bitCount] is the
    remainder. *)
Theorem writeAll_bytes ws :
  Forall (fun w => 0 <= snd w <= 57) ws ->
  exists bw,
    writeAll ws newBitWriter = Ok bw
    /\ bytes bw = packBits (bitsOfAll ws)
    /\ Z.of_nat (length (bytes bw)) = Z.of_nat (length (bitsOfAll ws)) / 8
    /\ bitCount bw = Z.of_nat (length (bitsOfAll ws)) mod 8.
Proof.
  intros Hws.
  destruct (writeAll_emits ws newBitWriter wf_new Hws) as (bw & E & Hwf & Hs).
  change (stream newBitWriter) with (@nil bool) in Hs. cbn [app] in Hs.
  exists bw. split; [exact E|].
  pose proof (wf_length bw Hwf) as L. pose proof (wf_buf bw Hwf) as B.
  rewrite Hs in L, B. unfold bytes. destruct Hwf as (_ & Hbc & _).
  split; [exact B|]. rewrite L. split.
  - apply Z.div_unique with (r := bitCount bw); lia.
  - apply Z.mod_unique with (q := Z.of_nat (length (buf bw))); lia.
Qed.

Lemma writeAll_bytes_witness :
  exists bw,
    writeAll [(0x0F, 4); (0x00, 4); (0x07, 3)] newBitWriter = Ok bw
    /\ bytes bw = packBits (bitsOfAll [(0x0F, 4); (0x00, 4); (0x07, 3)])
    /\ Z.of_nat (length (bytes bw))
       = Z.of_nat (length (bitsOfAll [(0x0F, 4); (0x00, 4); (0x07, 3)])) / 8
    /\ bitCount bw
       = Z.of_nat (length (bitsOfAll [(0x0F, 4); (0x00, 4); (0x07, 3)])) mod 8.
Proof.
  apply (writeAll_bytes [(0x0F, 4); (0x00, 4); (0x07, 3)]).
  repeat constructor; simpl; lia.
Defined.
(** * Further properties of the CRC engine *)

Lemma calculateCRC8_snoc data b :
  calculateCRC8 (data ++ [b])
  = Nat.iter 8 crc8Step (Z.lxor (calculateCRC8 data) b).
Proof. unfold calculateCRC8. rewrite fold_left_app. reflexivity. Qed.

Lemma calculateCRC16_snoc data b :
  calculateCRC16 (data ++ [b]) = crc16Feed (calculateCRC16 data) b.
Proof. unfold calculateCRC16. rewrite fold_left_app. reflexivity. Qed.

Lemma land_top_bit x : 0 <= x < 2 ^ 15 -> Z.land x 0x8000 = 0.
Proof.
  intros Hx. apply Z.bits_inj'. intros i Hi.
  rewrite Z.land_spec, Z.bits_0. change 32768 with (2 ^ 15).
  rewrite Z.pow2_bits_eqb by lia.
  destruct (Z.eqb_spec 15 i) as [<-|Hne]; [|apply andb_false_r].
  rewrite (bits_of_small x 15 15) by lia. reflexivity.
Qed.

Lemma crc16Step_small x : 0 <= x < 2 ^ 15 -> crc16Step x = 2 * x.
Proof.
  intros Hx. unfold crc16Step. rewrite land_top_bit by exact Hx.
  cbn [Z.eqb]. unfold u16. rewrite Z.shiftl_mul_pow2 by lia.
  change (2 ^ 1) with 2. rewrite Z.mul_comm. apply Z.mod_small.
  change (2 ^ 15) with 32768 in Hx. change (2 ^ 16) with 65536. lia.
Qed.

Lemma crc16_shift_in lo k :
  (k <= 8)%nat -> 0 <= lo < 256 -> Nat.iter k crc16Step lo = lo * 2 ^ Z.of_nat k.
Proof.
  intros Hk Hlo. induction k as [|k IH]; [simpl; lia|].
  change (Nat.iter (S k) crc16Step lo) with (crc16Step (Nat.iter k crc16Step lo)).
  rewrite IH by lia.
  assert (Hp : 0 < 2 ^ Z.of_nat k <= 2 ^ 7).
  { split; [apply Z.pow_pos_nonneg; lia | apply Z.pow_le_mono_r; lia]. }
  rewrite crc16Step_small
    by (change (2 ^ 15) with (256 * 2 ^ 7); change (2 ^ 7) with 128 in *; nia).
  rewrite Nat2Z.inj_succ, Z.pow_succ_r by lia. lia.
Qed.

Lemma split_word c :
  0 <= c -> Z.lxor c (c / 256 * 256) = c mod 256.
Proof.
  intros Hc. pose proof (Z.mod_pos_bound c 256 ltac:(lia)) as Hlo.
  assert (E : c = Z.lxor (c / 256 * 256) (c mod 256)).
  { rewrite <- Z.add_nocarry_lxor.
    - pose proof (Z.div_mod c 256 ltac:(lia)). lia.
    - apply Z.bits_inj'. intros i Hi. rewrite Z.land_spec, Z.bits_0.
      change 256 with (2 ^ 8) at 2.
      destruct (Z.lt_ge_cases i 8).
      + rewrite Z.mul_pow2_bits_low by lia. reflexivity.
      + rewrite (bits_of_small (c mod 256) 8 i) by (change (2 ^ 8) with 256; lia).
        apply andb_false_r. }
  rewrite E at 1. rewrite Z.lxor_comm, <- Z.lxor_assoc, Z.lxor_nilpotent.
  apply Z.lxor_0_l.
Qed.

Lemma crc16_residue c :
  isWord16 c -> crc16Feed (crc16Feed c (c / 256)) (c mod 256) = 0.
Proof.
  unfold isWord16. intros Hc.
  pose proof (Z.mod_pos_bound c 256 ltac:(lia)) as Hlo.
  assert (Hhi : 0 <= c / 256 < 256).
  { split; [apply Z.div_pos; lia | apply Z.div_lt_upper_bound; lia]. }
  assert (Hu : forall b, 0 <= b < 256 -> u16 (Z.shiftl b 8) = b * 256).
  { intros b Hb. unfold u16. rewrite Z.shiftl_mul_pow2 by lia.
    change (2 ^ 8) with 256. apply Z.mod_small. change (2 ^ 16) with 65536. lia. }
  unfold crc16Feed. rewrite (Hu (c / 256) Hhi), split_word by lia.
  rewrite (crc16_shift_in (c mod 256) 8) by (try exact Hlo; lia).
  change (2 ^ Z.of_nat 8) with 256.
  rewrite (Hu (c mod 256) Hlo), Z.lxor_nilpotent. reflexivity.
Qed.

Lemma crc_residue_8 data : calculateCRC8 (data ++ [calculateCRC8 data]) = 0.
Proof. rewrite calculateCRC8_snoc, Z.lxor_nilpotent. reflexivity. Qed.

Lemma crc_residue_16 data :
  calculateCRC16 (data ++ [calculateCRC16 data / 256; calculateCRC16 data mod 256])
  = 0.
Proof.
  change [calculateCRC16 data / 256; calculateCRC16 data mod 256]
    with ([calculateCRC16 data / 256] ++ [calculateCRC16 data mod 256]).
  rewrite app_assoc, !calculateCRC16_snoc.
  apply crc16_residue, calculateCRC16_range.
Qed.

(** X4: a receiver that runs the CRC over data followed by its CRC gets
    zero. For every byte sequence, [calculateCRC8] of the data with its
    CRC-8 appended is 0, and [calculateCRC16] of the data with its CRC-16
    appended high byte first is 0; both CRCs of the empty sequence are 0, and
    they always fit 8 and 16 bits. *)
Theorem crc_residue data :
  calculateCRC8 (data ++ [calculateCRC8 data]) = 0
  /\ calculateCRC16 (data ++ [calculateCRC16 data / 256;
                              calculateCRC16 data mod 256]) = 0
  /\ calculateCRC8 [] = 0 /\ calculateCRC16 [] = 0
  /\ 0 <= calculateCRC8 data < 2 ^ 8
  /\ 0 <= calculateCRC16 data < 2 ^ 16.
Proof.
  split; [|split; [|split; [|split; [|split]]]].
  - apply crc_residue_8.
  - apply crc_residue_16.
  - reflexivity.
  - reflexivity.
  - apply calculateCRC8_range.
  - apply calculateCRC16_range.
Qed.

(** * Further properties of the code tables *)

Lemma getSampleRateCode_range sr : 1 <= getSampleRateCode sr <= 14.
Proof.
  unfold getSampleRateCode.
  repeat match goal with
         | |- context [if ?c then _ else _] => destruct c
         end; lia.
Qed.

Lemma getBlockSizeCode_range n : 1 <= getBlockSizeCode n <= 15.
Proof.
  unfold getBlockSizeCode.
  repeat match goal with
         | |- context [if ?c then _ else _] => destruct c
         end; lia.
Qed.

Lemma getSampleSizeCode_range bps :
  0 <= getSampleSizeCode bps <= 7 /\ getSampleSizeCode bps <> 3.
Proof.
  unfold getSampleSizeCode.
  repeat match goal with
         | |- context [if ?c then _ else _] => destruct c
         end; lia.
Qed.

Lemma word16_bytes x :
  0 <= x < 65536 ->
  u8 (Z.shiftr x 8) * 256 + u8 x = x.
Proof.
  intros Hx. unfold u8. rewrite Z.shiftr_div_pow2 by lia.
  change (2 ^ 8) with 256. rewrite (Z.mod_small (x / 256)).
  - pose proof (Z.div_mod x 256 ltac:(lia)). lia.
  - split; [apply Z.div_pos; lia | apply Z.div_lt_upper_bound; lia].
Qed.

Lemma getSampleRateCode_other sr :
  ~ In sr tabulatedRates ->
  getSampleRateCode sr
  = if (sr mod 1000 =? 0) && (sr / 1000 <? 256) then 0x0C
    else if sr <? 65536 then 0x0D else 0x0E.
Proof.
  intros H. unfold getSampleRateCode.
  repeat match goal with
         | |- context [?a =? ?c] =>
             lazymatch c with
             | 0 => fail
             | _ => destruct (Z.eqb_spec a c);
                    [exfalso; apply H; subst; unfold tabulatedRates; simpl; tauto|]
             end
         end.
  reflexivity.
Qed.

(** X5: the sample-rate and sample-size codes of the frame header.
    [getSampleRateCode] never returns 0x0 or 0xF, gives the eleven tabulated
    rates the codes 0x1..0xB in order, and otherwise picks an escape whose
    trailer holds the rate: one byte of kHz for code 0xC, the rate itself in
    16 bits for 0xD, and for 0xE the rate divided by ten in 16 bits, which is
    exact only for multiples of ten below 655360. [getSampleSizeCode] gives
    8, 12, 16, 20, 24, 32 the codes 1, 2, 4, 5, 6, 7 and everything else 0;
    it never returns the reserved code 3. *)
Theorem rate_and_size_codes e :
  0 <= sampleRate e ->
  1 <= getSampleRateCode (sampleRate e) <= 14
  /\ map getSampleRateCode tabulatedRates = [1; 2; 3; 4; 5; 6; 7; 8; 9; 10; 11]
  /\ (getSampleRateCode (sampleRate e) <= 11 ->
      In (sampleRate e) tabulatedRates /\ sampleRateTrailer e = [])
  /\ (getSampleRateCode (sampleRate e) = 12 ->
      exists b, sampleRateTrailer e = [b] /\ isByte b /\ 1000 * b = sampleRate e)
  /\ (getSampleRateCode (sampleRate e) = 13 ->
      exists hi lo, sampleRateTrailer e = [hi; lo] /\ isByte hi /\ isByte lo
                    /\ hi * 256 + lo = sampleRate e)
  /\ (getSampleRateCode (sampleRate e) = 14 -> sampleRate e < 655360 ->
      exists hi lo, sampleRateTrailer e = [hi; lo] /\ isByte hi /\ isByte lo
                    /\ hi * 256 + lo = sampleRate e / 10
                    /\ (sampleRate e mod 10 = 0 ->
                        10 * (hi * 256 + lo) = sampleRate e))
  /\ map getSampleSizeCode tabulatedSizes = [1; 2; 4; 5; 6; 7]
  /\ (forall bps, ~ In bps tabulatedSizes -> getSampleSizeCode bps = 0)
  /\ (forall bps, getSampleSizeCode bps <> 3 /\ 0 <= getSampleSizeCode bps <= 7).
Proof.
  intros Hsr. unfold sampleRateTrailer.
  generalize dependent (sampleRate e). intros sr Hsr.
  split; [apply getSampleRateCode_range|]. split; [reflexivity|].
  assert (Hsizes : map getSampleSizeCode tabulatedSizes = [1; 2; 4; 5; 6; 7]
            /\ (forall bps, ~ In bps tabulatedSizes -> getSampleSizeCode bps = 0)
            /\ (forall bps, getSampleSizeCode bps <> 3
                            /\ 0 <= getSampleSizeCode bps <= 7)).
  { split; [reflexivity|]. split.
    - intros bps H. unfold getSampleSizeCode.
      repeat match goal with
             | |- context [?a =? ?c] =>
                 destruct (Z.eqb_spec a c);
                 [exfalso; apply H; subst; unfold tabulatedSizes; simpl; tauto|]
             end.
      reflexivity.
    - intros bps. pose proof (getSampleSizeCode_range bps). tauto. }
  destruct (in_dec Z.eq_dec sr tabulatedRates) as [Hin|Hout].
  - assert (Hc : getSampleRateCode sr <= 11
                 /\ (if getSampleRateCode sr =? 12 then [u8 (sr / 1000)]
                     else if getSampleRateCode sr =? 13
                          then [u8 (Z.shiftr sr 8); u8 sr]
                          else if getSampleRateCode sr =? 14
                               then [u8 (Z.shiftr (sr / 10) 8); u8 (sr / 10)]
                               else []) = []).
    { unfold tabulatedRates in Hin. simpl in Hin.
      repeat (destruct Hin as [<-|Hin]; [split; [discriminate|reflexivity]|]).
      contradiction. }
    destruct Hc as (Hle & ->).
    split; [intros _; split; [exact Hin|reflexivity]|].
    split; [intros; lia|]. split; [intros; lia|]. split; [intros; lia|].
    exact Hsizes.
  - rewrite (getSampleRateCode_other sr Hout).
    destruct ((sr mod 1000 =? 0) && (sr / 1000 <? 256)) eqn:E1.
    + apply andb_true_iff in E1. destruct E1 as (Em & Ed).
      apply Z.eqb_eq in Em. apply Z.ltb_lt in Ed. cbn [Z.eqb Pos.eqb].
      split; [intros; lia|]. split.
      { intros _. exists (u8 (sr / 1000)). split; [reflexivity|].
        split; [apply u8_isByte|]. unfold u8. change (2 ^ 8) with 256.
        rewrite Z.mod_small by (split; [apply Z.div_pos; lia|lia]).
        pose proof (Z.div_mod sr 1000 ltac:(lia)). lia. }
      split; [intros; lia|]. split; [intros; lia|]. exact Hsizes.
    + destruct (sr <? 65536) eqn:E2; cbn [Z.eqb Pos.eqb].
      * apply Z.ltb_lt in E2.
        split; [intros; lia|]. split; [intros; lia|]. split.
        { intros _. exists (u8 (Z.shiftr sr 8)), (u8 sr). split; [reflexivity|].
          split; [apply u8_isByte|]. split; [apply u8_isByte|].
          apply word16_bytes. lia. }
        split; [intros; lia|]. exact Hsizes.
      * apply Z.ltb_ge in E2.
        split; [intros; lia|]. split; [intros; lia|]. split; [intros; lia|].
        split; [|exact Hsizes].
        intros _ Hlt. exists (u8 (Z.shiftr (sr / 10) 8)), (u8 (sr / 10)).
        split; [reflexivity|]. split; [apply u8_isByte|]. split; [apply u8_isByte|].
        assert (Hd : 0 <= sr / 10 < 65536).
        { split; [apply Z.div_pos; lia | apply Z.div_lt_upper_bound; lia]. }
        rewrite word16_bytes by exact Hd. split; [reflexivity|].
        intros Hm. pose proof (Z.div_mod sr 10 ltac:(lia)). lia.
Qed.

Lemma rate_and_size_codes_witness :
  1 <= getSampleRateCode (sampleRate cdMono) <= 14
  /\ map getSampleRateCode tabulatedRates = [1; 2; 3; 4; 5; 6; 7; 8; 9; 10; 11]
  /\ (getSampleRateCode (sampleRate cdMono) <= 11 ->
      In (sampleRate cdMono) tabulatedRates /\ sampleRateTrailer cdMono = [])
  /\ (getSampleRateCode (sampleRate cdMono) = 12 ->
      exists b, sampleRateTrailer cdMono = [b] /\ isByte b
                /\ 1000 * b = sampleRate cdMono)
  /\ (getSampleRateCode (sampleRate cdMono) = 13 ->
      exists hi lo, sampleRateTrailer cdMono = [hi; lo] /\ isByte hi /\ isByte lo
                    /\ hi * 256 + lo = sampleRate cdMono)
  /\ (getSampleRateCode (sampleRate cdMono) = 14 -> sampleRate cdMono < 655360 ->
      exists hi lo, sampleRateTrailer cdMono = [hi; lo] /\ isByte hi /\ isByte lo
                    /\ hi * 256 + lo = sampleRate cdMono / 10
                    /\ (sampleRate cdMono mod 10 = 0 ->
                        10 * (hi * 256 + lo) = sampleRate cdMono))
  /\ map getSampleSizeCode tabulatedSizes = [1; 2; 4; 5; 6; 7]
  /\ (forall bps, ~ In bps tabulatedSizes -> getSampleSizeCode bps = 0)
  /\ (forall bps, getSampleSizeCode bps <> 3 /\ 0 <= getSampleSizeCode bps <= 7).
Proof. apply (rate_and_size_codes cdMono). simpl. lia. Defined.
(** * Further properties of frames *)

Lemma valueOf_app a b :
  valueOf (a ++ b) = valueOf a * 2 ^ Z.of_nat (length b) + valueOf b.
Proof.
  induction b as [|x b IH] using rev_ind.
  - rewrite app_nil_r. simpl. change (valueOf []) with 0. lia.
  - rewrite app_assoc, !valueOf_snoc, IH, length_app. cbn [length].
    rewrite Nat2Z.inj_add, Z.pow_add_r by lia. change (2 ^ Z.of_nat 1) with 2. lia.
Qed.

Lemma packBits_group a l :
  length a = 8%nat -> packBits (a ++ l) = valueOf a :: packBits l.
Proof.
  intros H. do 8 (destruct a as [|? a]; [discriminate H|]).
  destruct a; [reflexivity|discriminate H].
Qed.

Lemma sync_bytes e bsc src :
  0 <= bsc < 16 -> 0 <= src < 16 -> 1 <= channels e <= 8 ->
  packBits (syncBits e bsc src)
  = [0xFF; 0xF8; 16 * bsc + src;
     16 * (channels e - 1) + 2 * getSampleSizeCode (bitsPerSample e)].
Proof.
  intros Hb Hs Hc. pose proof (getSampleSizeCode_range (bitsPerSample e)) as (Hz & _).
  unfold syncBits.
  change (bitsOf 16382 14) with (bitsOf 255 8 ++ bitsOf 62 6).
  change (bitsOf 0 1) with [false].
  replace ((bitsOf 255 8 ++ bitsOf 62 6) ++ [false] ++ [false]
           ++ bitsOf bsc 4 ++ bitsOf src 4 ++ bitsOf (u8 (channels e - 1)) 4
           ++ bitsOf (getSampleSizeCode (bitsPerSample e)) 3 ++ [false])
    with (bitsOf 255 8 ++ bitsOf 248 8 ++ (bitsOf bsc 4 ++ bitsOf src 4)
          ++ (bitsOf (u8 (channels e - 1)) 4
              ++ bitsOf (getSampleSizeCode (bitsPerSample e)) 3 ++ [false]) ++ [])
    by (rewrite <- !app_assoc; reflexivity).
  rewrite !packBits_group by (rewrite ?length_app, ?length_bitsOf; reflexivity).
  rewrite !valueOf_app, !valueOf_bitsOf, !length_app, !length_bitsOf.
  cbn [length Nat.add Z.of_nat Pos.of_succ_nat Pos.succ].
  change (valueOf [false]) with 0. unfold u8.
  change (2 ^ 8) with 256. change (2 ^ 4) with 16. change (2 ^ 3) with 8.
  change (2 ^ 1) with 2. change (2 ^ Z.pos 4) with 16.
  rewrite (Z.mod_small (channels e - 1) 256) by lia.
  rewrite (Z.mod_small bsc), (Z.mod_small src), (Z.mod_small (channels e - 1)),
    (Z.mod_small (getSampleSizeCode _)) by lia.
  cbn [packBits]. change (255 mod 256) with 255. change (248 mod 256) with 248.
  f_equal. f_equal. f_equal; [lia|]. f_equal. lia.
Qed.

Section FrameChecks.

Context {F : Float64Ops}.

(** Every frame [EncodeFrame] emits is the frame of a block of at least two
    samples per channel. *)
Lemma EncodeFrame_inv e samples fn sink sink' :
  validConfig e -> EncodeFrame e samples fn sink = Ok sink' ->
  exists s0 body,
    index samples 0 = Ok s0 /\ 2 <= len s0 /\ Forall isByte body
    /\ sink' = sink ++ [frameOf e (len s0) fn body].
Proof.
  intros Hv H. unfold EncodeFrame in H.
  destruct (frameBytes e samples fn) as [frame| |] eqn:Ef; try discriminate.
  cbn [bind] in H. injection H as <-.
  destruct (frameBytes_shape e samples fn frame Hv Ef) as (Hlen & s0 & Hs0 & Hrect).
  destruct (Z.lt_ge_cases (len s0) 2) as [Hshort|Hlong].
  { rewrite (frameBytes_short e samples fn (len s0) Hv Hlen Hrect Hshort) in Ef.
    discriminate Ef. }
  destruct (frameBytes_ok e samples fn (len s0) Hv Hlen Hrect Hlong)
    as (body & Hbody & Ef').
  rewrite Ef' in Ef. injection Ef as <-.
  exists s0, body. auto.
Qed.

(** X6: every frame [EncodeFrame] emits passes a decoder's checks. It is a
    list of bytes that starts with the sync bytes 0xFF 0xF8 (sync code,
    reserved bit, fixed blocking); its third byte holds the block-size code
    and the sample-rate code, its fourth the channel count minus one, the
    sample-size code and a zero bit; the CRC-8 run over the header and its
    CRC byte gives 0, and the CRC-16 run over the whole frame gives 0. *)
Theorem EncodeFrame_passes_checks e samples fn sink sink' :
  validConfig e -> EncodeFrame e samples fn sink = Ok sink' ->
  exists s0 frame rest,
    index samples 0 = Ok s0
    /\ sink' = sink ++ [frame]
    /\ Forall isByte frame
    /\ frame = 0xFF :: 0xF8
               :: 16 * getBlockSizeCode (u32 (len s0))
                  + getSampleRateCode (sampleRate e)
               :: 16 * (channels e - 1) + 2 * getSampleSizeCode (bitsPerSample e)
               :: rest
    /\ calculateCRC8
         (firstn (4 + utf8Width fn + length (blockSizeTrailer (len s0))
                  + length (sampleRateTrailer e) + 1) frame) = 0
    /\ calculateCRC16 frame = 0.
Proof.
  intros Hv H.
  destruct (EncodeFrame_inv e samples fn sink sink' Hv H)
    as (s0 & body & Hs0 & Hlen & Hbody & ->).
  pose proof (getBlockSizeCode_range (u32 (len s0))) as Hb.
  pose proof (getSampleRateCode_range (sampleRate e)) as Hr.
  assert (Hh : length (headerBytes e (len s0) fn)
               = (4 + utf8Width fn + length (blockSizeTrailer (len s0))
                  + length (sampleRateTrailer e))%nat).
  { unfold headerBytes. rewrite !length_app, length_utf8Bytes.
    destruct (writeFrameSync_spec e (getBlockSizeCode (u32 (len s0)))
                (getSampleRateCode (sampleRate e))) as (_ & _ & ->). lia. }
  eexists s0, _, _. split; [exact Hs0|]. split; [reflexivity|].
  split; [|split; [|split]].
  - unfold frameOf.
    apply Forall_app; split;
      [apply Forall_app; split; [|apply Forall_app; split]|].
    + apply headerBytes_isByte.
    + constructor; [apply calculateCRC8_range|constructor].
    + exact Hbody.
    + repeat constructor; apply u8_isByte.
  - unfold frameOf, headerBytes.
    rewrite sync_bytes by (try lia; apply Hv). cbn [app]. reflexivity.
  - rewrite <- Hh. unfold frameOf.
    set (hdr := headerBytes e (len s0) fn).
    replace ((hdr ++ [calculateCRC8 hdr] ++ body) ++ _)
      with ((hdr ++ [calculateCRC8 hdr]) ++ body
            ++ [u8 (Z.shiftr (calculateCRC16 (hdr ++ [calculateCRC8 hdr] ++ body)) 8);
                u8 (calculateCRC16 (hdr ++ [calculateCRC8 hdr] ++ body))])
      by (rewrite <- !app_assoc; reflexivity).
    replace (length hdr + 1)%nat with (length (hdr ++ [calculateCRC8 hdr]))
      by (rewrite length_app; reflexivity).
    rewrite firstn_app, Nat.sub_diag, firstn_all. cbn [firstn].
    rewrite app_nil_r. apply (crc_residue_8 hdr).
  - unfold frameOf. rewrite crc16_bytes by apply calculateCRC16_range.
    apply crc_residue_16.
Qed.

End FrameChecks.

Lemma EncodeFrame_passes_checks_witness :
  let sink' := match EncodeFrame (F := exactFloat64Ops) cdMono
                       [exact [1; 2; 3; -4; 100]] 0 [] with
               | Ok s => s
               | _ => []
               end in
  exists s0 frame rest,
    index [exact [1; 2; 3; -4; 100]] 0 = Ok s0
    /\ sink' = [] ++ [frame]
    /\ Forall isByte frame
    /\ frame = 0xFF :: 0xF8
               :: 16 * getBlockSizeCode (u32 (len s0))
                  + getSampleRateCode (sampleRate cdMono)
               :: 16 * (channels cdMono - 1)
                  + 2 * getSampleSizeCode (bitsPerSample cdMono)
               :: rest
    /\ calculateCRC8
         (firstn (4 + utf8Width 0 + length (blockSizeTrailer (len s0))
                  + length (sampleRateTrailer cdMono) + 1) frame) = 0
    /\ calculateCRC16 frame = 0.
Proof.
  apply (EncodeFrame_passes_checks (F := exactFloat64Ops) cdMono
           [exact [1; 2; 3; -4; 100]] 0 []).
  - exact valid_cdMono.
  - vm_compute. reflexivity.
Defined.

(** * Further properties of the encoder *)

Lemma checkBlockSize_cases samples n count : forall lo,
  0 <= lo -> lo + Z.of_nat count <= Z.of_nat (length samples) ->
  forRange lo count (checkBlockSize samples n) tt = Ok tt
  \/ forRange lo count (checkBlockSize samples n) tt = Err ErrBlockSize.
Proof.
  induction count as [|c IH]; intros lo Hlo Hhi; [left; reflexivity|].
  cbn [forRange].
  assert (Hb : checkBlockSize samples n lo tt = Ok tt
               \/ checkBlockSize samples n lo tt = Err ErrBlockSize).
  { unfold checkBlockSize.
    rewrite (index_ok samples lo (exact [])) by lia. cbn [bind].
    destruct (len _ =? n); [left|right]; reflexivity. }
  destruct Hb as [-> | ->]; [|right; reflexivity].
  cbn [bind]. apply IH; lia.
Qed.

Section Outcomes.

Context {F : Float64Ops}.

Lemma frameBytes_ragged e samples fn s0 :
  validConfig e -> Z.of_nat (length samples) = channels e ->
  index samples 0 = Ok s0 ->
  ~ Forall (fun s => len s = len s0) samples ->
  frameBytes e samples fn = Err ErrBlockSize.
Proof.
  intros Hv Hlen Hs0 Hragged. unfold frameBytes.
  replace (Z.of_nat (length samples) =? channels e) with true
    by (symmetry; apply Z.eqb_eq; exact Hlen).
  cbn [negb]. rewrite Hs0. cbn [bind].
  destruct samples as [|s rest]; [discriminate Hs0|].
  change (index (s :: rest) 0) with (Ok s) in Hs0. injection Hs0 as ->.
  destruct (checkBlockSize_cases (s0 :: rest) (len s0)
              (Z.to_nat (Z.of_nat (length (s0 :: rest)) - 1)) 1) as [E|E];
    [lia|cbn [length]; lia| |rewrite E; reflexivity].
  exfalso. apply Hragged.
  pose proof (forRange_unit_ok _ _ _ _ E) as Hall.
  apply Forall_nth. intros i d Hi.
  destruct i as [|i]; [reflexivity|].
  specialize (Hall (Z.of_nat (S i))). unfold checkBlockSize in Hall.
  rewrite (index_ok (s0 :: rest) (Z.of_nat (S i)) d) in Hall by lia.
  cbn [bind] in Hall. rewrite Nat2Z.id in Hall.
  destruct (len (nth (S i) (s0 :: rest) d) =? len s0) eqn:El.
  - apply Z.eqb_eq. exact El.
  - assert (X : @Err unit ErrBlockSize = Ok tt) by (apply Hall; lia).
    discriminate X.
Qed.

(** X7: the outcome of [EncodeFrame] is decided by the shape of its input
    alone, whatever the sample values and the frame number. With a number
    of slices other than the channel count it returns "sample count mismatch
    with channels"; with the right number but a slice whose length differs
    from the first it returns "all channels must have same block size";
    with equal lengths below 2 it panics (index out of range); otherwise it
    appends exactly one frame to the sink. *)
Theorem EncodeFrame_outcome e samples fn sink :
  validConfig e ->
  (Z.of_nat (length samples) <> channels e ->
   EncodeFrame e samples fn sink = Err ErrChannelCount)
  /\ (Z.of_nat (length samples) = channels e ->
      exists s0, index samples 0 = Ok s0
        /\ (~ Forall (fun s => len s = len s0) samples ->
            EncodeFrame e samples fn sink = Err ErrBlockSize)
        /\ (Forall (fun s => len s = len s0) samples -> len s0 < 2 ->
            EncodeFrame e samples fn sink = Panic IndexOutOfRange)
        /\ (Forall (fun s => len s = len s0) samples -> 2 <= len s0 ->
            exists frame, EncodeFrame e samples fn sink = Ok (sink ++ [frame]))).
Proof.
  intros Hv. split.
  - intros Hne. unfold EncodeFrame, frameBytes.
    replace (Z.of_nat (length samples) =? channels e) with false
      by (symmetry; apply Z.eqb_neq; exact Hne).
    reflexivity.
  - intros Hlen. destruct samples as [|s0 rest].
    { destruct Hv as (Hch & _). simpl in Hlen. lia. }
    exists s0. split; [reflexivity|]. split; [|split].
    + intros Hr. unfold EncodeFrame.
      rewrite (frameBytes_ragged e (s0 :: rest) fn s0 Hv Hlen eq_refl Hr).
      reflexivity.
    + intros Hr Hs. unfold EncodeFrame.
      rewrite (frameBytes_short e (s0 :: rest) fn (len s0) Hv Hlen Hr Hs).
      reflexivity.
    + intros Hr Hs. unfold EncodeFrame.
      destruct (frameBytes_ok e (s0 :: rest) fn (len s0) Hv Hlen Hr Hs)
        as (body & _ & ->).
      eexists. reflexivity.
Qed.

(** X8: what [Encode] writes. For an encoder made by [NewEncoder] and one
    slice per channel, all of length [N] (whatever their capacity), with
    [N mod 4096 <> 1], [Encode] succeeds and hands the sink the four writes
    of the stream header followed by one write per frame, [ceil(N / 4096)]
    of them; frame [k] is numbered [k] and built for a block of
    [min(4096, N - 4096 k)] samples, so all blocks are full except possibly
    the last; with [N = 0] nothing follows the stream header. *)
Theorem Encode_writes_frames sr ch bps e samples N sink :
  0 <= ch -> 0 <= bps ->
  NewEncoder sr ch bps = Ok e ->
  Z.of_nat (length samples) = ch ->
  Forall (fun s => len s = N) samples ->
  N mod 4096 <> 1 ->
  exists frames,
    Encode e samples sink = Ok (sink ++ streamHeader e ++ frames)
    /\ length (streamHeader e) = 4%nat
    /\ Z.of_nat (length frames) = (N + 4095) / 4096
    /\ isFrames e N 0 frames
    /\ (N = 0 -> frames = [])
    /\ (forall k, 0 <= k < (N + 4095) / 4096 - 1 -> blockLen N k = 4096)
    /\ (0 < N -> blockLen N ((N + 4095) / 4096 - 1)
                 = if N mod 4096 =? 0 then 4096 else N mod 4096).
Proof.
  intros Hch Hbps Hnew Hlen Hrect Hmod.
  destruct (NewEncoder_valid sr ch bps e Hch Hbps Hnew) as (Hv & Hsize).
  assert (Hce : channels e = ch).
  { unfold NewEncoder in Hnew.
    destruct (_ || _); [discriminate|]. destruct (_ || _); [discriminate|].
    injection Hnew as <-. reflexivity. }
  rewrite <- Hce in Hlen.
  destruct (Encode_ok e samples N Hv Hsize Hlen Hrect sink Hmod)
    as (frames & E & Hl & Hf).
  exists frames. split; [exact E|]. split.
  { destruct (WriteStreamInfo_spec e []) as (_ & info & ->). reflexivity. }
  split; [exact Hl|]. split; [exact Hf|].
  pose proof (Z.div_mod (N + 4095) 4096 ltac:(lia)) as D1.
  pose proof (Z.mod_pos_bound (N + 4095) 4096 ltac:(lia)) as B1.
  pose proof (Z.div_mod N 4096 ltac:(lia)) as D2.
  pose proof (Z.mod_pos_bound N 4096 ltac:(lia)) as B2.
  split; [|split].
  - intros ->. change ((0 + 4095) / 4096) with 0 in Hl.
    destruct frames; [reflexivity|simpl in Hl; lia].
  - intros k Hk. unfold blockLen. lia.
  - intros HN. unfold blockLen.
    destruct (Z.eqb_spec (N mod 4096) 0); lia.
Qed.

End Outcomes.

Lemma EncodeFrame_outcome_witness :
  (Z.of_nat (length [exact [1; 2]; exact [3]]) <> channels cdStereo ->
   EncodeFrame (F := exactFloat64Ops) cdStereo [exact [1; 2]; exact [3]] 0 []
   = Err ErrChannelCount)
  /\ (Z.of_nat (length [exact [1; 2]; exact [3]]) = channels cdStereo ->
      exists s0, index [exact [1; 2]; exact [3]] 0 = Ok s0
        /\ (~ Forall (fun s => len s = len s0) [exact [1; 2]; exact [3]] ->
            EncodeFrame (F := exactFloat64Ops) cdStereo [exact [1; 2]; exact [3]] 0 []
            = Err ErrBlockSize)
        /\ (Forall (fun s => len s = len s0) [exact [1; 2]; exact [3]] ->
            len s0 < 2 ->
            EncodeFrame (F := exactFloat64Ops) cdStereo [exact [1; 2]; exact [3]] 0 []
            = Panic IndexOutOfRange)
        /\ (Forall (fun s => len s = len s0) [exact [1; 2]; exact [3]] ->
            2 <= len s0 ->
            exists frame,
              EncodeFrame (F := exactFloat64Ops) cdStereo
                [exact [1; 2]; exact [3]] 0 [] = Ok ([] ++ [frame]))).
Proof.
  apply (EncodeFrame_outcome (F := exactFloat64Ops) cdStereo
           [exact [1; 2]; exact [3]] 0 []).
  unfold validConfig, cdStereo; cbn [channels bitsPerSample]. lia.
Defined.

Lemma Encode_writes_frames_witness :
  exists frames,
    Encode (F := exactFloat64Ops) cdMono [exact (repeat 0 5000%nat)] []
    = Ok ([] ++ streamHeader cdMono ++ frames)
    /\ length (streamHeader cdMono) = 4%nat
    /\ Z.of_nat (length frames) = (5000 + 4095) / 4096
    /\ isFrames cdMono 5000 0 frames
    /\ (5000 = 0 -> frames = [])
    /\ (forall k, 0 <= k < (5000 + 4095) / 4096 - 1 -> blockLen 5000 k = 4096)
    /\ (0 < 5000 -> blockLen 5000 ((5000 + 4095) / 4096 - 1)
                    = if 5000 mod 4096 =? 0 then 4096 else 5000 mod 4096).
Proof.
  apply (Encode_writes_frames (F := exactFloat64Ops) 44100 1 16 cdMono
           [exact (repeat 0 5000%nat)] 5000 []).
  - lia.
  - lia.
  - reflexivity.
  - reflexivity.
  - constructor; [vm_compute; reflexivity|constructor].
  - vm_compute. discriminate.
Defined.
(** * The STREAMINFO block *)

Lemma In_rangeZ n z : 0 <= z < Z.of_nat n -> In z (rangeZ n).
Proof.
  intros Hz. unfold rangeZ. apply in_map_iff. exists (Z.to_nat z).
  split; [lia|]. apply in_seq. lia.
Qed.

Lemma packedByte12_all :
  forallb (fun s =>
    forallb (fun c =>
      forallb (fun b =>
        let x := packedByte12 s (c + 1) (b + 1) in
        (x / 16 =? s) && ((x / 2) mod 8 =? c) && (x mod 2 =? b / 16)
        && (0 <=? x) && (x <? 256))
        (rangeZ 32)) (rangeZ 8)) (rangeZ 16) = true.
Proof. vm_compute. reflexivity. Qed.

Lemma packedByte12_fields sr ch bps :
  1 <= ch <= 8 -> 1 <= bps <= 32 ->
  let x := packedByte12 sr ch bps in
  x / 16 = sr mod 16 /\ (x / 2) mod 8 = ch - 1 /\ x mod 2 = (bps - 1) / 16
  /\ isByte x.
Proof.
  intros Hc Hb.
  assert (E : packedByte12 sr ch bps = packedByte12 (sr mod 16) ch bps).
  { unfold packedByte12. change 15 with (Z.ones 4).
    rewrite !Z.land_ones by lia. change (2 ^ 4) with 16.
    rewrite Z.mod_mod by lia. reflexivity. }
  cbv zeta. rewrite E. pose proof packedByte12_all as H.
  rewrite forallb_forall in H.
  specialize (H (sr mod 16) (In_rangeZ 16 _ (Z.mod_pos_bound sr 16 eq_refl))).
  rewrite forallb_forall in H.
  specialize (H (ch - 1) (In_rangeZ 8 (ch - 1) ltac:(lia))).
  rewrite forallb_forall in H.
  specialize (H (bps - 1) (In_rangeZ 32 (bps - 1) ltac:(lia))).
  cbv zeta in H. replace (ch - 1 + 1) with ch in H by lia.
  replace (bps - 1 + 1) with bps in H by lia.
  rewrite !andb_true_iff in H. destruct H as ((((H1 & H2) & H3) & H4) & H5).
  apply Z.eqb_eq in H1, H2, H3. apply Z.leb_le in H4. apply Z.ltb_lt in H5.
  unfold isByte. auto.
Qed.

Lemma packedByte13_all :
  forallb (fun b =>
    let x := packedByte13 (b + 1) 0 in
    (x / 16 =? b mod 16) && (x mod 16 =? 0) && (0 <=? x) && (x <? 256))
    (rangeZ 32) = true.
Proof. vm_compute. reflexivity. Qed.

Lemma packedByte13_fields bps :
  1 <= bps <= 32 ->
  let x := packedByte13 bps 0 in
  x / 16 = (bps - 1) mod 16 /\ x mod 16 = 0 /\ isByte x.
Proof.
  intros Hb. pose proof packedByte13_all as H.
  rewrite forallb_forall in H.
  specialize (H (bps - 1) (In_rangeZ 32 (bps - 1) ltac:(lia))).
  cbv zeta in H. replace (bps - 1 + 1) with bps in H by lia.
  rewrite !andb_true_iff in H. destruct H as (((H1 & H2) & H3) & H4).
  apply Z.eqb_eq in H1, H2. apply Z.leb_le in H3. apply Z.ltb_lt in H4.
  unfold isByte. auto.
Qed.

Lemma rate_bytes sr :
  0 <= sr ->
  u8 (Z.shiftr sr 12) * 4096 + u8 (Z.shiftr sr 4) * 16 + sr mod 16
  = sr mod 2 ^ 20.
Proof.
  intros Hsr. unfold u8. rewrite !Z.shiftr_div_pow2 by lia.
  change (2 ^ 12) with (16 * 256). change (2 ^ 4) with 16. change (2 ^ 8) with 256.
  rewrite <- Z.div_div by lia.
  pose proof (Z.div_mod sr 16 ltac:(lia)) as D1.
  pose proof (Z.mod_pos_bound sr 16 ltac:(lia)) as B1.
  pose proof (Z.div_mod (sr / 16) 256 ltac:(lia)) as D2.
  pose proof (Z.mod_pos_bound (sr / 16) 256 ltac:(lia)) as B2.
  pose proof (Z.div_mod (sr / 16 / 256) 256 ltac:(lia)) as D3.
  pose proof (Z.mod_pos_bound (sr / 16 / 256) 256 ltac:(lia)) as B3.
  apply Z.mod_unique with (q := sr / 16 / 256 / 256);
    change (2 ^ 20) with 1048576; lia.
Qed.

(** X9: the STREAMINFO block of an encoder made by [NewEncoder]. The fourth
    write of [WriteStreamInfo] is 34 bytes: the block size 4096 twice as
    16-bit big-endian numbers, six zero bytes for the unknown frame sizes,
    four bytes that pack the low 20 bits of the sample rate, the channel
    count minus one in 3 bits and the sample size minus one in 5 bits, and
    twenty zero bytes (unknown sample count, no MD5). The packed fields read
    back: a rate below 2^20 is recovered exactly, a larger one loses its
    high bits. *)
Theorem streamInfo_fields sr ch bps e :
  0 <= sr -> 0 <= ch -> 0 <= bps ->
  NewEncoder sr ch bps = Ok e ->
  exists b10 b11 b12 b13,
    streamHeader e
    = [[0x66; 0x4C; 0x61; 0x43]; [0x80]; [0x00; 0x00];
       [0x10; 0x00; 0x10; 0x00; 0; 0; 0; 0; 0; 0; b10; b11; b12; b13]
       ++ repeat 0 20%nat]
    /\ isByte b10 /\ isByte b11 /\ isByte b12 /\ isByte b13
    /\ b10 * 4096 + b11 * 16 + b12 / 16 = sr mod 2 ^ 20
    /\ (b12 / 2) mod 8 = ch - 1
    /\ (b12 mod 2) * 16 + b13 / 16 = bps - 1
    /\ b13 mod 16 = 0.
Proof.
  intros Hsr Hch Hbps Hnew.
  assert (Hr : 1 <= ch <= 8 /\ 1 <= bps <= 32).
  { destruct (NewEncoder_valid sr ch bps e Hch Hbps Hnew) as ((H1 & H2) & _).
    unfold NewEncoder in Hnew.
    destruct (_ || _); [discriminate|]. destruct (_ || _); [discriminate|].
    injection Hnew as <-. cbn [channels bitsPerSample] in *. lia. }
  destruct Hr as (Hc & Hb).
  unfold NewEncoder in Hnew.
  destruct (_ || _); [discriminate|]. destruct (_ || _); [discriminate|].
  injection Hnew as <-.
  exists (u8 (Z.shiftr sr 12)), (u8 (Z.shiftr sr 4)),
         (packedByte12 sr ch bps), (packedByte13 bps 0).
  destruct (packedByte12_fields sr ch bps Hc Hb) as (F1 & F2 & F3 & F4).
  destruct (packedByte13_fields bps Hb) as (G1 & G2 & G3).
  split.
  { unfold streamHeader. run_store. cbn [sampleRate channels bitsPerSample
      totalSamples blockSize md5sum]. reflexivity. }
  split; [apply u8_isByte|]. split; [apply u8_isByte|].
  split; [exact F4|]. split; [exact G3|].
  split; [rewrite F1; apply rate_bytes; exact Hsr|].
  split; [exact F2|]. split; [|exact G2].
  rewrite F3, G1. pose proof (Z.div_mod (bps - 1) 16 ltac:(lia)). lia.
Qed.

Lemma streamInfo_fields_witness :
  exists b10 b11 b12 b13,
    streamHeader cdMono
    = [[0x66; 0x4C; 0x61; 0x43]; [0x80]; [0x00; 0x00];
       [0x10; 0x00; 0x10; 0x00; 0; 0; 0; 0; 0; 0; b10; b11; b12; b13]
       ++ repeat 0 20%nat]
    /\ isByte b10 /\ isByte b11 /\ isByte b12 /\ isByte b13
    /\ b10 * 4096 + b11 * 16 + b12 / 16 = 44100 mod 2 ^ 20
    /\ (b12 / 2) mod 8 = 1 - 1
    /\ (b12 mod 2) * 16 + b13 / 16 = 16 - 1
    /\ b13 mod 16 = 0.
Proof.
  apply (streamInfo_fields 44100 1 16 cdMono).
  - lia.
  - lia.
  - lia.
  - reflexivity.
Defined.

(** * Rice codes and residuals read back *)

Lemma encodeRiceAll_emits residuals p : forall bw,
  wf bw -> 0 <= p < 32 ->
  emits bw (encodeRiceAll bw residuals p)
        (flat_map (fun r => riceCode r p) residuals).
Proof.
  induction residuals as [|r rest IH]; intros bw Hwf Hp.
  - apply emits_ret. exact Hwf.
  - cbn [encodeRiceAll flat_map]. apply emits_bind.
    + apply encodeRice_emits; assumption.
    + intros bw' Hwf'. apply IH; assumption.
Qed.

Lemma countZeros_unary q t :
  countZeros (repeat false q ++ true :: t) = Some (q, t).
Proof.
  induction q as [|q IH]; [reflexivity|].
  cbn [repeat app countZeros]. rewrite IH. reflexivity.
Qed.

Lemma takeBits_app a t : takeBits (length a) (a ++ t) = Some (a, t).
Proof.
  unfold takeBits. rewrite length_app.
  destruct (Nat.ltb_spec (length a + length t) (length a)); [lia|].
  rewrite firstn_app, Nat.sub_diag, firstn_all, skipn_app, Nat.sub_diag, skipn_all.
  cbn [firstn skipn app]. rewrite app_nil_r. reflexivity.
Qed.

Lemma unzigzag_zigzag r : - 2 ^ 31 <= r < 2 ^ 31 -> unzigzag (zigzag r) = r.
Proof.
  intros Hr. rewrite (zigzag_spec r Hr). unfold zigzagSpec, unzigzag.
  destruct (r <? 0) eqn:E.
  - apply Z.ltb_lt in E.
    replace (- 2 * r - 1) with (1 + 2 * (- r - 1)) by lia.
    rewrite Z.even_add_mul_2. cbn [Z.even].
    replace (1 + 2 * (- r - 1) + 1) with ((- r) * 2) by lia.
    rewrite Z.div_mul by lia. lia.
  - rewrite Z.even_mul. cbn [Z.even orb].
    rewrite Z.mul_comm, Z.div_mul by lia. reflexivity.
Qed.

Lemma decodeRice_riceCode r p t :
  - 2 ^ 31 <= r < 2 ^ 31 -> 0 <= p ->
  decodeRice p (riceCode r p ++ t) = Some (r, t).
Proof.
  intros Hr Hp. unfold decodeRice, riceCode.
  rewrite <- !app_assoc. cbn [app]. rewrite countZeros_unary.
  rewrite <- (length_bitsOf (zigzag r) (Z.to_nat p)) at 1.
  rewrite takeBits_app, valueOf_bitsOf.
  pose proof (zigzag_range r) as Hu.
  rewrite Z2Nat.id by (apply Z.shiftr_nonneg; lia).
  rewrite Z2Nat.id by lia. rewrite Z.shiftr_div_pow2 by lia.
  assert (H2 : 0 < 2 ^ p) by (apply Z.pow_pos_nonneg; lia).
  rewrite (Z.mul_comm (zigzag r / 2 ^ p)), <- Z.div_mod by lia.
  rewrite unzigzag_zigzag by exact Hr. reflexivity.
Qed.

Lemma decodeRiceAll_codes residuals p t :
  Forall (fun r => - 2 ^ 31 <= r < 2 ^ 31) residuals -> 0 <= p ->
  decodeRiceAll (length residuals) p
    (flat_map (fun r => riceCode r p) residuals ++ t)
  = Some (residuals, t).
Proof.
  intros Hr Hp. induction Hr as [|r rest Hr0 _ IH]; [reflexivity|].
  cbn [length decodeRiceAll flat_map]. rewrite <- app_assoc.
  rewrite decodeRice_riceCode by assumption. rewrite IH. reflexivity.
Qed.

Section RiceRoundTrip.

Context {F : Float64Ops}.

Lemma encodeResidual_emits bw residuals :
  wf bw ->
  emits bw (encodeResidual bw residuals)
    (bitsOf 0 6 ++ bitsOf (findOptimalRiceParameter residuals) 4
     ++ flat_map (fun r => riceCode r (findOptimalRiceParameter residuals))
                 residuals).
Proof.
  intros Hwf. unfold encodeResidual.
  pose proof (findOptimalRiceParameter_range residuals) as Hp.
  change (bitsOf 0 6) with (bitsOf 0 (Z.to_nat 2) ++ bitsOf 0 (Z.to_nat 4)).
  rewrite <- app_assoc.
  apply emits_bind; [apply writeBits_emits; [exact Hwf|lia]|].
  intros bw1 Hwf1.
  apply emits_bind; [apply writeBits_emits; [exact Hwf1|lia]|].
  intros bw2 Hwf2.
  apply emits_bind; [apply (writeBits_emits bw2 _ 4); [exact Hwf2|lia]|].
  intros bw3 Hwf3. apply encodeRiceAll_emits; [exact Hwf3|lia].
Qed.

(** X10: the residual section can be read back. For any residuals in int32,
    [encodeResidual] succeeds and appends six zero bits (coding method 0,
    partition order 0), the Rice parameter in 4 bits and the Rice codes of
    the residuals in order; reading the parameter and then as many Rice
    codes as there are residuals off these bits returns the residuals and
    leaves whatever follows untouched, so no code is a prefix of another. *)
Theorem encodeResidual_reads_back bw residuals :
  wf bw -> Forall (fun r => - 2 ^ 31 <= r < 2 ^ 31) residuals ->
  exists bw' p codes,
    encodeResidual bw residuals = Ok bw' /\ wf bw'
    /\ 0 <= p <= 14
    /\ stream bw' = stream bw ++ repeat false 6 ++ bitsOf p 4 ++ codes
    /\ codes = flat_map (fun r => riceCode r p) residuals
    /\ forall t, decodeRiceAll (length residuals) (valueOf (bitsOf p 4)) (codes ++ t)
                 = Some (residuals, t).
Proof.
  intros Hwf Hr.
  destruct (encodeResidual_emits bw residuals Hwf) as (bw' & E & Hwf' & Hs).
  pose proof (findOptimalRiceParameter_range residuals) as Hp.
  exists bw', (findOptimalRiceParameter residuals),
    (flat_map (fun r => riceCode r (findOptimalRiceParameter residuals)) residuals).
  split; [exact E|]. split; [exact Hwf'|]. split; [exact Hp|].
  split; [exact Hs|]. split; [reflexivity|].
  intros t. rewrite valueOf_bitsOf. change (2 ^ Z.of_nat 4) with 16.
  rewrite Z.mod_small by lia. apply decodeRiceAll_codes; [exact Hr|lia].
Qed.

End RiceRoundTrip.

Lemma encodeResidual_reads_back_witness :
  exists bw' p codes,
    encodeResidual (F := exactFloat64Ops) onePending [3; -1; 0] = Ok bw' /\ wf bw'
    /\ 0 <= p <= 14
    /\ stream bw' = stream onePending ++ repeat false 6 ++ bitsOf p 4 ++ codes
    /\ codes = flat_map (fun r => riceCode r p) [3; -1; 0]
    /\ forall t, decodeRiceAll (length [3; -1; 0]) (valueOf (bitsOf p 4)) (codes ++ t)
                 = Some ([3; -1; 0], t).
Proof.
  apply (encodeResidual_reads_back (F := exactFloat64Ops) onePending [3; -1; 0]).
  - unfold wf, onePending; cbn [buf current bitCount].
    split; [constructor|]. change (2 ^ 1) with 2. lia.
  - repeat constructor; simpl; lia.
Defined.
(** * Prediction and subframes read back *)

Lemma i32_range x : int32 (i32 x).
Proof.
  unfold int32, i32. pose proof (Z.mod_pos_bound (x + 2 ^ 31) (2 ^ 32) eq_refl).
  change (2 ^ 32) with (2 * 2 ^ 31) in *. lia.
Qed.

Lemma i32_small x : int32 x -> i32 x = x.
Proof.
  unfold int32, i32. intros H. rewrite Z.mod_small; [lia|].
  change (2 ^ 32) with (2 * 2 ^ 31). lia.
Qed.

Lemma i32_shift x k : i32 (x + k * 2 ^ 32) = i32 x.
Proof.
  unfold i32. replace (x + k * 2 ^ 32 + 2 ^ 31) with (x + 2 ^ 31 + k * 2 ^ 32) by lia.
  rewrite Z.mod_add by (change (2 ^ 32) with 4294967296; lia). reflexivity.
Qed.

Lemma i32_decomp y : exists k, i32 y = y + k * 2 ^ 32.
Proof.
  exists (- ((y + 2 ^ 31) / 2 ^ 32)). unfold i32.
  pose proof (Z.div_mod (y + 2 ^ 31) (2 ^ 32)) as D.
  change (2 ^ 32) with 4294967296 in *. lia.
Qed.

Lemma i32_add_l x y : i32 (i32 x + y) = i32 (x + y).
Proof.
  destruct (i32_decomp x) as [k ->].
  replace (x + k * 2 ^ 32 + y) with (x + y + k * 2 ^ 32) by lia. apply i32_shift.
Qed.

Lemma i32_add_r x y : i32 (x + i32 y) = i32 (x + y).
Proof. rewrite Z.add_comm, i32_add_l, Z.add_comm. reflexivity. Qed.

Lemma i32_sub_l x y : i32 (i32 x - y) = i32 (x - y).
Proof. unfold Z.sub. apply i32_add_l. Qed.

Lemma i32_sub_r x y : i32 (x - i32 y) = i32 (x - y).
Proof.
  destruct (i32_decomp y) as [k ->].
  replace (x - (y + k * 2 ^ 32)) with (x - y + (- k) * 2 ^ 32) by lia.
  apply i32_shift.
Qed.

Lemma index_app_mid {A} (pre : list A) x post :
  index (pre ++ x :: post) (Z.of_nat (length pre)) = Ok x.
Proof.
  unfold index. destruct (_ <? 0) eqn:E; [apply Z.ltb_lt in E; lia|].
  rewrite Nat2Z.id, nth_error_app2, Nat.sub_diag by lia. reflexivity.
Qed.

Lemma residual_loop l : forall pre a b acc,
  forRange (Z.of_nat (length pre) + 2) (length l)
    (residualAt (pre ++ a :: b :: l) 2) acc
  = Ok (acc ++ diffs a b l).
Proof.
  induction l as [|c rest IH]; intros pre a b acc.
  - cbn [length forRange diffs]. rewrite app_nil_r. reflexivity.
  - cbn [length forRange diffs]. unfold residualAt at 1, fixedPredict.
    cbn [Z.eqb Pos.eqb].
    replace (Z.of_nat (length pre) + 2 - 1) with (Z.of_nat (length (pre ++ [a])))
      by (rewrite length_app; cbn [length]; lia).
    replace (Z.of_nat (length pre) + 2 - 2) with (Z.of_nat (length pre)) by lia.
    replace (Z.of_nat (length pre) + 2)
      with (Z.of_nat (length ((pre ++ [a]) ++ [b])))
      by (rewrite !length_app; cbn [length]; lia).
    replace (pre ++ a :: b :: c :: rest) with ((pre ++ [a]) ++ b :: c :: rest) at 1
      by (rewrite <- app_assoc; reflexivity).
    rewrite index_app_mid. cbn [bind]. rewrite index_app_mid. cbn [bind].
    replace (pre ++ a :: b :: c :: rest) with (((pre ++ [a]) ++ [b]) ++ c :: rest) at 1
      by (rewrite <- !app_assoc; reflexivity).
    rewrite index_app_mid. cbn [bind].
    replace (pre ++ a :: b :: c :: rest) with ((pre ++ [a]) ++ b :: c :: rest)
      by (rewrite <- app_assoc; reflexivity).
    replace (Z.of_nat (length ((pre ++ [a]) ++ [b])) + 1)
      with (Z.of_nat (length (pre ++ [a])) + 2)
      by (rewrite !length_app; cbn [length]; lia).
    rewrite IH, <- app_assoc. reflexivity.
Qed.

Lemma restore_diffs l : forall a b,
  Forall int32 l -> restore a b (diffs a b l) = l.
Proof.
  induction l as [|c rest IH]; intros a b Hl; [reflexivity|].
  inversion Hl as [|? ? Hc Hrest]; subst. cbn [diffs restore].
  assert (E : i32 (i32 (c - i32 (i32 (2 * b) - a)) + i32 (i32 (2 * b) - a)) = c).
  { rewrite i32_add_l. replace (c - i32 (i32 (2 * b) - a) + i32 (i32 (2 * b) - a))
      with c by lia. apply i32_small. exact Hc. }
  rewrite E, IH by exact Hrest. reflexivity.
Qed.

Lemma diffs_int32 l : forall a b, Forall int32 (diffs a b l).
Proof.
  induction l as [|c rest IH]; intros a b; cbn [diffs]; constructor.
  - apply i32_range.
  - apply IH.
Qed.

Lemma length_diffs l : forall a b, length (diffs a b l) = length l.
Proof. induction l; intros; cbn [diffs length]; [reflexivity|f_equal; auto]. Qed.

Lemma diffs_exact a b c :
  i32 (c - i32 (i32 (2 * b) - a)) = i32 (c - 2 * b + a).
Proof.
  rewrite i32_sub_r. destruct (i32_decomp (2 * b)) as [k ->].
  replace (c - (2 * b + k * 2 ^ 32 - a)) with (c - 2 * b + a + (- k) * 2 ^ 32) by lia.
  apply i32_shift.
Qed.

(** X11: fixed prediction. On int32 samples, [fixedPredict] with order
    0..4 at a position with that many samples before it returns the
    prediction polynomial wrapped to int32 once, however the intermediate
    products wrap; with fewer samples before the position it panics (index
    out of range), and any other order gives 0. The residual loop of
    [encodeSubframe] turns samples [s0, s1, t...] into one residual per
    sample of [t], each the second difference wrapped to int32, and adding
    the residuals back to the predictions restores [t] exactly: prediction
    loses nothing. *)
Theorem fixedPredict_lossless s0 s1 t :
  Forall int32 (s0 :: s1 :: t) ->
  (forall samples pos order,
      Forall int32 samples ->
      0 <= order <= 4 -> order <= pos <= Z.of_nat (length samples) ->
      fixedPredict samples pos order
      = Ok (i32 (fixedPolynomial order
                   (nth (Z.to_nat (pos - 1)) samples 0)
                   (nth (Z.to_nat (pos - 2)) samples 0)
                   (nth (Z.to_nat (pos - 3)) samples 0)
                   (nth (Z.to_nat (pos - 4)) samples 0))))
  /\ (forall samples pos order,
        1 <= order <= 4 -> 0 <= pos < order ->
        fixedPredict samples pos order = Panic IndexOutOfRange)
  /\ (forall samples pos order,
        order < 0 \/ 4 < order -> fixedPredict samples pos order = Ok 0)
  /\ exists residuals,
       forRange 2 (Z.to_nat (Z.of_nat (length (s0 :: s1 :: t)) - 2))
         (residualAt (s0 :: s1 :: t) 2) [] = Ok residuals
       /\ length residuals = length t
       /\ Forall int32 residuals
       /\ residuals = diffs s0 s1 t
       /\ (forall a b c, i32 (c - i32 (i32 (2 * b) - a)) = i32 (c - 2 * b + a))
       /\ restore s0 s1 residuals = t.
Proof.
  intros Hs. split; [|split; [|split]].
  - intros samples pos order Hint Ho Hp. unfold fixedPredict, fixedPolynomial.
    assert (Hcases : order = 0 \/ order = 1 \/ order = 2 \/ order = 3 \/ order = 4)
      by lia.
    destruct Hcases as [->|[->|[->|[->| ->]]]]; cbn [Z.eqb Pos.eqb].
    + reflexivity.
    + rewrite (index_ok samples (pos - 1) 0) by lia. f_equal. symmetry.
      apply i32_small. rewrite Forall_forall in Hint. apply Hint, nth_In. lia.
    + rewrite (index_ok samples (pos - 1) 0), (index_ok samples (pos - 2) 0) by lia.
      cbn [bind]. rewrite i32_sub_l. reflexivity.
    + rewrite (index_ok samples (pos - 1) 0), (index_ok samples (pos - 2) 0),
        (index_ok samples (pos - 3) 0) by lia.
      cbn [bind]. f_equal.
      set (x1 := nth _ samples 0). set (x2 := nth _ samples 0).
      set (x3 := nth _ samples 0).
      rewrite i32_add_l.
      destruct (i32_decomp (3 * x1)) as [k1 ->].
      destruct (i32_decomp (3 * x2)) as [k2 ->].
      replace (3 * x1 + k1 * 2 ^ 32 - (3 * x2 + k2 * 2 ^ 32) + x3)
        with (3 * x1 - 3 * x2 + x3 + (k1 - k2) * 2 ^ 32) by lia.
      apply i32_shift.
    + rewrite (index_ok samples (pos - 1) 0), (index_ok samples (pos - 2) 0),
        (index_ok samples (pos - 3) 0), (index_ok samples (pos - 4) 0) by lia.
      cbn [bind]. f_equal.
      set (x1 := nth _ samples 0). set (x2 := nth _ samples 0).
      set (x3 := nth _ samples 0). set (x4 := nth _ samples 0).
      rewrite i32_sub_l.
      destruct (i32_decomp (4 * x1)) as [k1 ->].
      destruct (i32_decomp (6 * x2)) as [k2 ->].
      destruct (i32_decomp (4 * x3)) as [k3 ->].
      destruct (i32_decomp (4 * x1 + k1 * 2 ^ 32 - (6 * x2 + k2 * 2 ^ 32)))
        as [k4 ->].
      replace (4 * x1 + k1 * 2 ^ 32 - (6 * x2 + k2 * 2 ^ 32) + k4 * 2 ^ 32
               + (4 * x3 + k3 * 2 ^ 32) - x4)
        with (4 * x1 - 6 * x2 + 4 * x3 - x4 + (k1 - k2 + k3 + k4) * 2 ^ 32) by lia.
      apply i32_shift.
  - intros samples pos order Ho Hp. unfold fixedPredict.
    assert (Hcases : order = 1 \/ order = 2 \/ order = 3 \/ order = 4) by lia.
    assert (Hneg : forall i, i < 0 -> index samples i = Panic IndexOutOfRange).
    { intros i Hi. unfold index. destruct (Z.ltb_spec i 0); [reflexivity|lia]. }
    assert (Hany : forall i, (exists x, index samples i = Ok x)
                             \/ index samples i = Panic IndexOutOfRange).
    { intros i. unfold index. destruct (i <? 0); [right; reflexivity|].
      destruct (nth_error samples (Z.to_nat i)); [left; eauto|right; reflexivity]. }
    destruct Hcases as [->|[->|[->| ->]]]; cbn [Z.eqb Pos.eqb].
    + apply Hneg. lia.
    + destruct (Hany (pos - 1)) as [(x & ->)| ->]; [|reflexivity]. cbn [bind].
      rewrite Hneg by lia. reflexivity.
    + destruct (Hany (pos - 1)) as [(x & ->)| ->]; [|reflexivity]. cbn [bind].
      destruct (Hany (pos - 2)) as [(y & ->)| ->]; [|reflexivity]. cbn [bind].
      rewrite Hneg by lia. reflexivity.
    + destruct (Hany (pos - 1)) as [(x & ->)| ->]; [|reflexivity]. cbn [bind].
      destruct (Hany (pos - 2)) as [(y & ->)| ->]; [|reflexivity]. cbn [bind].
      destruct (Hany (pos - 3)) as [(z & ->)| ->]; [|reflexivity]. cbn [bind].
      rewrite Hneg by lia. reflexivity.
  - intros samples pos order Ho. unfold fixedPredict.
    repeat match goal with
           | |- context [?a =? ?c] => destruct (Z.eqb_spec a c); [lia|]
           end.
    reflexivity.
  - exists (diffs s0 s1 t).
    replace (Z.to_nat (Z.of_nat (length (s0 :: s1 :: t)) - 2)) with (length t)
      by (cbn [length]; lia).
    split; [exact (residual_loop t [] s0 s1 [])|].
    split; [apply length_diffs|]. split; [apply diffs_int32|].
    split; [reflexivity|]. split; [intros; apply diffs_exact|].
    apply restore_diffs. inversion Hs as [|? ? _ Hs1]; subst.
    inversion Hs1; assumption.
Qed.

Lemma fixedPredict_lossless_witness :
  (forall samples pos order,
      Forall int32 samples ->
      0 <= order <= 4 -> order <= pos <= Z.of_nat (length samples) ->
      fixedPredict samples pos order
      = Ok (i32 (fixedPolynomial order
                   (nth (Z.to_nat (pos - 1)) samples 0)
                   (nth (Z.to_nat (pos - 2)) samples 0)
                   (nth (Z.to_nat (pos - 3)) samples 0)
                   (nth (Z.to_nat (pos - 4)) samples 0))))
  /\ (forall samples pos order,
        1 <= order <= 4 -> 0 <= pos < order ->
        fixedPredict samples pos order = Panic IndexOutOfRange)
  /\ (forall samples pos order,
        order < 0 \/ 4 < order -> fixedPredict samples pos order = Ok 0)
  /\ exists residuals,
       forRange 2 (Z.to_nat (Z.of_nat (length [1; 2; 3; -4; 100]) - 2))
         (residualAt [1; 2; 3; -4; 100] 2) [] = Ok residuals
       /\ length residuals = length [3; -4; 100]
       /\ Forall int32 residuals
       /\ residuals = diffs 1 2 [3; -4; 100]
       /\ (forall a b c, i32 (c - i32 (i32 (2 * b) - a)) = i32 (c - 2 * b + a))
       /\ restore 1 2 residuals = [3; -4; 100].
Proof.
  apply (fixedPredict_lossless 1 2 [3; -4; 100]).
  repeat constructor; simpl; lia.
Defined.
Lemma takeBits_len n a t : length a = n -> takeBits n (a ++ t) = Some (a, t).
Proof. intros <-. apply takeBits_app. Qed.

Section SubframeRoundTrip.

Context {F : Float64Ops}.

Lemma encodeSubframe_emits e bw s0 s1 t spare :
  wf bw -> 0 <= bitsPerSample e <= 57 ->
  emits bw (encodeSubframe e bw (mkSlice (s0 :: s1 :: t) spare))
    (subframeBits (bitsPerSample e) s0 s1
       (findOptimalRiceParameter (diffs s0 s1 t))
       (flat_map (fun r => riceCode r (findOptimalRiceParameter (diffs s0 s1 t)))
                 (diffs s0 s1 t))).
Proof.
  intros Hwf Hbps. unfold encodeSubframe, subframeBits, len. cbn [elems].
  eapply emits_eq.
  - apply emits_bind; [apply writeBits_emits; [exact Hwf|lia]|].
    intros bw1 Hwf1.
    apply emits_bind; [apply writeBits_emits; [exact Hwf1|lia]|].
    intros bw2 Hwf2.
    apply emits_bind; [apply writeBits_emits; [exact Hwf2|lia]|].
    intros bw3 Hwf3.
    apply emits_bind.
    + change (Z.to_nat 2) with 2%nat. cbn [forRange]. unfold writeWarmup.
      change (index (s0 :: s1 :: t) 0) with (Ok s0).
      change (index (s0 :: s1 :: t) (0 + 1)) with (Ok s1). cbn [bind].
      apply emits_bind; [apply writeBitsSigned_emits; [exact Hwf3|exact Hbps]|].
      intros bw4 Hwf4.
      apply emits_bind; [apply writeBitsSigned_emits; [exact Hwf4|exact Hbps]|].
      intros bw5 Hwf5. apply emits_ret. exact Hwf5.
    + intros bw4 Hwf4.
      destruct (_ <? 0) eqn:E; [apply Z.ltb_lt in E; cbn [length] in E; lia|].
      replace (Z.to_nat (Z.of_nat (length (s0 :: s1 :: t)) - 2)) with (length t)
        by (cbn [length]; lia).
      rewrite (residual_loop t [] s0 s1 []
               : forRange 2 (length t) (residualAt (s0 :: s1 :: t) 2) []
                 = Ok (diffs s0 s1 t)).
      cbn [bind].
      apply encodeResidual_emits. exact Hwf4.
  - rewrite ?app_nil_r, <- !app_assoc. reflexivity.
Qed.

(** X12: a subframe can be read back. For a channel block of at least two
    samples that fit [bitsPerSample] bits in two's complement,
    [encodeSubframe] succeeds and appends the header bits 00010100, the two
    warm-up samples in [bitsPerSample] bits each, six zero bits, the 4-bit
    Rice parameter and one Rice code per remaining sample; reading these
    bits as that layout and adding the residuals back to the order-2
    predictions returns the samples of the block and leaves what follows
    untouched, whatever Rice parameter was chosen. *)
Theorem encodeSubframe_reads_back e bw s0 s1 t spare :
  validConfig e -> wf bw ->
  Forall (fun s => - 2 ^ (bitsPerSample e - 1) <= s < 2 ^ (bitsPerSample e - 1))
         (s0 :: s1 :: t) ->
  exists bw' bits p,
    encodeSubframe e bw (mkSlice (s0 :: s1 :: t) spare) = Ok bw' /\ wf bw'
    /\ stream bw' = stream bw ++ bits
    /\ 0 <= p <= 14
    /\ bits = subframeBits (bitsPerSample e) s0 s1 p
                (flat_map (fun r => riceCode r p) (diffs s0 s1 t))
    /\ forall rest,
         decodeSubframe (bitsPerSample e) (length (s0 :: s1 :: t)) (bits ++ rest)
         = Some (s0 :: s1 :: t, rest).
Proof.
  intros (_ & Hbps) Hwf Hfit.
  destruct (encodeSubframe_emits e bw s0 s1 t spare Hwf) as (bw' & E & Hwf' & Hs);
    [lia|].
  set (p := findOptimalRiceParameter (diffs s0 s1 t)) in *.
  assert (Hp : 0 <= p <= 14) by apply findOptimalRiceParameter_range.
  exists bw', (subframeBits (bitsPerSample e) s0 s1 p
                 (flat_map (fun r => riceCode r p) (diffs s0 s1 t))), p.
  split; [exact E|]. split; [exact Hwf'|].
  split; [exact Hs|]. split; [exact Hp|]. split; [reflexivity|].
  intros rest. unfold decodeSubframe, subframeBits. rewrite <- !app_assoc.
  rewrite (takeBits_len 8) by apply length_bitsOf.
  rewrite valueOf_bitsOf. change (20 mod 2 ^ Z.of_nat 8 =? 20) with true.
  cbn [negb].
  rewrite (takeBits_len (Z.to_nat (bitsPerSample e))) by apply length_bitsOf.
  rewrite (takeBits_len (Z.to_nat (bitsPerSample e))) by apply length_bitsOf.
  rewrite (takeBits_len 6) by apply length_bitsOf.
  rewrite valueOf_bitsOf. change (0 mod 2 ^ Z.of_nat 6 =? 0) with true.
  cbn [negb].
  rewrite (takeBits_len 4) by apply length_bitsOf.
  rewrite !valueOf_bitsOf, Z2Nat.id by lia.
  change (2 ^ Z.of_nat 4) with 16. rewrite (Z.mod_small p) by lia.
  replace (length (s0 :: s1 :: t) - 2)%nat with (length (diffs s0 s1 t))
    by (rewrite length_diffs; cbn [length]; lia).
  rewrite decodeRiceAll_codes; [|apply diffs_int32|lia].
  inversion Hfit as [|? ? H0 Hfit1]; subst.
  inversion Hfit1 as [|? ? H1 Hfit2]; subst.
  rewrite !fromTwos_mod by (try lia; assumption).
  rewrite restore_diffs; [reflexivity|].
  assert (Hle : 2 ^ (bitsPerSample e - 1) <= 2 ^ 31)
    by (apply Z.pow_le_mono_r; lia).
  eapply Forall_impl; [|exact Hfit2]. intros x Hx. unfold int32. cbv beta in Hx. lia.
Qed.

End SubframeRoundTrip.

Lemma encodeSubframe_reads_back_witness :
  exists bw' bits p,
    encodeSubframe (F := exactFloat64Ops) cdMono onePending
      (mkSlice (1 :: 2 :: [3; -4; 100]) [9]) = Ok bw' /\ wf bw'
    /\ stream bw' = stream onePending ++ bits
    /\ 0 <= p <= 14
    /\ bits = subframeBits (bitsPerSample cdMono) 1 2 p
                (flat_map (fun r => riceCode r p) (diffs 1 2 [3; -4; 100]))
    /\ forall rest,
         decodeSubframe (bitsPerSample cdMono) (length (1 :: 2 :: [3; -4; 100]))
           (bits ++ rest)
         = Some (1 :: 2 :: [3; -4; 100], rest).
Proof.
  apply (encodeSubframe_reads_back (F := exactFloat64Ops) cdMono onePending
           1 2 [3; -4; 100] [9]).
  - exact valid_cdMono.
  - unfold wf, onePending; cbn [buf current bitCount].
    split; [constructor|]. change (2 ^ 1) with 2. lia.
  - repeat constructor; simpl; lia.
Defined.

(** ** The Rice parameter at the least int32 *)

Lemma u64_add a b : u64 (u64 a + u64 b) = u64 (a + b).
Proof. unfold u64. rewrite <- Z.add_mod by (simpl; lia). reflexivity. Qed.

Lemma u64_add_r a b : u64 (a + u64 b) = u64 (a + b).
Proof. unfold u64. rewrite Z.add_mod_idemp_r by (simpl; lia). reflexivity. Qed.

Lemma u64_add_l a b : u64 (u64 a + b) = u64 (a + b).
Proof. unfold u64. rewrite Z.add_mod_idemp_l by (simpl; lia). reflexivity. Qed.

Lemma u64_shift a k : u64 (a + k * 2 ^ 64) = u64 a.
Proof. unfold u64. apply Z.mod_add. simpl; lia. Qed.

(** The sum the loop forms: every residual counts with its absolute value,
    except the least int32, whose negation wraps onto itself and converts to
    [2^64 - 2^31]. *)
Lemma absSum_wrapped residuals :
  Forall int32 residuals ->
  absSum residuals = u64 (sumAbs residuals - 2 ^ 32 * countMin residuals).
Proof.
  intros H. unfold absSum.
  enough (G : forall acc,
    fold_left (fun sum r => if r <? 0 then u64 (sum + u64 (i32 (- r)))
                            else u64 (sum + u64 r)) residuals (u64 acc)
    = u64 (acc + sumAbs residuals - 2 ^ 32 * countMin residuals)).
  { specialize (G 0). change (u64 0) with 0 in G. rewrite G. reflexivity. }
  induction H as [|r l Hr Hl IH]; intros acc.
  - cbn [fold_left sumAbs fold_right]. unfold countMin. cbn [count_occ].
    replace (acc + 0 - 2 ^ 32 * Z.of_nat 0) with acc by lia. reflexivity.
  - cbn [fold_left]. unfold int32 in Hr.
    change (sumAbs (r :: l)) with (Z.abs r + sumAbs l).
    unfold countMin in *. cbn [count_occ].
    change (- 2 ^ 31) with (-2147483648) in *.
    change (2 ^ 31) with 2147483648 in *. change (2 ^ 32) with 4294967296 in *.
    destruct (Z.eq_dec r (-2147483648)) as [->|Hne].
    + change (-2147483648 <? 0) with true. cbv iota.
      change (i32 (- -2147483648)) with (-2147483648).
      rewrite u64_add_l, u64_add_r, IH. f_equal.
      rewrite Nat2Z.inj_succ. change (Z.abs (-2147483648)) with 2147483648. lia.
    + destruct (Z.ltb_spec r 0) as [L|L].
      * rewrite i32_small by (unfold int32; change (2 ^ 31) with 2147483648; lia).
        rewrite u64_add_l, u64_add_r, IH. f_equal. lia.
      * rewrite u64_add_l, u64_add_r, IH. f_equal. lia.
Qed.

(** C8: the parameter [findOptimalRiceParameter] returns is not that of the
    mean absolute residual when a residual is the least int32. The loop
    forms [sumAbs - 2^32 * k] modulo [2^64], [k] the number of residuals
    equal to [-2^31], since [-r] wraps there. For the residuals
    [-2^31; 2^31 - 1; 1] the absolute values add up to [2^32], the mean is
    above 1 and the floor of its logarithm, 30, clamps to 14; the code's sum
    is 0, its float64 mean 0/3 is below 1, and it returns 0. These are the
    residuals of the 32-bit samples [0; 0; -2^31; 2^31 - 1; 2^31 - 1], for
    which [encodeSubframe] emits the parameter field 0000. The parameter
    lies in 0..14 and is 0 on the empty list in every case. *)
Theorem findOptimalRiceParameter_abs_overflow {F : Float64Ops} :
  ieee754 F ->
  (forall residuals,
     0 <= findOptimalRiceParameter residuals <= 14
     /\ (Forall int32 residuals ->
         absSum residuals = u64 (sumAbs residuals - 2 ^ 32 * countMin residuals)))
  /\ findOptimalRiceParameter [] = 0
  /\ riceParameterSpec [] = 0
  /\ Forall int32 [- 2 ^ 31; 2 ^ 31 - 1; 1]
  /\ sumAbs [- 2 ^ 31; 2 ^ 31 - 1; 1] = 2 ^ 32
  /\ absSum [- 2 ^ 31; 2 ^ 31 - 1; 1] = 0
  /\ riceParameterSpec [- 2 ^ 31; 2 ^ 31 - 1; 1] = 14
  /\ findOptimalRiceParameter [- 2 ^ 31; 2 ^ 31 - 1; 1] = 0
  /\ diffs 0 0 [- 2 ^ 31; 2 ^ 31 - 1; 2 ^ 31 - 1] = [- 2 ^ 31; 2 ^ 31 - 1; 1]
  /\ (forall e bw spare,
        wf bw -> bitsPerSample e = 32 ->
        emits bw
          (encodeSubframe e bw
             (mkSlice [0; 0; - 2 ^ 31; 2 ^ 31 - 1; 2 ^ 31 - 1] spare))
          (subframeBits 32 0 0 0
             (flat_map (fun r => riceCode r 0) [- 2 ^ 31; 2 ^ 31 - 1; 1]))).
Proof.
  intros Hieee.
  assert (Hp : findOptimalRiceParameter [- 2 ^ 31; 2 ^ 31 - 1; 1] = 0).
  { unfold findOptimalRiceParameter. cbn [length].
    change (Z.of_nat 3 =? 0) with false. cbv iota.
    rewrite Hieee.
    change (absSum [- 2 ^ 31; 2 ^ 31 - 1; 1]) with 0.
    change (ieeeMeanBelowOne 0 (Z.of_nat 3)) with true. reflexivity. }
  assert (Hd : diffs 0 0 [- 2 ^ 31; 2 ^ 31 - 1; 2 ^ 31 - 1] = [- 2 ^ 31; 2 ^ 31 - 1; 1])
    by (vm_compute; reflexivity).
  split.
  { intros residuals. split; [apply findOptimalRiceParameter_range | apply absSum_wrapped]. }
  split; [reflexivity|]. split; [reflexivity|].
  split; [repeat constructor; vm_compute; congruence|].
  split; [reflexivity|]. split; [vm_compute; reflexivity|].
  split; [vm_compute; reflexivity|].
  split; [exact Hp|]. split; [exact Hd|].
  intros e bw spare Hwf Hbps.
  pose proof (encodeSubframe_emits e bw 0 0 [- 2 ^ 31; 2 ^ 31 - 1; 2 ^ 31 - 1] spare Hwf) as E.
  rewrite Hbps, Hd, Hp in E. apply E. lia.
Qed.

Lemma findOptimalRiceParameter_abs_overflow_witness :
  ieee754 ieeeFloat64Ops
  /\ findOptimalRiceParameter (F := ieeeFloat64Ops) [- 2 ^ 31; 2 ^ 31 - 1; 1] = 0
  /\ riceParameterSpec [- 2 ^ 31; 2 ^ 31 - 1; 1] = 14.
Proof.
  assert (H : ieee754 ieeeFloat64Ops) by (intros sum n; reflexivity).
  split; [exact H|].
  pose proof (findOptimalRiceParameter_abs_overflow (F := ieeeFloat64Ops) H)
    as (_ & _ & _ & _ & _ & _ & Hs & Hp & _).
  split; [exact Hp | exact Hs].
Defined.
